(** * Projective reconstruction core (lab5/src/reconstruction.py)

    A shallow embedding of [reconstruction.py] and the properties of it
    that the specification states.

    Numbers.  The program computes with IEEE floats through numpy.  The
    embedding reads every float as the real number it approximates and
    every numpy operation as the exact operation, so [R] stands for
    [float], [+ - * /] are exact, and [np.sqrt], [np.log], [np.cos] are
    [sqrt], [ln], [cos].  Rounding and overflow are outside the model.  A
    division raises nothing, as in numpy, and a statement whose truth
    rests on the value of a quotient names the divisor and assumes or
    proves it nonzero.  Two places where a zero divisor or a singular
    matrix changes what the program does are modelled: the normalization
    by a zero deviation, which fills the coefficient matrix of
    [camera_matrix] with [inf] and [nan] and makes [np.linalg.svd] raise;
    and [np.linalg.inv] and [np.linalg.solve] on a matrix that is singular
    in exact arithmetic, where the floating-point elimination either meets
    a zero pivot and raises or divides by a rounding residue and returns,
    which of the two being left to a parameter.

    Arrays.  A homogeneous 2D point is a [vec3], a homogeneous 3D point a
    [vec4]; an [N x 3] or [N x 4] array of points is the list of its rows,
    a [4 x N] array of points stored as columns is the list of its
    columns.  Small matrices are records of their rows.

    Library calls.  [np.linalg.svd], [np.linalg.qr] and the sampler
    [np.random.choice] are taken as parameters of the functions that call
    them; the exact-arithmetic meaning of [np.linalg.inv] and
    [np.linalg.solve] on nonsingular matrices and of [np.linalg.det], on
    the small matrices used here, is written out. *)

From Stdlib Require Import String DecimalString ZArith Arith Bool List Reals Lra Lia Psatz
  RNsatz Sorted.
Import ListNotations.

Open Scope R_scope.

(** ** Exceptions and results *)

(** The Python exceptions that the functions of the module can end with,
    each with the message it carries. *)
Inductive exn : Type :=
| ValueError (msg : string)
| AxisError (msg : string)
| IndexError (msg : string)
| LinAlgError (msg : string).

Inductive result (A : Type) : Type :=
| Ok (a : A)
| Raise (e : exn).

Arguments Ok {A} a.
Arguments Raise {A} e.

Definition bind {A B : Type} (r : result A) (k : A -> result B) : result B :=
  match r with
  | Ok a => k a
  | Raise e => Raise e
  end.

Notation "x <- r ;; k" := (bind r (fun x => k))
  (at level 61, r at next level, right associativity).

(** The decimal numeral that Python prints for a natural number. *)
Definition str (n : nat) : string := NilZero.string_of_uint (Nat.to_uint n).

(** ** Vectors and small matrices *)

Record vec2 : Type := V2 { x2 : R; y2 : R }.
Record vec3 : Type := V3 { x3 : R; y3 : R; z3 : R }.
Record vec4 : Type := V4 { x4 : R; y4 : R; z4 : R; w4 : R }.

(** Matrices are given by their rows. *)
Record mat33 : Type := M33 { m33_0 : vec3; m33_1 : vec3; m33_2 : vec3 }.
Record mat34 : Type := M34 { m34_0 : vec4; m34_1 : vec4; m34_2 : vec4 }.
Record mat44 : Type :=
  M44 { m44_0 : vec4; m44_1 : vec4; m44_2 : vec4; m44_3 : vec4 }.

Definition zero3 : vec3 := V3 0 0 0.
Definition zero4 : vec4 := V4 0 0 0 0.

Definition dot3 (a b : vec3) : R := x3 a * x3 b + y3 a * y3 b + z3 a * z3 b.
Definition dot4 (a b : vec4) : R :=
  x4 a * x4 b + y4 a * y4 b + z4 a * z4 b + w4 a * w4 b.

Definition scale3 (c : R) (v : vec3) : vec3 := V3 (c * x3 v) (c * y3 v) (c * z3 v).
Definition scale4 (c : R) (v : vec4) : vec4 :=
  V4 (c * x4 v) (c * y4 v) (c * z4 v) (c * w4 v).

Definition neg3 (v : vec3) : vec3 := V3 (- x3 v) (- y3 v) (- z3 v).

Definition cross (a b : vec3) : vec3 :=
  V3 (y3 a * z3 b - z3 a * y3 b)
     (z3 a * x3 b - x3 a * z3 b)
     (x3 a * y3 b - y3 a * x3 b).

(** Columns. *)
Definition col33_0 (m : mat33) : vec3 := V3 (x3 (m33_0 m)) (x3 (m33_1 m)) (x3 (m33_2 m)).
Definition col33_1 (m : mat33) : vec3 := V3 (y3 (m33_0 m)) (y3 (m33_1 m)) (y3 (m33_2 m)).
Definition col33_2 (m : mat33) : vec3 := V3 (z3 (m33_0 m)) (z3 (m33_1 m)) (z3 (m33_2 m)).

Definition col34_0 (m : mat34) : vec3 := V3 (x4 (m34_0 m)) (x4 (m34_1 m)) (x4 (m34_2 m)).
Definition col34_1 (m : mat34) : vec3 := V3 (y4 (m34_0 m)) (y4 (m34_1 m)) (y4 (m34_2 m)).
Definition col34_2 (m : mat34) : vec3 := V3 (z4 (m34_0 m)) (z4 (m34_1 m)) (z4 (m34_2 m)).
Definition col34_3 (m : mat34) : vec3 := V3 (w4 (m34_0 m)) (w4 (m34_1 m)) (w4 (m34_2 m)).

Definition col44_0 (m : mat44) : vec4 :=
  V4 (x4 (m44_0 m)) (x4 (m44_1 m)) (x4 (m44_2 m)) (x4 (m44_3 m)).
Definition col44_1 (m : mat44) : vec4 :=
  V4 (y4 (m44_0 m)) (y4 (m44_1 m)) (y4 (m44_2 m)) (y4 (m44_3 m)).
Definition col44_2 (m : mat44) : vec4 :=
  V4 (z4 (m44_0 m)) (z4 (m44_1 m)) (z4 (m44_2 m)) (z4 (m44_3 m)).
Definition col44_3 (m : mat44) : vec4 :=
  V4 (w4 (m44_0 m)) (w4 (m44_1 m)) (w4 (m44_2 m)) (w4 (m44_3 m)).

(** [m.T] *)
Definition T33 (m : mat33) : mat33 := M33 (col33_0 m) (col33_1 m) (col33_2 m).

(** [m @ v] and [v @ m] *)
Definition mv33 (m : mat33) (v : vec3) : vec3 :=
  V3 (dot3 (m33_0 m) v) (dot3 (m33_1 m) v) (dot3 (m33_2 m) v).
Definition vm33 (v : vec3) (m : mat33) : vec3 :=
  V3 (dot3 v (col33_0 m)) (dot3 v (col33_1 m)) (dot3 v (col33_2 m)).
Definition mv34 (m : mat34) (v : vec4) : vec3 :=
  V3 (dot4 (m34_0 m) v) (dot4 (m34_1 m) v) (dot4 (m34_2 m) v).
Definition mv44 (m : mat44) (v : vec4) : vec4 :=
  V4 (dot4 (m44_0 m) v) (dot4 (m44_1 m) v) (dot4 (m44_2 m) v) (dot4 (m44_3 m) v).
Definition vm34 (v : vec3) (m : mat34) : vec4 :=
  V4 (dot3 v (col34_0 m)) (dot3 v (col34_1 m)) (dot3 v (col34_2 m)) (dot3 v (col34_3 m)).
Definition vm44 (v : vec4) (m : mat44) : vec4 :=
  V4 (dot4 v (col44_0 m)) (dot4 v (col44_1 m)) (dot4 v (col44_2 m)) (dot4 v (col44_3 m)).

(** [a @ b] for the shapes the program multiplies. *)
Definition mul33 (a b : mat33) : mat33 :=
  M33 (vm33 (m33_0 a) b) (vm33 (m33_1 a) b) (vm33 (m33_2 a) b).
Definition mul33_34 (a : mat33) (b : mat34) : mat34 :=
  M34 (vm34 (m33_0 a) b) (vm34 (m33_1 a) b) (vm34 (m33_2 a) b).
Definition mul34_44 (a : mat34) (b : mat44) : mat34 :=
  M34 (vm44 (m34_0 a) b) (vm44 (m34_1 a) b) (vm44 (m34_2 a) b).
Definition mul44 (a b : mat44) : mat44 :=
  M44 (vm44 (m44_0 a) b) (vm44 (m44_1 a) b) (vm44 (m44_2 a) b) (vm44 (m44_3 a) b).

Definition scale33 (c : R) (m : mat33) : mat33 :=
  M33 (scale3 c (m33_0 m)) (scale3 c (m33_1 m)) (scale3 c (m33_2 m)).
Definition scale34 (c : R) (m : mat34) : mat34 :=
  M34 (scale4 c (m34_0 m)) (scale4 c (m34_1 m)) (scale4 c (m34_2 m)).

Definition I33 : mat33 := M33 (V3 1 0 0) (V3 0 1 0) (V3 0 0 1).
Definition I44 : mat44 := M44 (V4 1 0 0 0) (V4 0 1 0 0) (V4 0 0 1 0) (V4 0 0 0 1).

(** [np.concatenate((m, e), axis=1)] for a [3 x 3] block and a [3 x 1]
    column: the block with the column appended on the right. *)
Definition concatenate_axis1 (m : mat33) (e : vec3) : mat34 :=
  M34 (V4 (x3 (m33_0 m)) (y3 (m33_0 m)) (z3 (m33_0 m)) (x3 e))
      (V4 (x3 (m33_1 m)) (y3 (m33_1 m)) (z3 (m33_1 m)) (y3 e))
      (V4 (x3 (m33_2 m)) (y3 (m33_2 m)) (z3 (m33_2 m)) (z3 e)).

(** [P[:, :3]] and [P[:, 3]] *)
Definition left_block (p : mat34) : mat33 :=
  M33 (V3 (x4 (m34_0 p)) (y4 (m34_0 p)) (z4 (m34_0 p)))
      (V3 (x4 (m34_1 p)) (y4 (m34_1 p)) (z4 (m34_1 p)))
      (V3 (x4 (m34_2 p)) (y4 (m34_2 p)) (z4 (m34_2 p))).
Definition last_column (p : mat34) : vec3 := col34_3 p.

(** Determinant of a [3 x 3] matrix: the triple product of its rows. *)
Definition det33 (m : mat33) : R := dot3 (m33_0 m) (cross (m33_1 m) (m33_2 m)).

(** A [3 x 3] matrix has rank exactly 2 when its determinant vanishes and
    two of its columns are linearly independent. *)
Definition rank2 (m : mat33) : Prop :=
  det33 m = 0 /\
  (cross (col33_0 m) (col33_1 m) <> zero3 \/
   cross (col33_1 m) (col33_2 m) <> zero3 \/
   cross (col33_2 m) (col33_0 m) <> zero3).

(** ** Helpers of module [maths] *)

Module mth.

(** Modelled from the spec: [maths.hat_operator] (module [maths] is imported
    by reconstruction.py and is not among the sources).  The spec describes
    it as the [3 x 3] skew-symmetric matrix [[e]_x] with [[e]_x v = e x v]. *)
Definition hat_operator (e : vec3) : mat33 :=
  M33 (V3 0 (- z3 e) (y3 e))
      (V3 (z3 e) 0 (- x3 e))
      (V3 (- y3 e) (x3 e) 0).

End mth.

(** ** Second-camera synthesis *)

Section SecondCamera.

(** Modelled from the spec: [maths.nullspace] (not among the sources).
    The spec describes its value on the transpose of a rank-2 fundamental
    matrix as a generator of the null space, a [3 x 1] column; the theorems
    below assume of it only that the value is a nonzero vector of the null
    space. *)
Variable nullspace : mat33 -> vec3.

(** [compute_proj_camera(F, i)], lines 8-20. *)
Definition compute_proj_camera (F : mat33) (i : Z) : mat34 :=
  let e := nullspace (T33 F) in
  let ske := mth.hat_operator e in
  let P := concatenate_axis1 (mul33 ske F) e in
  P.

End SecondCamera.

(** ** numpy primitives *)

Module np.

(** [np.sum], [np.mean] and [np.std] of a flat array of numbers; [np.std]
    is the population standard deviation (ddof = 0) about the mean of
    all the entries. *)
Definition sum (l : list R) : R := fold_right Rplus 0 l.
Definition mean (l : list R) : R := sum l / INR (length l).
Definition var (l : list R) : R :=
  mean (map (fun x => (x - mean l) * (x - mean l)) l).
Definition std (l : list R) : R := sqrt (var l).

(** [np.sign] *)
Definition sign (x : R) : R :=
  if Rlt_dec x 0 then -1 else if Rlt_dec 0 x then 1 else 0.

(** [np.finfo(float).eps], the spacing of binary64 at 1. *)
Definition eps : R := / 2 ^ 52.

End np.

(** Elementwise division of a vector or a matrix by a number. *)
Definition div3 (v : vec3) (c : R) : vec3 := V3 (x3 v / c) (y3 v / c) (z3 v / c).
Definition div4 (v : vec4) (c : R) : vec4 :=
  V4 (x4 v / c) (y4 v / c) (z4 v / c) (w4 v / c).
Definition div33 (m : mat33) (c : R) : mat33 :=
  M33 (div3 (m33_0 m) c) (div3 (m33_1 m) c) (div3 (m33_2 m) c).
Definition div34 (m : mat34) (c : R) : mat34 :=
  M34 (div4 (m34_0 m) c) (div4 (m34_1 m) c) (div4 (m34_2 m) c).

(** *** [np.linalg.inv] on a [4 x 4] matrix

    On a matrix of nonzero determinant the inverse is the adjugate over the
    determinant.  On a matrix that is singular in exact arithmetic the
    call raises [LinAlgError] when the elimination meets a pivot that is
    exactly 0, and otherwise returns the quotients by a rounding residue;
    which of the two happens, and the matrix returned, is given by the
    parameter [inv_singular] ([None] for the exception). *)

Definition ent4 (v : vec4) (j : nat) : R :=
  match j with
  | O => x4 v
  | S O => y4 v
  | S (S O) => z4 v
  | _ => w4 v
  end.

Definition ent44 (m : mat44) (i j : nat) : R :=
  match i with
  | O => ent4 (m44_0 m) j
  | S O => ent4 (m44_1 m) j
  | S (S O) => ent4 (m44_2 m) j
  | _ => ent4 (m44_3 m) j
  end.

Definition det3 (a b c d e f g h k : R) : R :=
  a * (e * k - f * h) - b * (d * k - f * g) + c * (d * h - e * g).

(** The index of the [k]-th row (column) left when row (column) [i] is
    deleted. *)
Definition skip (i k : nat) : nat := if (k <? i)%nat then k else S k.

Definition minor44 (m : mat44) (i j : nat) : R :=
  det3 (ent44 m (skip i 0) (skip j 0)) (ent44 m (skip i 0) (skip j 1)) (ent44 m (skip i 0) (skip j 2))
       (ent44 m (skip i 1) (skip j 0)) (ent44 m (skip i 1) (skip j 1)) (ent44 m (skip i 1) (skip j 2))
       (ent44 m (skip i 2) (skip j 0)) (ent44 m (skip i 2) (skip j 1)) (ent44 m (skip i 2) (skip j 2)).

Definition cofactor44 (m : mat44) (i j : nat) : R :=
  (if Nat.even (i + j) then 1 else -1) * minor44 m i j.

Definition det44 (m : mat44) : R :=
  ent44 m 0 0 * cofactor44 m 0 0 + ent44 m 0 1 * cofactor44 m 0 1 +
  ent44 m 0 2 * cofactor44 m 0 2 + ent44 m 0 3 * cofactor44 m 0 3.

Definition adj44 (m : mat44) : mat44 :=
  M44 (V4 (cofactor44 m 0 0) (cofactor44 m 1 0) (cofactor44 m 2 0) (cofactor44 m 3 0))
      (V4 (cofactor44 m 0 1) (cofactor44 m 1 1) (cofactor44 m 2 1) (cofactor44 m 3 1))
      (V4 (cofactor44 m 0 2) (cofactor44 m 1 2) (cofactor44 m 2 2) (cofactor44 m 3 2))
      (V4 (cofactor44 m 0 3) (cofactor44 m 1 3) (cofactor44 m 2 3) (cofactor44 m 3 3)).

Definition div44 (m : mat44) (c : R) : mat44 :=
  M44 (div4 (m44_0 m) c) (div4 (m44_1 m) c) (div4 (m44_2 m) c) (div4 (m44_3 m) c).

Definition linalg_inv (inv_singular : mat44 -> option mat44) (m : mat44) : result mat44 :=
  if Req_dec_T (det44 m) 0 then
    match inv_singular m with
    | Some m' => Ok m'
    | None => Raise (LinAlgError "Singular matrix")
    end
  else Ok (div44 (adj44 m) (det44 m)).

(** *** [np.linalg.solve] on a [3 x 3] system and [np.linalg.det] on a
    [3 x 3] matrix ([det33])

    On a matrix of nonzero determinant the solution is given by Cramer's
    rule; on a singular one the parameter [solve_singular] says, as for
    [np.linalg.inv], whether the call raises or what it returns. *)

Definition replace_col0 (m : mat33) (b : vec3) : mat33 :=
  M33 (V3 (x3 b) (y3 (m33_0 m)) (z3 (m33_0 m)))
      (V3 (y3 b) (y3 (m33_1 m)) (z3 (m33_1 m)))
      (V3 (z3 b) (y3 (m33_2 m)) (z3 (m33_2 m))).
Definition replace_col1 (m : mat33) (b : vec3) : mat33 :=
  M33 (V3 (x3 (m33_0 m)) (x3 b) (z3 (m33_0 m)))
      (V3 (x3 (m33_1 m)) (y3 b) (z3 (m33_1 m)))
      (V3 (x3 (m33_2 m)) (z3 b) (z3 (m33_2 m))).
Definition replace_col2 (m : mat33) (b : vec3) : mat33 :=
  M33 (V3 (x3 (m33_0 m)) (y3 (m33_0 m)) (x3 b))
      (V3 (x3 (m33_1 m)) (y3 (m33_1 m)) (y3 b))
      (V3 (x3 (m33_2 m)) (y3 (m33_2 m)) (z3 b)).

Definition linalg_solve (solve_singular : mat33 -> vec3 -> option vec3)
  (m : mat33) (b : vec3) : result vec3 :=
  if Req_dec_T (det33 m) 0 then
    match solve_singular m b with
    | Some t => Ok t
    | None => Raise (LinAlgError "Singular matrix")
    end
  else Ok (V3 (det33 (replace_col0 m b) / det33 m)
              (det33 (replace_col1 m b) / det33 m)
              (det33 (replace_col2 m b) / det33 m)).

(** ** Affine upgrade *)

(** A list comprehension whose body can raise. *)
Fixpoint mapM {A B : Type} (f : A -> result B) (l : list A) : result (list B) :=
  match l with
  | [] => Ok []
  | a :: l' => b <- f a ;; bs <- mapM f l' ;; Ok (b :: bs)
  end.

(** [transform(aff_hom, Xprj, cams_pr)], lines 49-57.  [Xprj] is the list of
    the columns of the [4 x N] array; the inverse is taken once per camera,
    inside the comprehension. *)
Definition transform (inv_singular : mat44 -> option mat44)
  (aff_hom : mat44) (Xprj : list vec4) (cams_pr : list mat34)
  : result (list vec4 * list mat34) :=
  let Xaff := map (mv44 aff_hom) Xprj in
  let Xaff := map (fun X => div4 X (w4 X)) Xaff in
  cams_aff <- mapM (fun cam => Hinv <- linalg_inv inv_singular aff_hom ;;
                               Ok (mul34_44 cam Hinv)) cams_pr ;;
  Ok (Xaff, cams_aff).

(** ** Homogeneous and Euclidean coordinates *)

(** [homog(x)], lines 140-141, on the array built by [np.asarray] from a list
    of 2D observations.  An empty list gives a one-dimensional array of shape
    [(0,)], on which [np.concatenate(..., axis=1)] raises. *)
Definition homog (x : list vec2) : result (list vec3) :=
  match x with
  | [] => Raise (AxisError "axis 1 is out of bounds for array of dimension 1")
  | _ => Ok (map (fun p => V3 (x2 p) (y2 p) 1) x)
  end.

(** [euclid(x)], lines 144-145, on one row of three and on one row of
    four entries. *)
Definition euclid (x : vec3) : vec2 := V2 (x3 x / z3 x) (y3 x / z3 x).
Definition euclid4 (x : vec4) : vec3 := V3 (x4 x / w4 x) (y4 x / w4 x) (z4 x / w4 x).

(** ** Point normalization *)

(** [normalize2dpts(pts)], lines 148-155.  [np.mean(pts[:, :2], axis=0)] is the
    pair of column means, [np.std(pts[:, :2])] the deviation of all [2 N]
    entries together. *)
Definition normalize2dpts (pts : list vec3) : list vec3 * mat33 :=
  let mean0 := np.mean (map x3 pts) in
  let mean1 := np.mean (map y3 pts) in
  let S := sqrt 2 / np.std (flat_map (fun p => [x3 p; y3 p]) pts) in
  let T := M33 (V3 S 0 (- S * mean0))
               (V3 0 S (- S * mean1))
               (V3 0 0 1) in
  (map (mv33 T) pts, T).

(** [normalize3dpts(pts)], lines 158-166. *)
Definition normalize3dpts (pts : list vec4) : list vec4 * mat44 :=
  let mean0 := np.mean (map x4 pts) in
  let mean1 := np.mean (map y4 pts) in
  let mean2 := np.mean (map z4 pts) in
  let S := sqrt 2 / np.std (flat_map (fun p => [x4 p; y4 p; z4 p]) pts) in
  let T := M44 (V4 S 0 0 (- S * mean0))
               (V4 0 S 0 (- S * mean1))
               (V4 0 0 S (- S * mean2))
               (V4 0 0 0 1) in
  (map (mv44 T) pts, T).

(** ** Direct linear transform *)

(** The message of the [IndexError] that numpy raises for row [i] of an
    array of [n] rows. *)
Definition index_message (i n : nat) : string :=
  ("index " ++ str i ++ " is out of bounds for axis 0 with size " ++ str n)%string.

(** [a[i]] on the rows of an array. *)
Definition getitem {A : Type} (a : list A) (i : nat) : result A :=
  match nth_error a i with
  | Some r => Ok r
  | None => Raise (IndexError (index_message i (length a)))
  end.

(** [a[idx]] for an array of row indices. *)
Definition take_rows {A : Type} (a : list A) (idx : list nat) : result (list A) :=
  mapM (getitem a) idx.

(** The two rows of [A] written at lines 126-127 for one correspondence. *)
Definition dlt_row_even (X : vec4) (x : vec3) : list R :=
  [0; 0; 0; 0;
   - z3 x * x4 X; - z3 x * y4 X; - z3 x * z4 X; - z3 x * w4 X;
   y3 x * x4 X; y3 x * y4 X; y3 x * z4 X; y3 x * w4 X].
Definition dlt_row_odd (X : vec4) (x : vec3) : list R :=
  [z3 x * x4 X; z3 x * y4 X; z3 x * z4 X; z3 x * w4 X;
   0; 0; 0; 0;
   - x3 x * x4 X; - x3 x * y4 X; - x3 x * z4 X; - x3 x * w4 X].

(** The loop of lines 123-127 over a list of indices, filling [A] from the
    top. *)
Fixpoint dlt_loop (idx : list nat) (pts3d : list vec4) (pts2d : list vec3)
  : result (list (list R)) :=
  match idx with
  | [] => Ok []
  | i :: idx' =>
      X <- getitem pts3d i ;;
      x <- getitem pts2d i ;;
      A <- dlt_loop idx' pts3d pts2d ;;
      Ok (dlt_row_even X x :: dlt_row_odd X x :: A)
  end.

(** [A] after [for i in range(6)]. *)
Definition dlt_matrix (pts3d : list vec4) (pts2d : list vec3) : result (list (list R)) :=
  dlt_loop (seq 0 6) pts3d pts2d.

(** [p.reshape((3, 4))] *)
Definition reshape34 (p : list R) : mat34 :=
  M34 (V4 (nth 0 p 0) (nth 1 p 0) (nth 2 p 0) (nth 3 p 0))
      (V4 (nth 4 p 0) (nth 5 p 0) (nth 6 p 0) (nth 7 p 0))
      (V4 (nth 8 p 0) (nth 9 p 0) (nth 10 p 0) (nth 11 p 0)).

Section DLT.

(** [np.linalg.svd(A)]: the factor [vh], as the list of its rows. *)
Variable svd_vh : list (list R) -> list (list R).

(** The matrix of line 134, before the division of line 135. *)
Definition denormalized (T1 : mat44) (T2 : mat33) (p : list R) : mat34 :=
  mul34_44 (mul33_34 (T33 T2) (reshape34 p)) T1.

(** [np.linalg.svd(A)] at line 129, given the deviations that the two
    normalizations divided by.  When one of them is 0 the scale
    [sqrt 2 / 0] is [inf], the normalized points and with them [A] hold
    [inf] and [nan], and the call raises; otherwise [A] is finite and the
    call returns. *)
Definition linalg_svd (std3 std2 : R) (A : list (list R)) : result (list (list R)) :=
  if Req_dec_T std3 0 then Raise (LinAlgError "SVD did not converge")
  else if Req_dec_T std2 0 then Raise (LinAlgError "SVD did not converge")
  else Ok (svd_vh A).

(** [camera_matrix(pts3d, pts2d)], lines 116-137.  [vh.T[:, -1]] is the last
    row of [vh]. *)
Definition camera_matrix (pts3d : list vec4) (pts2d : list vec3) : result mat34 :=
  let std3 := np.std (flat_map (fun p => [x4 p; y4 p; z4 p]) pts3d) in
  let std2 := np.std (flat_map (fun p => [x3 p; y3 p]) pts2d) in
  let '(pts3d, T1) := normalize3dpts pts3d in
  let '(pts2d, T2) := normalize2dpts pts2d in
  A <- dlt_matrix pts3d pts2d ;;
  vh <- linalg_svd std3 std2 A ;;
  let p := last vh [] in
  let P := denormalized T1 T2 p in
  let P := div34 P (w4 (m34_2 P)) in
  Ok P.

End DLT.

(** ** Robust resection *)

(** A track: its 3D point and the dictionary from view index to 2D
    observation. *)
Record track : Type := Track { pt : vec4; views : list (Z * vec2) }.

(** [tk.views[i]], with [None] when [i not in tk.views]. *)
Fixpoint views_get (d : list (Z * vec2)) (i : Z) : option vec2 :=
  match d with
  | [] => None
  | (k, x) :: d' => if Z.eqb k i then Some x else views_get d' i
  end.

(** The loop of lines 62-67. *)
Fixpoint gather (tracks : list track) (i : Z) : list vec4 * list vec2 :=
  match tracks with
  | [] => ([], [])
  | tk :: tracks' =>
      let '(pts3d, pts2d) := gather tracks' i in
      if Req_dec_T (w4 (pt tk)) 0 then (pts3d, pts2d)
      else match views_get (views tk) i with
           | Some x => (pt tk :: pts3d, x :: pts2d)
           | None => (pts3d, pts2d)
           end
  end.

(** [np.random.choice(range(n), k, replace=False)], given the indices it
    draws when it succeeds. *)
Definition random_choice (n k : nat) (draw : list nat) : result (list nat) :=
  if (n <? k)%nat
  then Raise (ValueError "Cannot take a larger sample than population when 'replace=False'")
  else Ok draw.

(** Squared reprojection distance of one correspondence, line 87. *)
Definition reproj_dist (P : mat34) (X : vec4) (x : vec3) : R :=
  let a := euclid x in
  let b := euclid (mv34 P X) in
  (x2 a - x2 b) ^ 2 + (y2 a - y2 b) ^ 2.

(** [np.where(d < th)[0]], the indices counted from [i]. *)
Fixpoint where_lt (d : list R) (th : R) (i : nat) : list nat :=
  match d with
  | [] => []
  | x :: d' =>
      if Rlt_dec x th then i :: where_lt d' th (S i) else where_lt d' th (S i)
  end.

(** The variables of the RANSAC loop that change from one iteration to the
    next. *)
Record ransac_state : Type :=
  Ransac { it : nat; max_it : R; best_inliers : list nat }.

Definition p_conf : R := 999 / 1000.
Definition th : R := 1 - cos (4 / 1000).

(** Lines 93-96: the clamped probability that a sample has an outlier. *)
Definition pNoOutliers (n_best n : nat) : R :=
  let fracinliers := INR n_best / INR n in
  let pNoOutliers := 1 - fracinliers ^ 6 in
  let pNoOutliers := Rmax np.eps pNoOutliers in
  let pNoOutliers := Rmin (1 - np.eps) pNoOutliers in
  pNoOutliers.

(** The estimate of line 97. *)
Definition budget (n_best n : nat) : R :=
  ln (1 - p_conf) / ln (pNoOutliers n_best n).

Section Resection.

Variable svd_vh : list (list R) -> list (list R).

(** The indices drawn by the sampler in iteration [it]. *)
Variable sample : nat -> list nat.

Variable pts3d : list vec4.
Variable pts2d : list vec3.

(** One iteration of the loop, lines 84-99. *)
Definition ransac_step (st : ransac_state) : result ransac_state :=
  let n := length pts3d in
  points <- random_choice n 6 (sample (it st)) ;;
  X6 <- take_rows pts3d points ;;
  x6 <- take_rows pts2d points ;;
  P <- camera_matrix svd_vh X6 x6 ;;
  let d := map (fun c => reproj_dist P (fst c) (snd c)) (combine pts3d pts2d) in
  let inliers := where_lt d th 0 in
  let best := if (length (best_inliers st) <? length inliers)%nat
              then inliers else best_inliers st in
  let max_it' := Rmin (max_it st) (budget (length best) n) in
  Ok (Ransac (S (it st)) max_it' best).

(** [while it < max_it], with a bound on the number of iterations unrolled;
    [None] when the bound is reached with the loop still running. *)
Fixpoint ransac_loop (fuel : nat) (st : ransac_state) : option (result ransac_state) :=
  if Rlt_dec (INR (it st)) (max_it st) then
    match fuel with
    | O => None
    | S fuel' =>
        match ransac_step st with
        | Ok st' => ransac_loop fuel' st'
        | Raise e => Some (Raise e)
        end
    end
  else Some (Ok st).

(** Lines 101-104 (the prints of lines 108-111 are left out). *)
Definition resection_finish (st : ransac_state) : result mat34 :=
  if (length (best_inliers st) <? 6)%nat
  then Raise (ValueError "There must be at least 6 inliers to compute the camera matrix.")
  else
    X <- take_rows pts3d (best_inliers st) ;;
    x <- take_rows pts2d (best_inliers st) ;;
    camera_matrix svd_vh X x.

End Resection.

Definition ransac_init : ransac_state := Ransac 0 1000 [].

(** [resection(tracks, i)], lines 60-113. *)
Definition resection (svd_vh : list (list R) -> list (list R)) (sample : nat -> list nat)
  (fuel : nat) (tracks : list track) (i : Z) : option (result mat34) :=
  let '(pts3d, pts2d) := gather tracks i in
  match homog pts2d with
  | Raise e => Some (Raise e)
  | Ok pts2d =>
      match ransac_loop svd_vh sample pts3d pts2d fuel ransac_init with
      | None => None
      | Some (Raise e) => Some (Raise e)
      | Some (Ok st) => Some (resection_finish svd_vh pts3d pts2d st)
      end
  end.

(** ** Camera factorization *)

(** [np.flipud(m)], [m[::-1, :]] and [m[:, ::-1]] *)
Definition flipud (m : mat33) : mat33 := M33 (m33_2 m) (m33_1 m) (m33_0 m).
Definition fliplr (m : mat33) : mat33 :=
  let f v := V3 (z3 v) (y3 v) (x3 v) in
  M33 (f (m33_0 m)) (f (m33_1 m)) (f (m33_2 m)).

(** [np.diag(np.sign(np.diag(K)))] *)
Definition diag_sign (K : mat33) : mat33 :=
  M33 (V3 (np.sign (x3 (m33_0 K))) 0 0)
      (V3 0 (np.sign (y3 (m33_1 K))) 0)
      (V3 0 0 (np.sign (z3 (m33_2 K)))).

Definition neg33 (m : mat33) : mat33 := M33 (neg3 (m33_0 m)) (neg3 (m33_1 m)) (neg3 (m33_2 m)).

Section Factorization.

(** [np.linalg.qr(A)] on a [3 x 3] matrix: the pair [(Q, R)]. *)
Variable linalg_qr : mat33 -> mat33 * mat33.

(** What [np.linalg.solve] does with a singular matrix. *)
Variable solve_singular : mat33 -> vec3 -> option vec3.

(** [RQ_factorization(A)], lines 191-199. *)
Definition RQ_factorization (A : mat33) : mat33 * mat33 :=
  let '(Q, R) := linalg_qr (T33 (flipud A)) in
  let R := flipud (T33 R) in
  let Q := T33 Q in
  (fliplr R, flipud Q).

(** [KRt_from_P(P)], lines 169-188. *)
Definition KRt_from_P (P : mat34) : result (mat33 * mat33 * vec3) :=
  let '(K, R) := RQ_factorization (left_block P) in
  let T := diag_sign K in
  let K := mul33 K T in
  let R := mul33 T R in
  t <- linalg_solve solve_singular K (last_column P) ;;
  let '(R, t) := if Rlt_dec (det33 R) 0 then (neg33 R, neg3 t) else (R, t) in
  let K := div33 K (z3 (m33_2 K)) in
  Ok (K, R, t).

End Factorization.


(** ** Triangulation and reprojection error *)

Definition sub2 (a b : vec2) : vec2 := V2 (x2 a - x2 b) (y2 a - y2 b).

(** [a - b] for two arrays of shape [(2, N)] and [(2, M)], given by their
    columns: numpy stretches an array of one column to the other's width,
    and refuses widths that differ otherwise. *)
Definition broadcast_message (n m : nat) : string :=
  ("operands could not be broadcast together with shapes (2," ++ str n ++
   ") (2," ++ str m ++ ") ")%string.

Definition broadcast_sub (a b : list vec2) : result (list vec2) :=
  match a, b with
  | [x], _ => Ok (map (fun y => sub2 x y) b)
  | _, [y] => Ok (map (fun x => sub2 x y) a)
  | _, _ =>
      if (length a =? length b)%nat
      then Ok (map (fun c => sub2 (fst c) (snd c)) (combine a b))
      else Raise (ValueError (broadcast_message (length a) (length b)))
  end.

(** [np.sum(d**2)] over all the entries of an array of shape [(2, N)]. *)
Definition sum_squares (d : list vec2) : R :=
  np.sum (map (fun v => x2 v ^ 2 + y2 v ^ 2) d).

(** [compute_reproj_error(X, P1, P2, xr1, xr2)], lines 36-46.  [X] is the
    list of the columns of the [4 x N] array, [xr1] and [xr2] the lists of
    the columns of the [2 x N] arrays of observations. *)
Definition compute_reproj_error (X : list vec4) (P1 P2 : mat34) (xr1 xr2 : list vec2)
  : result R :=
  let xp1 := map (mv34 P1) X in
  let xp2 := map (mv34 P2) X in
  let xp1 := map euclid xp1 in
  let xp2 := map euclid xp2 in
  d1 <- broadcast_sub xr1 xp1 ;;
  d2 <- broadcast_sub xr2 xp2 ;;
  Ok (sum_squares d1 + sum_squares d2).

Section Triangulation.

(** [cv2.triangulatePoints(P1, P2, xr1, xr2)]: the [4 x N] array of
    homogeneous points, as the list of its columns. *)
Variable triangulatePoints : mat34 -> mat34 -> list vec2 -> list vec2 -> list vec4.

(** [estimate_3d_points(P1, P2, xr1, xr2)], lines 23-33 (the print of lines
    30-31 is left out). *)
Definition estimate_3d_points (P1 P2 : mat34) (xr1 xr2 : list vec2) : list vec4 :=
  let Xprj := triangulatePoints P1 P2 xr1 xr2 in
  let Xprj := map (fun X => div4 X (w4 X)) Xprj in
  Xprj.

End Triangulation.

(** * Properties *)

(** ** Equalities of vectors and matrices, coordinate by coordinate *)

Lemma vec3_eq a b c a' b' c' :
  a = a' -> b = b' -> c = c' -> V3 a b c = V3 a' b' c'.
Proof. intros; subst; reflexivity. Qed.

Lemma vec4_eq a b c d a' b' c' d' :
  a = a' -> b = b' -> c = c' -> d = d' -> V4 a b c d = V4 a' b' c' d'.
Proof. intros; subst; reflexivity. Qed.

Lemma mat34_eq r0 r1 r2 r0' r1' r2' :
  r0 = r0' -> r1 = r1' -> r2 = r2' -> M34 r0 r1 r2 = M34 r0' r1' r2'.
Proof. intros; subst; reflexivity. Qed.

Lemma vec3_neq_zero v : v <> zero3 -> 0 < dot3 v v.
Proof.
  destruct v as [a b c]; unfold zero3, dot3; simpl; intros H.
  destruct (Req_dec a 0) as [Ha|Ha]; [|nra].
  destruct (Req_dec b 0) as [Hb|Hb]; [|nra].
  destruct (Req_dec c 0) as [Hc|Hc]; [|nra].
  subst; contradiction H; reflexivity.
Qed.

(** ** Second-camera synthesis *)

Lemma hat_operator_cross e v : mv33 (mth.hat_operator e) v = cross e v.
Proof.
  destruct e, v; unfold mv33, mth.hat_operator, cross, dot3; simpl.
  apply vec3_eq; ring.
Qed.

Lemma hat_operator_skew e : T33 (mth.hat_operator e) = neg33 (mth.hat_operator e).
Proof.
  destruct e; unfold T33, neg33, neg3, mth.hat_operator, col33_0, col33_1, col33_2; simpl.
  f_equal; apply vec3_eq; ring.
Qed.

(** A vector orthogonal to [a] and [b] is a multiple of [a x b]. *)
Lemma perp_pair_parallel (a b u : vec3) :
  dot3 u a = 0 -> dot3 u b = 0 ->
  scale3 (dot3 (cross a b) (cross a b)) u = scale3 (dot3 u (cross a b)) (cross a b).
Proof.
  destruct a as [a1 a2 a3], b as [b1 b2 b3], u as [u1 u2 u3].
  unfold dot3, cross, scale3; simpl; intros Ha Hb.
  apply vec3_eq; nsatz.
Qed.

(** When [a] and [b] are independent, the vectors orthogonal to both form a
    line, generated by any nonzero one of them. *)
Lemma perp_pair_generator (a b v e : vec3) :
  cross a b <> zero3 ->
  dot3 v a = 0 -> dot3 v b = 0 ->
  dot3 e a = 0 -> dot3 e b = 0 ->
  e <> zero3 ->
  exists c, v = scale3 c e.
Proof.
  intros Hn Hva Hvb Hea Heb He.
  pose proof (vec3_neq_zero _ Hn) as Hnn.
  pose proof (perp_pair_parallel a b v Hva Hvb) as Hv.
  pose proof (perp_pair_parallel a b e Hea Heb) as Hee.
  set (n := cross a b) in *.
  assert (Hen : dot3 e n <> 0).
  { intros H0. rewrite H0 in Hee. apply He.
    destruct e as [e1 e2 e3], n as [n1 n2 n3]; unfold scale3, dot3, zero3 in *; simpl in *.
    injection Hee as H1 H2 H3.
    apply vec3_eq; nra. }
  exists (dot3 v n / dot3 e n).
  destruct e as [e1 e2 e3], n as [n1 n2 n3], v as [v1 v2 v3];
    unfold scale3, dot3, zero3 in *; simpl in *.
  injection Hee as H1 H2 H3. injection Hv as G1 G2 G3.
  set (nn := n1 * n1 + n2 * n2 + n3 * n3) in *.
  set (en := e1 * n1 + e2 * n2 + e3 * n3) in *.
  set (vn := v1 * n1 + v2 * n2 + v3 * n3) in *.
  assert (Hnn0 : nn <> 0) by lra.
  assert (Hprod : nn * en <> 0)
    by (apply Rmult_integral_contrapositive_currified; assumption).
  apply vec3_eq; apply (Rmult_eq_reg_l (nn * en)); try assumption;
    (field_simplify; [|assumption]).
  - transitivity (en * (nn * v1)); [ring|]. rewrite G1.
    transitivity (vn * (nn * e1)); [|ring]. rewrite H1. ring.
  - transitivity (en * (nn * v2)); [ring|]. rewrite G2.
    transitivity (vn * (nn * e2)); [|ring]. rewrite H2. ring.
  - transitivity (en * (nn * v3)); [ring|]. rewrite G3.
    transitivity (vn * (nn * e3)); [|ring]. rewrite H3. ring.
Qed.

Lemma vm33_transpose v m : vm33 v m = mv33 (T33 m) v.
Proof.
  destruct v, m as [[] [] []]; unfold vm33, mv33, T33, dot3, col33_0, col33_1, col33_2; simpl.
  apply vec3_eq; ring.
Qed.

Lemma vm33_zero_columns v m :
  vm33 v m = zero3 ->
  dot3 v (col33_0 m) = 0 /\ dot3 v (col33_1 m) = 0 /\ dot3 v (col33_2 m) = 0.
Proof. unfold vm33, zero3; intros H; injection H; auto. Qed.

(** C3.  For a fundamental matrix [F] of rank exactly 2, with [e'] the value
    of [nullspace] on [F.T] (a nonzero vector annihilated by [F.T]),
    [compute_proj_camera] returns the [3 x 4] matrix whose left block is
    [[e']_x @ F] and whose fourth column is [e']; [[e']_x] is skew-symmetric
    and acts as the cross product with [e']; and [e'] generates the left
    null space of [F]. *)
Theorem compute_proj_camera_closed_form
  (nullspace : mat33 -> vec3) (F : mat33) (i : Z) :
  rank2 F ->
  nullspace (T33 F) <> zero3 ->
  mv33 (T33 F) (nullspace (T33 F)) = zero3 ->
  let e' := nullspace (T33 F) in
  let P := compute_proj_camera nullspace F i in
  left_block P = mul33 (mth.hat_operator e') F /\
  last_column P = e' /\
  T33 (mth.hat_operator e') = neg33 (mth.hat_operator e') /\
  (forall v, mv33 (mth.hat_operator e') v = cross e' v) /\
  vm33 e' F = zero3 /\
  (forall v, vm33 v F = zero3 -> exists c, v = scale3 c e').
Proof.
  intros [Hdet Hcols] Hne Hnull e' P.
  assert (HeF : vm33 e' F = zero3) by (rewrite vm33_transpose; exact Hnull).
  refine (conj _ (conj _ (conj _ (conj _ (conj _ _))))).
  - subst P; unfold compute_proj_camera; fold e'.
    destruct (mul33 (mth.hat_operator e') F) as [[] [] []]; reflexivity.
  - subst P; unfold compute_proj_camera; fold e'.
    generalize (mul33 (mth.hat_operator e') F); intros m.
    destruct e'; reflexivity.
  - apply hat_operator_skew.
  - apply hat_operator_cross.
  - exact HeF.
  - intros v Hv.
    destruct (vm33_zero_columns _ _ Hv) as (V0 & V1 & V2).
    destruct (vm33_zero_columns _ _ HeF) as (E0 & E1 & E2).
    destruct Hcols as [H | [H | H]].
    + exact (perp_pair_generator _ _ v e' H V0 V1 E0 E1 Hne).
    + exact (perp_pair_generator _ _ v e' H V1 V2 E1 E2 Hne).
    + exact (perp_pair_generator _ _ v e' H V2 V0 E2 E0 Hne).
Qed.

(** The fundamental matrix of a pure translation along the first axis, and
    its epipole. *)
Definition F_translation : mat33 := M33 (V3 0 0 0) (V3 0 0 (-1)) (V3 0 1 0).
Definition e_translation : vec3 := V3 1 0 0.

Lemma compute_proj_camera_closed_form_witness :
  left_block (compute_proj_camera (fun _ => e_translation) F_translation 0) =
    mul33 (mth.hat_operator e_translation) F_translation /\
  last_column (compute_proj_camera (fun _ => e_translation) F_translation 0) =
    e_translation /\
  T33 (mth.hat_operator e_translation) = neg33 (mth.hat_operator e_translation) /\
  (forall v, mv33 (mth.hat_operator e_translation) v = cross e_translation v) /\
  vm33 e_translation F_translation = zero3 /\
  (forall v, vm33 v F_translation = zero3 -> exists c, v = scale3 c e_translation).
Proof.
  apply (compute_proj_camera_closed_form (fun _ => e_translation) F_translation 0).
  - split.
    + unfold det33, F_translation, dot3, cross; simpl; ring.
    + right; left. unfold F_translation, cross, col33_1, col33_2, zero3; simpl.
      intros H; injection H; intros; lra.
  - unfold e_translation, zero3; intros H; injection H; intros; lra.
  - unfold mv33, T33, F_translation, e_translation, dot3, col33_0, col33_1, col33_2, zero3;
      simpl. apply vec3_eq; ring.
Defined.

(** C10.  The view index passed to [compute_proj_camera] is not read: the
    result is the same for any two values of it. *)
Theorem compute_proj_camera_view_independent
  (nullspace : mat33 -> vec3) (F : mat33) (i i' : Z) :
  compute_proj_camera nullspace F i = compute_proj_camera nullspace F i'.
Proof. unfold compute_proj_camera. reflexivity. Qed.

(** ** Affine upgrade *)

Lemma mat44_eq r0 r1 r2 r3 r0' r1' r2' r3' :
  r0 = r0' -> r1 = r1' -> r2 = r2' -> r3 = r3' ->
  M44 r0 r1 r2 r3 = M44 r0' r1' r2' r3'.
Proof. intros; subst; reflexivity. Qed.

(** The adjugate over the determinant is a left inverse. *)
Lemma linalg_inv_left (H : mat44) :
  det44 H <> 0 -> mul44 (div44 (adj44 H) (det44 H)) H = I44.
Proof.
  destruct H as [[a00 a01 a02 a03] [a10 a11 a12 a13]
                 [a20 a21 a22 a23] [a30 a31 a32 a33]].
  intros Hd.
  unfold mul44, div44, adj44, div4, vm44, dot4, I44, col44_0, col44_1, col44_2, col44_3.
  cbn [m44_0 m44_1 m44_2 m44_3 x4 y4 z4 w4].
  revert Hd.
  unfold det44, cofactor44, minor44, det3, ent44, ent4, skip.
  cbn [m44_0 m44_1 m44_2 m44_3 x4 y4 z4 w4 Nat.ltb Nat.leb Nat.even Nat.add].
  intros Hd.
  apply mat44_eq; apply vec4_eq; field; intros E; apply Hd; rewrite <- E; ring.
Qed.

Lemma linalg_inv_nonsingular (inv_singular : mat44 -> option mat44) (H : mat44) :
  det44 H <> 0 -> linalg_inv inv_singular H = Ok (div44 (adj44 H) (det44 H)).
Proof.
  intros Hd. unfold linalg_inv. destruct (Req_dec_T (det44 H) 0); [contradiction|reflexivity].
Qed.

Lemma mapM_total {A B : Type} (f : A -> result B) (g : A -> B) (l : list A) :
  (forall a, f a = Ok (g a)) -> mapM f l = Ok (map g l).
Proof.
  intros Hf. induction l as [|a l IH]; simpl; [reflexivity|].
  rewrite Hf, IH. reflexivity.
Qed.

Lemma mv34_mul34_44 (P : mat34) (M : mat44) (v : vec4) :
  mv34 (mul34_44 P M) v = mv34 P (mv44 M v).
Proof.
  destruct P as [[] [] []], M as [[] [] [] []], v.
  unfold mv34, mul34_44, mv44, vm44, dot4, col44_0, col44_1, col44_2, col44_3; simpl.
  apply vec3_eq; ring.
Qed.

Lemma mv44_mul44 (A B : mat44) (v : vec4) :
  mv44 (mul44 A B) v = mv44 A (mv44 B v).
Proof.
  destruct A as [[] [] [] []], B as [[] [] [] []], v.
  unfold mul44, mv44, vm44, dot4, col44_0, col44_1, col44_2, col44_3; simpl.
  apply vec4_eq; ring.
Qed.

Lemma mv44_I44 (v : vec4) : mv44 I44 v = v.
Proof. destruct v; unfold mv44, I44, dot4; simpl. apply vec4_eq; ring. Qed.

Lemma mv44_div4 (M : mat44) (v : vec4) (c : R) :
  mv44 M (div4 v c) = div4 (mv44 M v) c.
Proof.
  destruct M as [[] [] [] []], v.
  unfold mv44, div4, dot4, Rdiv; simpl. apply vec4_eq; ring.
Qed.

Lemma mv34_div4 (P : mat34) (v : vec4) (c : R) :
  mv34 P (div4 v c) = scale3 (/ c) (mv34 P v).
Proof.
  destruct P as [[] [] []], v.
  unfold mv34, div4, scale3, dot4, Rdiv; simpl. apply vec3_eq; ring.
Qed.

(** C5.  For a nonsingular [H], [transform] returns points and cameras, one
    for each point and camera given, such that for every camera [k] and
    every point [j] whose image under [H] has nonzero homogeneous scale,
    [cams_aff[k] @ Xaff[:, j]] is a nonzero multiple of
    [cams_pr[k] @ Xprj[:, j]]. *)
Theorem transform_preserves_projections
  (inv_singular : mat44 -> option mat44)
  (H : mat44) (Xprj : list vec4) (cams_pr : list mat34) :
  det44 H <> 0 ->
  exists Xaff cams_aff,
    transform inv_singular H Xprj cams_pr = Ok (Xaff, cams_aff) /\
    length Xaff = length Xprj /\
    length cams_aff = length cams_pr /\
    forall k j P X,
      nth_error cams_pr k = Some P ->
      nth_error Xprj j = Some X ->
      w4 (mv44 H X) <> 0 ->
      exists P' X' c,
        nth_error cams_aff k = Some P' /\
        nth_error Xaff j = Some X' /\
        c <> 0 /\
        mv34 P' X' = scale3 c (mv34 P X).
Proof.
  intros Hd.
  set (Hinv := div44 (adj44 H) (det44 H)).
  exists (map (fun X => div4 X (w4 X)) (map (mv44 H) Xprj)).
  exists (map (fun cam => mul34_44 cam Hinv) cams_pr).
  split; [|split; [|split]].
  - unfold transform.
    rewrite (mapM_total _ (fun cam => mul34_44 cam Hinv)); [reflexivity|].
    intros cam. rewrite (linalg_inv_nonsingular inv_singular H Hd). reflexivity.
  - rewrite !length_map. reflexivity.
  - rewrite length_map. reflexivity.
  - intros k j P X HP HX Hw.
    exists (mul34_44 P Hinv), (div4 (mv44 H X) (w4 (mv44 H X))), (/ w4 (mv44 H X)).
    split; [|split; [|split]].
    + rewrite nth_error_map, HP. reflexivity.
    + rewrite !nth_error_map, HX. reflexivity.
    + apply Rinv_neq_0_compat. exact Hw.
    + rewrite mv34_mul34_44, mv44_div4, <- mv44_mul44.
      unfold Hinv. rewrite (linalg_inv_left H Hd), mv44_I44.
      apply mv34_div4.
Qed.

(** A projective frame change that doubles the first axis and mixes the
    last coordinate into the scale, a point and the canonical camera; and
    an [np.linalg.inv] that raises on every singular matrix. *)
Definition H_example : mat44 :=
  M44 (V4 2 0 0 0) (V4 0 1 0 0) (V4 0 0 1 0) (V4 0 0 1 1).
Definition X_example : vec4 := V4 1 2 3 1.
Definition P_canonical : mat34 := M34 (V4 1 0 0 0) (V4 0 1 0 0) (V4 0 0 1 0).
Definition inv_raises : mat44 -> option mat44 := fun _ => None.

Lemma transform_preserves_projections_witness :
  exists Xaff cams_aff,
    transform inv_raises H_example [X_example] [P_canonical] = Ok (Xaff, cams_aff) /\
    length Xaff = length [X_example] /\
    length cams_aff = length [P_canonical] /\
    forall k j P X,
      nth_error [P_canonical] k = Some P ->
      nth_error [X_example] j = Some X ->
      w4 (mv44 H_example X) <> 0 ->
      exists P' X' c,
        nth_error cams_aff k = Some P' /\
        nth_error Xaff j = Some X' /\
        c <> 0 /\
        mv34 P' X' = scale3 c (mv34 P X).
Proof.
  apply (transform_preserves_projections inv_raises H_example [X_example] [P_canonical]).
  unfold det44, cofactor44, minor44, det3, ent44, ent4, skip, H_example.
  cbn [m44_0 m44_1 m44_2 m44_3 x4 y4 z4 w4 Nat.ltb Nat.leb Nat.even Nat.add].
  lra.
Defined.

(** ** The RANSAC loop *)

(** The states the loop passes through: [iterates step k st st'] when the
    loop, started in [st], is at the head of an iteration in [st'] after
    [k] iterations. *)
Inductive iterates (step : ransac_state -> result ransac_state)
  : nat -> ransac_state -> ransac_state -> Prop :=
| iterates_here st : iterates step 0 st st
| iterates_next k st st' st'' :
    INR (it st) < max_it st ->
    step st = Ok st' ->
    iterates step k st' st'' ->
    iterates step (S k) st st''.

Lemma bind_Ok {A B : Type} (r : result A) (k : A -> result B) (b : B) :
  bind r k = Ok b -> exists a, r = Ok a /\ k a = Ok b.
Proof.
  destruct r as [a|e]; simpl; intros H; [exists a; auto|discriminate].
Qed.

Lemma eps_pos : 0 < np.eps.
Proof. unfold np.eps. apply Rinv_0_lt_compat. apply pow_lt. lra. Qed.

Lemma eps_le_half : np.eps <= / 2.
Proof.
  unfold np.eps. apply Rinv_le_contravar; [lra|].
  replace 2 with (2 ^ 1) at 1 by ring.
  apply Rle_pow; [lra|lia].
Qed.

Lemma pNoOutliers_clamped (n_best n : nat) :
  np.eps <= pNoOutliers n_best n <= 1 - np.eps.
Proof.
  pose proof eps_pos. pose proof eps_le_half.
  unfold pNoOutliers. split.
  - apply Rmin_glb; [lra|apply Rmax_l].
  - apply Rmin_l.
Qed.

(** The divisor of line 97 is a negative number. *)
Lemma ln_pNoOutliers_neg (n_best n : nat) : ln (pNoOutliers n_best n) < 0.
Proof.
  pose proof eps_pos. pose proof (pNoOutliers_clamped n_best n).
  rewrite <- ln_1. apply ln_increasing; lra.
Qed.

Lemma budget_pos (n_best n : nat) : 0 < budget n_best n.
Proof.
  unfold budget, Rdiv.
  assert (H1 : ln (1 - p_conf) < 0).
  { rewrite <- ln_1. apply ln_increasing; unfold p_conf; lra. }
  pose proof (ln_pNoOutliers_neg n_best n) as H2.
  pose proof (Rinv_lt_0_compat _ H2).
  nra.
Qed.

Section Loop.

Variable svd_vh : list (list R) -> list (list R).
Variable sample : nat -> list nat.
Variable pts3d : list vec4.
Variable pts2d : list vec3.

Let step := ransac_step svd_vh sample pts3d pts2d.
Let loop := ransac_loop svd_vh sample pts3d pts2d.
Let n := length pts3d.

Lemma ransac_step_update st st' :
  step st = Ok st' ->
  it st' = S (it st) /\
  max_it st' = Rmin (max_it st) (budget (length (best_inliers st')) n) /\
  max_it st' <= max_it st /\
  (length (best_inliers st) <= length (best_inliers st'))%nat.
Proof.
  unfold step, ransac_step. intros H.
  apply bind_Ok in H as (points & _ & H).
  apply bind_Ok in H as (X6 & _ & H).
  apply bind_Ok in H as (x6 & _ & H).
  apply bind_Ok in H as (P & _ & H).
  injection H as <-. cbn [it max_it best_inliers]. fold n.
  repeat split.
  - apply Rmin_l.
  - destruct (Nat.ltb_spec (length (best_inliers st))
                (length (where_lt (map (fun c => reproj_dist P (fst c) (snd c))
                                       (combine pts3d pts2d)) th 0))); lia.
Qed.

Lemma iterates_budget k st st' :
  iterates step k st st' ->
  max_it st' <= max_it st /\ it st' = (it st + k)%nat /\
  (length (best_inliers st) <= length (best_inliers st'))%nat.
Proof.
  induction 1 as [st|k st st1 st2 Hlt Hstep _ IH].
  - split; [lra|lia].
  - destruct (ransac_step_update _ _ Hstep) as (Hit & _ & Hle & Hb).
    split; [lra|lia].
Qed.

Lemma iterates_trans j k st1 st2 st3 :
  iterates step j st1 st2 -> iterates step k st2 st3 -> iterates step (j + k) st1 st3.
Proof.
  induction 1; intros; [assumption|]. simpl. eapply iterates_next; eauto.
Qed.

(** What a run of the loop ends with: a state in which the loop condition
    is false, or the exception of the iteration that raised. *)
Definition loop_outcome (k0 : nat) (st0 : ransac_state) (r : result ransac_state) : Prop :=
  match r with
  | Ok st' =>
      exists k, iterates step k st0 st' /\ (k0 + k <= 1000)%nat /\
                ~ INR (it st') < max_it st'
  | Raise e =>
      exists k st', iterates step k st0 st' /\ (k0 + k < 1000)%nat /\
                    INR (it st') < max_it st' /\ step st' = Raise e
  end.

(** The loop stops: with the budget at most 1000 and at least
    [1000 - it] iterations unrolled, it ends after no more than
    [1000 - it] iterations. *)
Lemma ransac_loop_stops fuel : forall st,
  max_it st <= 1000 -> (it st <= 1000)%nat -> (1000 <= it st + fuel)%nat ->
  exists r, loop fuel st = Some r /\ loop_outcome (it st) st r.
Proof.
  induction fuel as [|fuel IH]; intros st Hmax Hit Hfuel.
  - unfold loop; simpl.
    destruct (Rlt_dec (INR (it st)) (max_it st)) as [Hlt|Hge].
    + exfalso. assert (it st = 1000)%nat as E by lia.
      rewrite E in Hlt. simpl in Hlt. lra.
    + eexists; split; [reflexivity|]. exists 0%nat.
      split; [constructor|]. split; [lia|assumption].
  - unfold loop; simpl.
    destruct (Rlt_dec (INR (it st)) (max_it st)) as [Hlt|Hge].
    + assert (Hlt1000 : (it st < 1000)%nat).
      { apply INR_lt. simpl (INR 1000). lra. }
      fold step. destruct (step st) as [st1|e] eqn:Hstep.
      * destruct (ransac_step_update _ _ Hstep) as (Hit1 & _ & Hle & _).
        destruct (IH st1) as (r & Hr & Hpost); [lra|lia|lia|].
        exists r. split; [exact Hr|].
        destruct r as [st'|e]; simpl in *.
        -- destruct Hpost as (k & Hi & Hk & Hn).
           exists (S k). split; [eapply iterates_next; eauto|]. split; [lia|assumption].
        -- destruct Hpost as (k & st' & Hi & Hk & Hc & He).
           exists (S k), st'. split; [eapply iterates_next; eauto|].
           split; [lia|]. split; assumption.
      * eexists; split; [reflexivity|]. exists 0%nat, st.
        split; [constructor|]. split; [lia|]. split; assumption.
    + eexists; split; [reflexivity|]. exists 0%nat.
      split; [constructor|]. split; [lia|assumption].
Qed.

End Loop.

(** C6.  In the RANSAC loop of [resection], each update of the budget takes
    the minimum of the current budget and [log(1-p)/log(pNoOutliers)], with
    [pNoOutliers] clamped to [[eps, 1-eps]] (so that the divisor is a
    negative number); the budget never increases from one iteration to a
    later one; and whatever samples are drawn, the loop ends after at most
    1000 iterations, with the loop condition false or with the exception of
    the iteration that raised. *)
Theorem ransac_budget_shrinks_and_loop_stops
  (svd_vh : list (list R) -> list (list R)) (sample : nat -> list nat)
  (pts3d : list vec4) (pts2d : list vec3) :
  let step := ransac_step svd_vh sample pts3d pts2d in
  let n := length pts3d in
  (forall st st', step st = Ok st' ->
     let pNo := pNoOutliers (length (best_inliers st')) n in
     max_it st' = Rmin (max_it st) (ln (1 - p_conf) / ln pNo) /\
     np.eps <= pNo <= 1 - np.eps /\
     ln pNo < 0 /\
     max_it st' <= max_it st) /\
  (forall j k st st',
     iterates step j ransac_init st -> iterates step k st st' ->
     max_it st' <= max_it st <= 1000) /\
  (forall fuel, (1000 <= fuel)%nat ->
     exists r,
       ransac_loop svd_vh sample pts3d pts2d fuel ransac_init = Some r /\
       loop_outcome svd_vh sample pts3d pts2d 0 ransac_init r).
Proof.
  intros step n. split; [|split].
  - intros st st' Hstep pNo.
    destruct (ransac_step_update _ _ _ _ _ _ Hstep) as (_ & Hmin & Hle & _).
    split; [exact Hmin|]. split; [apply pNoOutliers_clamped|].
    split; [apply ln_pNoOutliers_neg|exact Hle].
  - intros j k st st' H0 H1.
    destruct (iterates_budget _ _ _ _ _ _ _ H0) as (Ha & _).
    destruct (iterates_budget _ _ _ _ _ _ _ H1) as (Hb & _).
    simpl in Ha. lra.
  - intros fuel Hfuel.
    apply (ransac_loop_stops svd_vh sample pts3d pts2d fuel ransac_init);
      simpl; try lra; lia.
Qed.

(** ** Where the functions succeed *)

Lemma getitem_ok {A : Type} (a : list A) (i : nat) :
  (i < length a)%nat -> exists r, getitem a i = Ok r.
Proof.
  intros H. unfold getitem.
  destruct (nth_error a i) eqn:E; [eexists; reflexivity|].
  apply nth_error_None in E. lia.
Qed.

Lemma take_rows_ok {A : Type} (a : list A) (idx : list nat) :
  Forall (fun k => (k < length a)%nat) idx ->
  exists rows, take_rows a idx = Ok rows /\ length rows = length idx.
Proof.
  unfold take_rows. induction 1 as [|k idx Hk _ (rows & E & L)]; simpl.
  - exists []. auto.
  - destruct (getitem_ok a k Hk) as (r & Er). rewrite Er, E. simpl.
    exists (r :: rows). simpl. auto.
Qed.

Lemma take_rows_Ok_length {A : Type} (a : list A) (idx : list nat) rows :
  take_rows a idx = Ok rows -> length rows = length idx.
Proof.
  unfold take_rows. revert rows. induction idx as [|k idx IH]; simpl; intros rows H.
  - injection H as <-. reflexivity.
  - apply bind_Ok in H as (r & _ & H). apply bind_Ok in H as (rs & E & H).
    injection H as <-. simpl. f_equal. apply IH. exact E.
Qed.

Lemma dlt_loop_length idx : forall pts3d pts2d A,
  dlt_loop idx pts3d pts2d = Ok A -> length A = (2 * length idx)%nat.
Proof.
  induction idx as [|i idx IH]; simpl; intros pts3d pts2d A H.
  - injection H as <-. reflexivity.
  - apply bind_Ok in H as (X & _ & H). apply bind_Ok in H as (x & _ & H).
    apply bind_Ok in H as (A' & E & H). injection H as <-.
    simpl. rewrite (IH _ _ _ E). lia.
Qed.

Lemma dlt_loop_ok idx pts3d pts2d :
  Forall (fun i => (i < length pts3d)%nat /\ (i < length pts2d)%nat) idx ->
  exists A, dlt_loop idx pts3d pts2d = Ok A.
Proof.
  induction 1 as [|i idx [H3 H2] _ (A & E)]; simpl.
  - eexists; reflexivity.
  - destruct (getitem_ok pts3d i H3) as (X & EX).
    destruct (getitem_ok pts2d i H2) as (x & Ex).
    rewrite EX, Ex, E. simpl. eexists; reflexivity.
Qed.

Lemma dlt_matrix_ok pts3d pts2d :
  (6 <= length pts3d)%nat -> (6 <= length pts2d)%nat ->
  exists A, dlt_matrix pts3d pts2d = Ok A /\ length A = 12%nat.
Proof.
  intros H3 H2. unfold dlt_matrix.
  destruct (dlt_loop_ok (seq 0 6) pts3d pts2d) as (A & E).
  { apply Forall_forall. intros i Hi. apply in_seq in Hi. lia. }
  exists A. split; [exact E|]. apply dlt_loop_length in E. exact E.
Qed.

Lemma normalize3dpts_length pts : length (fst (normalize3dpts pts)) = length pts.
Proof. unfold normalize3dpts; simpl. apply length_map. Qed.

Lemma normalize2dpts_length pts : length (fst (normalize2dpts pts)) = length pts.
Proof. unfold normalize2dpts; simpl. apply length_map. Qed.

Definition msg_svd : string := "SVD did not converge".

(** [camera_matrix] hands to [svd] the matrix that [dlt_matrix] builds from
    the normalized points. *)
Lemma camera_matrix_unfold svd_vh pts3d pts2d :
  camera_matrix svd_vh pts3d pts2d =
    (A <- dlt_matrix (fst (normalize3dpts pts3d)) (fst (normalize2dpts pts2d)) ;;
     vh <- linalg_svd svd_vh (np.std (flat_map (fun p => [x4 p; y4 p; z4 p]) pts3d))
                      (np.std (flat_map (fun p => [x3 p; y3 p]) pts2d)) A ;;
     let P := denormalized (snd (normalize3dpts pts3d)) (snd (normalize2dpts pts2d))
                (last vh []) in
     Ok (div34 P (w4 (m34_2 P)))).
Proof. reflexivity. Qed.

Lemma linalg_svd_finite svd_vh s3 s2 A :
  s3 <> 0 -> s2 <> 0 -> linalg_svd svd_vh s3 s2 A = Ok (svd_vh A).
Proof.
  intros H3 H2. unfold linalg_svd.
  destruct (Req_dec_T s3 0); [contradiction|].
  destruct (Req_dec_T s2 0); [contradiction|reflexivity].
Qed.

Lemma linalg_svd_not_finite svd_vh s3 s2 A :
  s3 = 0 \/ s2 = 0 -> linalg_svd svd_vh s3 s2 A = Raise (LinAlgError msg_svd).
Proof.
  intros H. unfold linalg_svd.
  destruct (Req_dec_T s3 0); [reflexivity|].
  destruct (Req_dec_T s2 0); [reflexivity|]. tauto.
Qed.


(** With nonzero deviations the call to [svd] returns. *)
Lemma camera_matrix_finite svd_vh pts3d pts2d :
  np.std (flat_map (fun p => [x4 p; y4 p; z4 p]) pts3d) <> 0 ->
  np.std (flat_map (fun p => [x3 p; y3 p]) pts2d) <> 0 ->
  camera_matrix svd_vh pts3d pts2d =
    (A <- dlt_matrix (fst (normalize3dpts pts3d)) (fst (normalize2dpts pts2d)) ;;
     let P := denormalized (snd (normalize3dpts pts3d)) (snd (normalize2dpts pts2d))
                (last (svd_vh A) []) in
     Ok (div34 P (w4 (m34_2 P)))).
Proof.
  intros H3 H2. rewrite camera_matrix_unfold.
  destruct (dlt_matrix _ _) as [A|e]; cbn [bind]; [|reflexivity].
  rewrite (linalg_svd_finite svd_vh _ _ A H3 H2). reflexivity.
Qed.

Lemma camera_matrix_ok svd_vh pts3d pts2d :
  (6 <= length pts3d)%nat -> (6 <= length pts2d)%nat ->
  np.std (flat_map (fun p => [x4 p; y4 p; z4 p]) pts3d) <> 0 ->
  np.std (flat_map (fun p => [x3 p; y3 p]) pts2d) <> 0 ->
  exists P, camera_matrix svd_vh pts3d pts2d = Ok P.
Proof.
  intros H3 H2 S3 S2. rewrite (camera_matrix_finite svd_vh pts3d pts2d S3 S2).
  destruct (dlt_matrix_ok (fst (normalize3dpts pts3d)) (fst (normalize2dpts pts2d)))
    as (A & E & _).
  { rewrite normalize3dpts_length. exact H3. }
  { rewrite normalize2dpts_length. exact H2. }
  rewrite E. cbn [bind]. eexists; reflexivity.
Qed.

(** With six rows or more and a zero deviation the call to [svd] raises. *)
Lemma camera_matrix_zero_deviation svd_vh pts3d pts2d :
  (6 <= length pts3d)%nat -> (6 <= length pts2d)%nat ->
  np.std (flat_map (fun p => [x4 p; y4 p; z4 p]) pts3d) = 0 \/
  np.std (flat_map (fun p => [x3 p; y3 p]) pts2d) = 0 ->
  camera_matrix svd_vh pts3d pts2d = Raise (LinAlgError msg_svd).
Proof.
  intros H3 H2 HS. rewrite camera_matrix_unfold.
  destruct (dlt_matrix_ok (fst (normalize3dpts pts3d)) (fst (normalize2dpts pts2d)))
    as (A & E & _).
  { rewrite normalize3dpts_length. exact H3. }
  { rewrite normalize2dpts_length. exact H2. }
  rewrite E. cbn [bind]. rewrite (linalg_svd_not_finite svd_vh _ _ A HS). reflexivity.
Qed.

Lemma camera_matrix_outcomes svd_vh pts3d pts2d :
  (6 <= length pts3d)%nat -> (6 <= length pts2d)%nat ->
  (exists P, camera_matrix svd_vh pts3d pts2d = Ok P) \/
  camera_matrix svd_vh pts3d pts2d = Raise (LinAlgError msg_svd).
Proof.
  intros H3 H2.
  destruct (Req_dec_T (np.std (flat_map (fun p => [x4 p; y4 p; z4 p]) pts3d)) 0) as [S3|S3];
    [right; apply camera_matrix_zero_deviation; auto|].
  destruct (Req_dec_T (np.std (flat_map (fun p => [x3 p; y3 p]) pts2d)) 0) as [S2|S2];
    [right; apply camera_matrix_zero_deviation; auto|].
  left. apply camera_matrix_ok; assumption.
Qed.

Lemma where_lt_bound d t : forall i,
  Forall (fun k => (i <= k < i + length d)%nat) (where_lt d t i).
Proof.
  induction d as [|x d IH]; intros i; simpl; [constructor|].
  assert (Forall (fun k => (i <= k < i + S (length d))%nat) (where_lt d t (S i))).
  { eapply Forall_impl; [|apply IH]. simpl. intros; lia. }
  destruct (Rlt_dec x t); [constructor; [lia|assumption]|assumption].
Qed.

Lemma gather_lengths tracks i :
  length (fst (gather tracks i)) = length (snd (gather tracks i)).
Proof.
  induction tracks as [|tk tracks IH]; simpl; [reflexivity|].
  destruct (gather tracks i) as [pts3d pts2d]. simpl in IH.
  destruct (Req_dec_T (w4 (pt tk)) 0); [exact IH|].
  destruct (views_get (views tk) i); simpl; [f_equal|]; exact IH.
Qed.


(** A sample as the sampler draws it: six indices below [n] (that they are
    distinct plays no part below). *)
Definition valid_sample (n : nat) (draw : list nat) : Prop :=
  length draw = 6%nat /\ Forall (fun k => (k < n)%nat) draw.

Section LoopTotal.

Variable svd_vh : list (list R) -> list (list R).
Variable sample : nat -> list nat.
Variable pts3d : list vec4.
Variable pts2d : list vec3.

Let step := ransac_step svd_vh sample pts3d pts2d.
Let n := length pts3d.

Hypothesis same_length : length pts2d = n.

(** The indices kept as inliers are row indices of the correspondences. *)
Definition inliers_in_range (st : ransac_state) : Prop :=
  Forall (fun k => (k < n)%nat) (best_inliers st).

Lemma ransac_step_in_range st st' :
  inliers_in_range st -> step st = Ok st' -> inliers_in_range st'.
Proof.
  unfold step, ransac_step, inliers_in_range. intros Hst H.
  apply bind_Ok in H as (points & _ & H).
  apply bind_Ok in H as (X6 & _ & H).
  apply bind_Ok in H as (x6 & _ & H).
  apply bind_Ok in H as (P & _ & H).
  injection H as <-. cbn [best_inliers].
  match goal with |- context [if ?c then _ else _] => destruct c end; [|exact Hst].
  eapply Forall_impl; [|apply where_lt_bound].
  simpl. intros k Hk. rewrite length_map, length_combine, same_length in Hk.
  fold n in Hk. lia.
Qed.

Lemma iterates_in_range k st st' :
  iterates step k st st' -> inliers_in_range st -> inliers_in_range st'.
Proof.
  induction 1 as [|k st st1 st2 _ Hstep _ IH]; [auto|].
  intros Hst. apply IH. eapply ransac_step_in_range; eauto.
Qed.

Hypothesis enough : (6 <= n)%nat.
Hypothesis samples_valid : forall k, valid_sample n (sample k).

(** An iteration ends in a new state, or with the failure of [svd] on a
    sample normalized by a zero deviation. *)
Lemma ransac_step_outcomes st :
  (exists st', step st = Ok st') \/ step st = Raise (LinAlgError msg_svd).
Proof.
  unfold step, ransac_step. fold n.
  destruct (samples_valid (it st)) as (L & V).
  unfold random_choice. destruct (Nat.ltb_spec n 6); [lia|]. simpl.
  destruct (take_rows_ok pts3d (sample (it st))) as (X6 & EX & LX); [exact V|].
  destruct (take_rows_ok pts2d (sample (it st))) as (x6 & Ex & Lx);
    [rewrite same_length; exact V|].
  rewrite EX, Ex. simpl.
  destruct (camera_matrix_outcomes svd_vh X6 x6) as [(P & EP)|EP]; [lia|lia| |].
  - rewrite EP. simpl. left. eexists; reflexivity.
  - rewrite EP. simpl. right. reflexivity.
Qed.

End LoopTotal.

Lemma ransac_loop_more_fuel svd_vh sample pts3d pts2d fuel k : forall st r,
  ransac_loop svd_vh sample pts3d pts2d fuel st = Some r ->
  ransac_loop svd_vh sample pts3d pts2d (fuel + k) st = Some r.
Proof.
  induction fuel as [|fuel IH]; intros st r; simpl.
  - destruct (Rlt_dec (INR (it st)) (max_it st)); [discriminate|].
    intros H. destruct k; simpl; destruct (Rlt_dec (INR (it st)) (max_it st));
      try contradiction; exact H.
  - destruct (Rlt_dec (INR (it st)) (max_it st)); [|auto].
    destruct (ransac_step svd_vh sample pts3d pts2d st); [apply IH|auto].
Qed.

(** Whatever bound on the iterations the loop was run with, a run that
    ended did what [loop_outcome] says. *)
Lemma ransac_loop_outcome svd_vh sample pts3d pts2d fuel r :
  ransac_loop svd_vh sample pts3d pts2d fuel ransac_init = Some r ->
  loop_outcome svd_vh sample pts3d pts2d 0 ransac_init r.
Proof.
  intros H. apply (ransac_loop_more_fuel _ _ _ _ _ 1000) in H.
  destruct (ransac_loop_stops svd_vh sample pts3d pts2d (fuel + 1000) ransac_init)
    as (r' & E & Hout); simpl; try lra; try lia.
  rewrite H in E. injection E as <-. exact Hout.
Qed.

(** With at least 6 correspondences and samples as the sampler draws them,
    the loop ends in a state or with the failure of [svd] in one
    iteration. *)
Lemma ransac_loop_total svd_vh sample pts3d pts2d :
  length pts2d = length pts3d ->
  (6 <= length pts3d)%nat ->
  (forall k, valid_sample (length pts3d) (sample k)) ->
  (exists st, ransac_loop svd_vh sample pts3d pts2d 1000 ransac_init = Some (Ok st)) \/
  ransac_loop svd_vh sample pts3d pts2d 1000 ransac_init = Some (Raise (LinAlgError msg_svd)).
Proof.
  intros L Hn Hs.
  destruct (ransac_loop_stops svd_vh sample pts3d pts2d 1000 ransac_init)
    as ([st|e] & E & Hout); simpl; try lra; try lia.
  - left. exists st. exact E.
  - right. destruct Hout as (k & st' & _ & _ & _ & Hraise).
    destruct (ransac_step_outcomes svd_vh sample pts3d pts2d L Hn Hs st') as [(st'' & E')|E'];
      rewrite E' in Hraise; [discriminate|].
    injection Hraise as <-. exact E.
Qed.

(** ** The guards of [resection] *)

Definition msg_inliers : string :=
  "There must be at least 6 inliers to compute the camera matrix.".
Definition msg_sample : string :=
  "Cannot take a larger sample than population when 'replace=False'".
Definition msg_axis : string :=
  "axis 1 is out of bounds for array of dimension 1".


(** Six triangulated tracks seen in view 0, a sampler that always draws the
    six of them, and an [svd] whose [vh] is the identity. *)
Definition tracks_six : list track :=
  [ Track (V4 0 0 1 1) [(0%Z, V2 0 0)];
    Track (V4 1 0 2 1) [(0%Z, V2 (1 / 2) 0)];
    Track (V4 0 1 4 1) [(0%Z, V2 0 (1 / 4))];
    Track (V4 1 1 1 1) [(0%Z, V2 1 1)];
    Track (V4 2 1 2 1) [(0%Z, V2 1 (1 / 2))];
    Track (V4 1 2 4 1) [(0%Z, V2 (1 / 4) (1 / 2))] ].
Definition sample_all_six : nat -> list nat := fun _ => seq 0 6.
Definition vh_identity : list (list R) -> list (list R) :=
  fun _ => map (fun i => map (fun j => if (i =? j)%nat then 1 else 0) (seq 0 12)) (seq 0 12).

Definition obs_six : list vec2 :=
  [V2 0 0; V2 (1 / 2) 0; V2 0 (1 / 4); V2 1 1; V2 1 (1 / 2); V2 (1 / 4) (1 / 2)].

Lemma gather_tracks_six : gather tracks_six 0 = (map pt tracks_six, obs_six).
Proof.
  unfold tracks_six; simpl.
  repeat (destruct (Req_dec_T _ _) as [E|_]; [exfalso; lra|]).
  reflexivity.
Qed.

(** The budget when every correspondence is an inlier. *)
Lemma budget_all_inliers (n : nat) : (0 < n)%nat -> budget n n < 1.
Proof.
  intros Hn. pose proof eps_pos as He. pose proof eps_le_half as Hh.
  assert (HN : INR n <> 0) by (apply not_0_INR; lia).
  assert (Hp : pNoOutliers n n = np.eps).
  { unfold pNoOutliers. replace (INR n / INR n) with 1 by (field; exact HN).
    replace (1 - 1 ^ 6) with 0 by ring.
    rewrite Rmax_left by lra. apply Rmin_right. lra. }
  unfold budget. rewrite Hp.
  assert (Hl : ln np.eps < ln (1 - p_conf)).
  { apply ln_increasing; [exact He|].
    unfold np.eps, p_conf.
    replace (1 - 999 / 1000) with (/ 1000) by field.
    apply Rinv_lt_contravar.
    - apply Rmult_lt_0_compat; [lra|apply pow_lt; lra].
    - replace 1000 with (INR 1000) by (simpl; lra).
      replace 2 with (INR 2) by (simpl; lra).
      rewrite <- pow_INR. apply lt_INR.
      apply Nat.lt_le_trans with (2 ^ 10)%nat; [simpl; lia|].
      apply Nat.pow_le_mono_r; lia. }
  assert (Hneg : ln np.eps < 0).
  { rewrite <- ln_1. apply ln_increasing; lra. }
  assert (H1 : ln (1 - p_conf) < 0).
  { rewrite <- ln_1. apply ln_increasing; unfold p_conf; lra. }
  apply (Rmult_lt_reg_r (- ln np.eps)); [lra|].
  replace (ln (1 - p_conf) / ln np.eps * - ln np.eps) with (- ln (1 - p_conf))
    by (field; lra).
  lra.
Qed.

(** Six points of the plane [Z = 0] and their exact images under the camera
    [[I | (0, 0, 1)]]; the images have mean 0 and their coordinates have
    standard deviation [sqrt 2], so that the normalization of the images is
    the identity. *)
Definition pts3d_plane : list vec4 :=
  [V4 2 0 0 1; V4 (-2) 0 0 1; V4 0 2 0 1; V4 0 (-2) 0 1;
   V4 (6 / 5) (8 / 5) 0 1; V4 (-6 / 5) (-8 / 5) 0 1].
Definition pts2d_plane : list vec3 :=
  [V3 2 0 1; V3 (-2) 0 1; V3 0 2 1; V3 0 (-2) 1;
   V3 (6 / 5) (8 / 5) 1; V3 (-6 / 5) (-8 / 5) 1].
Definition P_plane : mat34 := M34 (V4 1 0 0 0) (V4 0 1 0 0) (V4 0 0 1 1).

(** An [svd] whose last row of [vh] is that camera in normalized
    coordinates, up to scale. *)
Definition scale3_plane : R :=
  sqrt 2 / np.std (flat_map (fun p => [x4 p; y4 p; z4 p]) pts3d_plane).
Definition svd_plane : list (list R) -> list (list R) :=
  fun _ => [[1; 0; 0; 0; 0; 1; 0; 0; 0; 0; 1; scale3_plane]].

Lemma scale3_plane_pos : 0 < scale3_plane.
Proof.
  unfold scale3_plane. apply Rdiv_lt_0_compat; [apply sqrt_lt_R0; lra|].
  unfold np.std. apply sqrt_lt_R0.
  unfold np.var, np.mean, np.sum, pts3d_plane; simpl. lra.
Qed.

Lemma scale2_plane : sqrt 2 / np.std (flat_map (fun p => [x3 p; y3 p]) pts2d_plane) = 1.
Proof.
  assert (E : np.var (flat_map (fun p => [x3 p; y3 p]) pts2d_plane) = 2)
    by (unfold np.var, np.mean, np.sum, pts2d_plane; simpl; lra).
  unfold np.std. rewrite E. field. pose proof (sqrt_lt_R0 2). lra.
Qed.

Lemma th_pos : 0 < th.
Proof.
  unfold th. pose proof PI2_1 as HPI.
  assert (H : cos (4 / 1000) < cos 0) by (apply cos_decreasing_1; lra).
  rewrite cos_0 in H. lra.
Qed.

Lemma std3_plane_nonzero :
  np.std (flat_map (fun p => [x4 p; y4 p; z4 p]) pts3d_plane) <> 0.
Proof.
  apply Rgt_not_eq. unfold np.std. apply sqrt_lt_R0.
  unfold np.var, np.mean, np.sum, pts3d_plane; simpl. lra.
Qed.

Lemma std2_plane_nonzero :
  np.std (flat_map (fun p => [x3 p; y3 p]) pts2d_plane) <> 0.
Proof.
  apply Rgt_not_eq. unfold np.std. apply sqrt_lt_R0.
  unfold np.var, np.mean, np.sum, pts2d_plane; simpl. lra.
Qed.

Lemma camera_matrix_plane :
  camera_matrix svd_plane pts3d_plane pts2d_plane = Ok P_plane.
Proof.
  rewrite (camera_matrix_finite _ _ _ std3_plane_nonzero std2_plane_nonzero).
  destruct (dlt_matrix_ok (fst (normalize3dpts pts3d_plane)) (fst (normalize2dpts pts2d_plane)))
    as (A & EA & _).
  { rewrite normalize3dpts_length. simpl. lia. }
  { rewrite normalize2dpts_length. simpl. lia. }
  rewrite EA. cbn [bind]. f_equal.
  unfold normalize3dpts, normalize2dpts. cbn [snd].
  rewrite scale2_plane. fold scale3_plane.
  assert (E0 : np.mean (map x4 pts3d_plane) = 0) by (unfold np.mean, np.sum; simpl; lra).
  assert (E1 : np.mean (map y4 pts3d_plane) = 0) by (unfold np.mean, np.sum; simpl; lra).
  assert (E2 : np.mean (map z4 pts3d_plane) = 0) by (unfold np.mean, np.sum; simpl; lra).
  assert (F0 : np.mean (map x3 pts2d_plane) = 0) by (unfold np.mean, np.sum; simpl; lra).
  assert (F1 : np.mean (map y3 pts2d_plane) = 0) by (unfold np.mean, np.sum; simpl; lra).
  rewrite E0, E1, E2, F0, F1.
  unfold svd_plane, denormalized, reshape34. cbn [last nth].
  pose proof scale3_plane_pos as Hs. generalize dependent scale3_plane. intros s Hs.
  unfold T33, col33_0, col33_1, col33_2. cbn [x3 y3 z3 m33_0 m33_1 m33_2].
  unfold mul33_34, vm34, col34_0, col34_1, col34_2, col34_3, dot3.
  cbn [x4 y4 z4 w4 x3 y3 z3 m33_0 m33_1 m33_2 m34_0 m34_1 m34_2].
  unfold mul34_44, vm44, col44_0, col44_1, col44_2, col44_3, dot4.
  cbn [x4 y4 z4 w4 m44_0 m44_1 m44_2 m44_3 m34_0 m34_1 m34_2].
  unfold div34, div4, P_plane. cbn [x4 y4 z4 w4 m34_0 m34_1 m34_2].
  apply mat34_eq; apply vec4_eq; field; lra.
Qed.

Lemma where_lt_all d t : forall i,
  Forall (fun x => x < t) d -> where_lt d t i = seq i (length d).
Proof.
  induction d as [|x d IH]; intros i H; simpl; [reflexivity|].
  inversion H; subst. destruct (Rlt_dec x t); [|contradiction].
  f_equal. apply IH. assumption.
Qed.

Lemma reproj_dist_plane :
  Forall (fun c => reproj_dist P_plane (fst c) (snd c) < th) (combine pts3d_plane pts2d_plane).
Proof.
  pose proof th_pos.
  repeat constructor; unfold reproj_dist, euclid, mv34, P_plane, dot4; simpl;
    match goal with |- ?e < th => replace e with 0 by field end; assumption.
Qed.

(** The first iteration on these correspondences keeps all six, and it is
    the last one. *)
Definition st_plane : ransac_state := Ransac 1 (Rmin 1000 (budget 6 6)) (seq 0 6).

Lemma ransac_step_plane :
  ransac_step svd_plane sample_all_six pts3d_plane pts2d_plane ransac_init = Ok st_plane.
Proof.
  unfold ransac_step, random_choice, sample_all_six.
  cbn [length pts3d_plane Nat.ltb Nat.leb bind].
  change (take_rows pts3d_plane (seq 0 6)) with (Ok pts3d_plane).
  change (take_rows pts2d_plane (seq 0 6)) with (Ok pts2d_plane).
  cbn [bind]. rewrite camera_matrix_plane. cbn [bind].
  rewrite (where_lt_all _ th 0) by (apply Forall_map; exact reproj_dist_plane).
  reflexivity.
Qed.


(** Six tracks seen in view 0 with these points and images. *)
Definition obs_plane : list vec2 :=
  [V2 2 0; V2 (-2) 0; V2 0 2; V2 0 (-2); V2 (6 / 5) (8 / 5); V2 (-6 / 5) (-8 / 5)].
Definition tracks_plane : list track :=
  map (fun c => Track (fst c) [(0%Z, snd c)]) (combine pts3d_plane obs_plane).

Lemma gather_tracks_plane : gather tracks_plane 0 = (pts3d_plane, obs_plane).
Proof.
  unfold tracks_plane, pts3d_plane, obs_plane; simpl.
  repeat (destruct (Req_dec_T _ _) as [E|_]; [exfalso; lra|]).
  reflexivity.
Qed.





















(** The failure that reports too few correspondences.  [resection] has no
    check of its own on the number [n] of correspondences; the one exception
    raised because [n] is below 6 is the sampler's refusal to draw 6 indices
    out of [n]. *)
Definition insufficient_correspondences (e : exn) : Prop :=
  e = ValueError msg_sample.

(** The number of usable tracks: those with a 3D point of nonzero scale and
    an observation in view [i]. *)
Definition usable (tracks : list track) (i : Z) : nat :=
  length (fst (gather tracks i)).

(** C2, as amended.  With fewer than 6 usable tracks [resection] returns no
    camera matrix: with none it fails in [homog], on the empty array of
    observations, with an axis error; with 1 to 5 it fails in the first
    iteration, when the sampler refuses to draw 6 indices out of fewer. *)
Theorem resection_too_few_correspondences
  (svd_vh : list (list R) -> list (list R)) (sample : nat -> list nat)
  (fuel : nat) (tracks : list track) (i : Z) :
  (usable tracks i < 6)%nat ->
  resection svd_vh sample (S fuel) tracks i =
    Some (Raise (if (usable tracks i =? 0)%nat
                 then AxisError msg_axis
                 else ValueError msg_sample)).
Proof.
  unfold usable, resection. intros Hn.
  pose proof (gather_lengths tracks i) as L.
  destruct (gather tracks i) as [pts3d obs]. simpl in *.
  destruct obs as [|o obs].
  - simpl in L. rewrite L. reflexivity.
  - destruct pts3d as [|X pts3d]; [discriminate|].
    cbn [homog length Nat.eqb ransac_loop ransac_init it max_it].
    match goal with
    | |- context [Rlt_dec ?a ?b] => destruct (Rlt_dec a b) as [_|H]
    end; [|exfalso; apply H; simpl; lra].
    unfold ransac_step, random_choice. cbn [it length].
    destruct (Nat.ltb_spec (S (length pts3d)) 6) as [_|H]; [reflexivity|].
    simpl in Hn. lia.
Qed.

Lemma resection_too_few_correspondences_witness :
  usable (firstn 3 tracks_six) 0 = 3%nat /\
  resection vh_identity sample_all_six 1 (firstn 3 tracks_six) 0 =
    Some (Raise (if (usable (firstn 3 tracks_six) 0 =? 0)%nat
                 then AxisError msg_axis
                 else ValueError msg_sample)).
Proof.
  assert (U : usable (firstn 3 tracks_six) 0 = 3%nat).
  { unfold usable, tracks_six; simpl.
    repeat (destruct (Req_dec_T _ _) as [E|_]; [exfalso; lra|]).
    reflexivity. }
  split; [exact U|].
  apply (resection_too_few_correspondences vh_identity sample_all_six 0
           (firstn 3 tracks_six) 0).
  rewrite U. lia.
Defined.

(** Two tracks, neither usable in view 0: the first is not triangulated
    yet, the second is seen in view 1 only. *)
Definition tracks_unusable : list track :=
  [ Track (V4 0 0 0 0) [(0%Z, V2 1 1)];
    Track (V4 1 2 3 1) [(1%Z, V2 2 2)] ].

(** C2, as stated, fails: with no usable track at all, [resection] fails
    before any count of correspondences is made, in [homog], and the
    exception is not one that reports too few correspondences. *)
Lemma resection_no_usable_track_axis_error :
  (usable tracks_unusable 0 < 6)%nat /\
  forall svd_vh sample fuel,
    resection svd_vh sample fuel tracks_unusable 0 = Some (Raise (AxisError msg_axis)) /\
    ~ insufficient_correspondences (AxisError msg_axis).
Proof.
  assert (G : gather tracks_unusable 0 = ([], [])).
  { unfold tracks_unusable; simpl.
    destruct (Req_dec_T 0 0) as [_|H]; [|exfalso; apply H; reflexivity].
    destruct (Req_dec_T 1 0) as [H|_]; [exfalso; lra|]. reflexivity. }
  split.
  - unfold usable. rewrite G. simpl. lia.
  - intros svd_vh sample fuel. split.
    + unfold resection. rewrite G. reflexivity.
    + unfold insufficient_correspondences. discriminate.
Qed.

(** ** The coefficient matrix of [camera_matrix] *)

Lemma dlt_matrix_Raise pts3d pts2d e :
  dlt_matrix pts3d pts2d = Raise e ->
  (length pts3d < 6)%nat \/ (length pts2d < 6)%nat.
Proof.
  intros H.
  destruct (Nat.lt_ge_cases (length pts3d) 6) as [|H3]; [left; assumption|].
  destruct (Nat.lt_ge_cases (length pts2d) 6) as [|H2]; [right; assumption|].
  destruct (dlt_matrix_ok pts3d pts2d H3 H2) as (A & E & _).
  rewrite E in H. discriminate.
Qed.

(** Seven correspondences: the six of [tracks_six] and one more. *)
Definition pts3d_seven : list vec4 := map pt tracks_six ++ [V4 3 1 5 1].
Definition pts2d_seven : list vec3 :=
  map (fun p => V3 (x2 p) (y2 p) 1) obs_six ++ [V3 (3 / 5) (1 / 5) 1].

(** C1 on the code.  Whatever the number [n] of correspondences passed to
    [camera_matrix], the coefficient matrix it builds has 12 rows, written
    from the first six normalized correspondences, and the call raises an
    index error when fewer than six are passed; on seven correspondences the
    matrix has 12 rows and not 14. *)
Theorem camera_matrix_dlt_has_twelve_rows :
  (forall pts3d pts2d,
     match dlt_matrix (fst (normalize3dpts pts3d)) (fst (normalize2dpts pts2d)) with
     | Ok A =>
         length A = 12%nat /\
         dlt_matrix (firstn 6 (fst (normalize3dpts pts3d)))
                    (firstn 6 (fst (normalize2dpts pts2d))) = Ok A
     | Raise _ => (length pts3d < 6)%nat \/ (length pts2d < 6)%nat
     end) /\
  (exists A,
     dlt_matrix (fst (normalize3dpts pts3d_seven)) (fst (normalize2dpts pts2d_seven)) = Ok A /\
     length A = 12%nat /\
     length A <> (2 * length pts3d_seven)%nat).
Proof.
  split.
  - intros pts3d pts2d.
    destruct (dlt_matrix _ _) as [A|e] eqn:E.
    + split.
      * unfold dlt_matrix in E. apply dlt_loop_length in E. exact E.
      * rewrite <- E. unfold dlt_matrix.
        generalize (fst (normalize3dpts pts3d)) (fst (normalize2dpts pts2d)).
        intros X x.
        destruct X as [|X0 [|X1 [|X2 [|X3 [|X4 [|X5 X]]]]]];
          destruct x as [|x0 [|x1 [|x2 [|x3 [|x4 [|x5 x]]]]]]; reflexivity.
    + apply dlt_matrix_Raise in E.
      rewrite normalize3dpts_length, normalize2dpts_length in E. exact E.
  - destruct (dlt_matrix_ok (fst (normalize3dpts pts3d_seven))
                (fst (normalize2dpts pts2d_seven))) as (A & E & L).
    + rewrite normalize3dpts_length. simpl. lia.
    + rewrite normalize2dpts_length. simpl. lia.
    + exists A. split; [exact E|]. split; [exact L|].
      rewrite L. simpl. lia.
Qed.

(** ** The final scaling of [camera_matrix] *)



Lemma denormalized_vh_identity (T1 : mat44) (T2 : mat33) (A : list (list R)) :
  m44_3 T1 = V4 0 0 0 1 -> m33_2 T2 = V3 0 0 1 ->
  w4 (m34_2 (denormalized T1 T2 (last (vh_identity A) []))) = 1.
Proof.
  intros E1 E2. destruct T1 as [[] [] [] r], T2 as [[] [] r']. simpl in E1, E2. subst.
  unfold denormalized, vh_identity. cbn [seq map last Nat.eqb].
  unfold reshape34, mul34_44, mul33_34, T33, vm44, vm34, dot4, dot3,
    col44_0, col44_1, col44_2, col44_3, col34_0, col34_1, col34_2, col34_3,
    col33_0, col33_1, col33_2; simpl. ring.
Qed.




(** ** Point normalization *)

Definition sq (x : R) : R := x * x.

Lemma sq_nonneg x : 0 <= sq x.
Proof. unfold sq. nra. Qed.

Lemma sum_map_plus {A : Type} (f g : A -> R) (l : list A) :
  np.sum (map (fun a => f a + g a) l) = np.sum (map f l) + np.sum (map g l).
Proof.
  unfold np.sum. induction l as [|a l IH]; simpl; [ring|]. rewrite IH. ring.
Qed.

Lemma sum_map_scale {A : Type} (c : R) (f : A -> R) (l : list A) :
  np.sum (map (fun a => c * f a) l) = c * np.sum (map f l).
Proof.
  unfold np.sum. induction l as [|a l IH]; simpl; [ring|]. rewrite IH. ring.
Qed.

Lemma sum_map_const {A : Type} (c : R) (l : list A) :
  np.sum (map (fun _ => c) l) = INR (length l) * c.
Proof.
  unfold np.sum. induction l as [|a l IH]; [simpl; ring|].
  cbn [map fold_right length]. rewrite IH, S_INR. ring.
Qed.

Lemma sum_sq_shift {A : Type} (f : A -> R) (c : R) (l : list A) :
  np.sum (map (fun a => sq (f a - c)) l) =
    np.sum (map (fun a => sq (f a)) l) - 2 * c * np.sum (map f l) + INR (length l) * sq c.
Proof.
  unfold np.sum, sq. induction l as [|a l IH]; [simpl; ring|].
  cbn [map fold_right length]. rewrite IH, S_INR. ring.
Qed.

Lemma sum_sq_nonneg {A : Type} (f : A -> R) (l : list A) :
  0 <= np.sum (map (fun a => sq (f a)) l).
Proof.
  unfold np.sum, sq. induction l as [|a l IH]; simpl; [lra|]. nra.
Qed.

(** The squared deviations about [c] exceed those about the mean by
    [N (mean - c)^2]. *)
Lemma sum_sq_about_mean {A : Type} (f : A -> R) (c : R) (l : list A) :
  l <> [] ->
  np.sum (map (fun a => sq (f a - c)) l) =
    np.sum (map (fun a => sq (f a - np.mean (map f l))) l) +
    INR (length l) * sq (np.mean (map f l) - c).
Proof.
  intros Hl. rewrite !sum_sq_shift. unfold np.mean, sq. rewrite length_map.
  assert (HN : INR (length l) <> 0).
  { destruct l; [contradiction|]. apply not_0_INR. simpl. lia. }
  field. exact HN.
Qed.

Lemma sum_map_flat2 {A : Type} (h : R -> R) (f g : A -> R) (l : list A) :
  np.sum (map h (flat_map (fun p => [f p; g p]) l)) =
    np.sum (map (fun p => h (f p)) l) + np.sum (map (fun p => h (g p)) l).
Proof.
  unfold np.sum. induction l as [|a l IH]; simpl; [ring|].
  simpl in IH. rewrite IH. ring.
Qed.

Lemma sum_map_flat3 {A : Type} (h : R -> R) (f g k : A -> R) (l : list A) :
  np.sum (map h (flat_map (fun p => [f p; g p; k p]) l)) =
    np.sum (map (fun p => h (f p)) l) + np.sum (map (fun p => h (g p)) l) +
    np.sum (map (fun p => h (k p)) l).
Proof.
  unfold np.sum. induction l as [|a l IH]; simpl; [ring|].
  simpl in IH. rewrite IH. ring.
Qed.

Lemma length_flat2 {A : Type} (f g : A -> R) (l : list A) :
  length (flat_map (fun p => [f p; g p]) l) = (2 * length l)%nat.
Proof. induction l as [|a l IH]; simpl; [reflexivity|]. simpl in IH. rewrite IH. lia. Qed.

Lemma length_flat3 {A : Type} (f g k : A -> R) (l : list A) :
  length (flat_map (fun p => [f p; g p; k p]) l) = (3 * length l)%nat.
Proof. induction l as [|a l IH]; simpl; [reflexivity|]. simpl in IH. rewrite IH. lia. Qed.

Lemma var_nonneg l : 0 <= np.var l.
Proof.
  unfold np.var, np.mean.
  pose proof (sum_sq_nonneg (fun x => x - np.sum l / INR (length l)) l) as H.
  unfold sq in H. rewrite length_map.
  destruct l as [|x l].
  - simpl. unfold Rdiv. rewrite Rmult_0_l. lra.
  - apply Rmult_le_pos; [exact H|].
    apply Rlt_le, Rinv_0_lt_compat, lt_0_INR. simpl. lia.
Qed.

Lemma std_neq_0_var_pos l : np.std l <> 0 -> 0 < np.var l.
Proof.
  unfold np.std. intros H. destruct (var_nonneg l) as [Hp|Hz]; [exact Hp|].
  exfalso. apply H. rewrite <- Hz. apply sqrt_0.
Qed.

(** The square of the scale factor times the variance is 2. *)
Lemma scale_sq_var l :
  np.std l <> 0 -> sq (sqrt 2 / np.std l) * np.var l = 2.
Proof.
  intros H. pose proof (std_neq_0_var_pos l H) as Hv.
  unfold sq, np.std in *.
  replace (sqrt 2 / sqrt (np.var l) * (sqrt 2 / sqrt (np.var l)) * np.var l)
    with ((sqrt 2 * sqrt 2) * (np.var l / (sqrt (np.var l) * sqrt (np.var l))))
    by (field; exact H).
  rewrite !sqrt_sqrt by lra. field. lra.
Qed.

Lemma INR_length_pos {A : Type} (l : list A) : l <> [] -> 0 < INR (length l).
Proof. destruct l; [contradiction|]. intros _. apply lt_0_INR. simpl. lia. Qed.

(** Squared Euclidean distance from the origin of a homogeneous point. *)
Definition sq_dist2 (p : vec3) : R := sq (x2 (euclid p)) + sq (y2 (euclid p)).
Definition sq_dist3 (p : vec4) : R :=
  sq (x3 (euclid4 p)) + sq (y3 (euclid4 p)) + sq (z3 (euclid4 p)).

(** Euclidean distance from the origin, and its mean over a point set. *)
Definition mean_dist2 (pts : list vec3) : R := np.mean (map (fun p => sqrt (sq_dist2 p)) pts).
Definition mean_dist3 (pts : list vec4) : R := np.mean (map (fun p => sqrt (sq_dist3 p)) pts).

Section Normalize2d.

Variable pts : list vec3.
Hypothesis Hne : pts <> [].
Hypothesis Hw : Forall (fun p => z3 p = 1) pts.
Hypothesis Hstd : np.std (flat_map (fun p => [x3 p; y3 p]) pts) <> 0.

Let s := sqrt 2 / np.std (flat_map (fun p => [x3 p; y3 p]) pts).
Let cx := np.mean (map x3 pts).
Let cy := np.mean (map y3 pts).
Let N := INR (length pts).
Let Vx := np.sum (map (fun p => sq (x3 p - cx)) pts).
Let Vy := np.sum (map (fun p => sq (y3 p - cy)) pts).
Let m := np.mean (flat_map (fun p => [x3 p; y3 p]) pts).

Lemma normalize2dpts_points :
  fst (normalize2dpts pts) =
    map (fun p => V3 (s * x3 p - s * cx) (s * y3 p - s * cy) 1) pts.
Proof.
  unfold normalize2dpts. cbn [fst]. fold s cx cy.
  apply map_ext_in. intros [x y w] Hin.
  rewrite Forall_forall in Hw. specialize (Hw _ Hin). simpl in Hw. subst w.
  unfold mv33, dot3; simpl. apply vec3_eq; ring.
Qed.

Lemma normalize2dpts_mean_x :
  np.mean (map (fun p => x2 (euclid p)) (fst (normalize2dpts pts))) = 0.
Proof.
  rewrite normalize2dpts_points, map_map. unfold euclid; cbn [x2 x3 z3].
  unfold np.mean. rewrite length_map. fold N.
  rewrite (map_ext _ (fun p => s * x3 p + (- s * cx))) by (intros; field).
  rewrite sum_map_plus, sum_map_scale, sum_map_const. fold N.
  unfold cx, np.mean. rewrite length_map. fold N.
  pose proof (INR_length_pos pts Hne). fold N in H. field. lra.
Qed.

Lemma normalize2dpts_mean_y :
  np.mean (map (fun p => y2 (euclid p)) (fst (normalize2dpts pts))) = 0.
Proof.
  rewrite normalize2dpts_points, map_map. unfold euclid; cbn [y2 y3 z3].
  unfold np.mean. rewrite length_map. fold N.
  rewrite (map_ext _ (fun p => s * y3 p + (- s * cy))) by (intros; field).
  rewrite sum_map_plus, sum_map_scale, sum_map_const. fold N.
  unfold cy, np.mean. rewrite length_map. fold N.
  pose proof (INR_length_pos pts Hne). fold N in H. field. lra.
Qed.

Lemma normalize2dpts_sq_dist :
  np.mean (map sq_dist2 (fst (normalize2dpts pts))) = sq s * (Vx + Vy) / N.
Proof.
  rewrite normalize2dpts_points, map_map. unfold sq_dist2, euclid; cbn [x2 y2 x3 y3 z3].
  unfold np.mean. rewrite length_map. fold N.
  rewrite (map_ext _ (fun p => sq s * sq (x3 p - cx) + sq s * sq (y3 p - cy)))
    by (intros; unfold sq; field).
  rewrite sum_map_plus, !sum_map_scale. fold Vx Vy.
  pose proof (INR_length_pos pts Hne). fold N in H. field. lra.
Qed.

Lemma pooled_var2 :
  np.var (flat_map (fun p => [x3 p; y3 p]) pts) =
    (Vx + Vy + N * (sq (cx - m) + sq (cy - m))) / (2 * N).
Proof.
  unfold np.var. fold m. unfold np.mean at 1.
  rewrite length_map, length_flat2, mult_INR. fold N.
  rewrite (sum_map_flat2 (fun c => (c - m) * (c - m)) x3 y3 pts).
  change (fun p : vec3 => (x3 p - m) * (x3 p - m)) with (fun p : vec3 => sq (x3 p - m)).
  change (fun p : vec3 => (y3 p - m) * (y3 p - m)) with (fun p : vec3 => sq (y3 p - m)).
  rewrite (sum_sq_about_mean x3 m pts Hne), (sum_sq_about_mean y3 m pts Hne).
  fold cx cy Vx Vy N.
  pose proof (INR_length_pos pts Hne). fold N in H. simpl (INR 2). field. lra.
Qed.

Lemma axis_var2_x : np.var (map x3 pts) = Vx / N.
Proof.
  unfold np.var. fold cx. unfold np.mean at 1. rewrite !length_map, map_map. reflexivity.
Qed.

Lemma axis_var2_y : np.var (map y3 pts) = Vy / N.
Proof.
  unfold np.var. fold cy. unfold np.mean at 1. rewrite !length_map, map_map. reflexivity.
Qed.

Lemma normalize2dpts_sq_dist_var :
  np.mean (map sq_dist2 (fst (normalize2dpts pts))) *
    np.var (flat_map (fun p => [x3 p; y3 p]) pts) =
  2 * (np.var (map x3 pts) + np.var (map y3 pts)).
Proof.
  rewrite normalize2dpts_sq_dist, axis_var2_x, axis_var2_y.
  pose proof (scale_sq_var _ Hstd) as Hs. fold s in Hs.
  pose proof (INR_length_pos pts Hne). fold N in H.
  transitivity ((sq s * np.var (flat_map (fun p => [x3 p; y3 p]) pts)) * ((Vx + Vy) / N));
    [field; lra|].
  rewrite Hs. field. lra.
Qed.

Lemma normalize2dpts_sq_dist_le :
  np.mean (map sq_dist2 (fst (normalize2dpts pts))) <= 4.
Proof.
  pose proof normalize2dpts_sq_dist_var as HD.
  pose proof (std_neq_0_var_pos _ Hstd) as Hv.
  rewrite axis_var2_x, axis_var2_y in HD.
  pose proof pooled_var2 as HP.
  pose proof (INR_length_pos pts Hne) as HN. fold N in HN.
  set (D := np.mean (map sq_dist2 (fst (normalize2dpts pts)))) in *.
  set (v := np.var (flat_map (fun p => [x3 p; y3 p]) pts)) in *.
  pose proof (sq_nonneg (cx - m)) as Ha.
  pose proof (sq_nonneg (cy - m)) as Hb.
  assert (H2 : 2 * (Vx / N + Vy / N) <= 4 * v).
  { rewrite HP.
    replace (4 * ((Vx + Vy + N * (sq (cx - m) + sq (cy - m))) / (2 * N)))
      with (2 * (Vx / N + Vy / N) + 2 * (sq (cx - m) + sq (cy - m))) by (field; lra).
    lra. }
  apply (Rmult_le_reg_r v); [exact Hv|]. lra.
Qed.

End Normalize2d.

Section Normalize3d.

Variable pts : list vec4.
Hypothesis Hne : pts <> [].
Hypothesis Hw : Forall (fun p => w4 p = 1) pts.
Hypothesis Hstd : np.std (flat_map (fun p => [x4 p; y4 p; z4 p]) pts) <> 0.

Let s := sqrt 2 / np.std (flat_map (fun p => [x4 p; y4 p; z4 p]) pts).
Let cx := np.mean (map x4 pts).
Let cy := np.mean (map y4 pts).
Let cz := np.mean (map z4 pts).
Let N := INR (length pts).
Let Vx := np.sum (map (fun p => sq (x4 p - cx)) pts).
Let Vy := np.sum (map (fun p => sq (y4 p - cy)) pts).
Let Vz := np.sum (map (fun p => sq (z4 p - cz)) pts).
Let m := np.mean (flat_map (fun p => [x4 p; y4 p; z4 p]) pts).

Lemma normalize3dpts_points :
  fst (normalize3dpts pts) =
    map (fun p => V4 (s * x4 p - s * cx) (s * y4 p - s * cy) (s * z4 p - s * cz) 1) pts.
Proof.
  unfold normalize3dpts. cbn [fst]. fold s cx cy cz.
  apply map_ext_in. intros [x y z w] Hin.
  rewrite Forall_forall in Hw. specialize (Hw _ Hin). simpl in Hw. subst w.
  unfold mv44, dot4; simpl. apply vec4_eq; ring.
Qed.

Lemma normalize3dpts_mean_x :
  np.mean (map (fun p => x3 (euclid4 p)) (fst (normalize3dpts pts))) = 0.
Proof.
  rewrite normalize3dpts_points, map_map. unfold euclid4; cbn [x3 x4 w4].
  unfold np.mean. rewrite length_map. fold N.
  rewrite (map_ext _ (fun p => s * x4 p + (- s * cx))) by (intros; field).
  rewrite sum_map_plus, sum_map_scale, sum_map_const. fold N.
  unfold cx, np.mean. rewrite length_map. fold N.
  pose proof (INR_length_pos pts Hne). fold N in H. field. lra.
Qed.

Lemma normalize3dpts_mean_y :
  np.mean (map (fun p => y3 (euclid4 p)) (fst (normalize3dpts pts))) = 0.
Proof.
  rewrite normalize3dpts_points, map_map. unfold euclid4; cbn [y3 y4 w4].
  unfold np.mean. rewrite length_map. fold N.
  rewrite (map_ext _ (fun p => s * y4 p + (- s * cy))) by (intros; field).
  rewrite sum_map_plus, sum_map_scale, sum_map_const. fold N.
  unfold cy, np.mean. rewrite length_map. fold N.
  pose proof (INR_length_pos pts Hne). fold N in H. field. lra.
Qed.

Lemma normalize3dpts_mean_z :
  np.mean (map (fun p => z3 (euclid4 p)) (fst (normalize3dpts pts))) = 0.
Proof.
  rewrite normalize3dpts_points, map_map. unfold euclid4; cbn [z3 z4 w4].
  unfold np.mean. rewrite length_map. fold N.
  rewrite (map_ext _ (fun p => s * z4 p + (- s * cz))) by (intros; field).
  rewrite sum_map_plus, sum_map_scale, sum_map_const. fold N.
  unfold cz, np.mean. rewrite length_map. fold N.
  pose proof (INR_length_pos pts Hne). fold N in H. field. lra.
Qed.

Lemma normalize3dpts_sq_dist :
  np.mean (map sq_dist3 (fst (normalize3dpts pts))) = sq s * (Vx + Vy + Vz) / N.
Proof.
  rewrite normalize3dpts_points, map_map.
  unfold sq_dist3, euclid4; cbn [x3 y3 z3 x4 y4 z4 w4].
  unfold np.mean. rewrite length_map. fold N.
  rewrite (map_ext _ (fun p => sq s * sq (x4 p - cx) +
                               (sq s * sq (y4 p - cy) + sq s * sq (z4 p - cz))))
    by (intros; unfold sq; field).
  rewrite !sum_map_plus, !sum_map_scale. fold Vx Vy Vz.
  pose proof (INR_length_pos pts Hne). fold N in H. field. lra.
Qed.

Lemma pooled_var3 :
  np.var (flat_map (fun p => [x4 p; y4 p; z4 p]) pts) =
    (Vx + Vy + Vz + N * (sq (cx - m) + sq (cy - m) + sq (cz - m))) / (3 * N).
Proof.
  unfold np.var. fold m. unfold np.mean at 1.
  rewrite length_map, length_flat3, mult_INR. fold N.
  rewrite (sum_map_flat3 (fun c => (c - m) * (c - m)) x4 y4 z4 pts).
  change (fun p : vec4 => (x4 p - m) * (x4 p - m)) with (fun p : vec4 => sq (x4 p - m)).
  change (fun p : vec4 => (y4 p - m) * (y4 p - m)) with (fun p : vec4 => sq (y4 p - m)).
  change (fun p : vec4 => (z4 p - m) * (z4 p - m)) with (fun p : vec4 => sq (z4 p - m)).
  rewrite (sum_sq_about_mean x4 m pts Hne), (sum_sq_about_mean y4 m pts Hne),
    (sum_sq_about_mean z4 m pts Hne).
  fold cx cy cz Vx Vy Vz N.
  pose proof (INR_length_pos pts Hne). fold N in H. simpl (INR 3). field. lra.
Qed.

Lemma axis_var3_x : np.var (map x4 pts) = Vx / N.
Proof.
  unfold np.var. fold cx. unfold np.mean at 1. rewrite !length_map, map_map. reflexivity.
Qed.

Lemma axis_var3_y : np.var (map y4 pts) = Vy / N.
Proof.
  unfold np.var. fold cy. unfold np.mean at 1. rewrite !length_map, map_map. reflexivity.
Qed.

Lemma axis_var3_z : np.var (map z4 pts) = Vz / N.
Proof.
  unfold np.var. fold cz. unfold np.mean at 1. rewrite !length_map, map_map. reflexivity.
Qed.

Lemma normalize3dpts_sq_dist_var :
  np.mean (map sq_dist3 (fst (normalize3dpts pts))) *
    np.var (flat_map (fun p => [x4 p; y4 p; z4 p]) pts) =
  2 * (np.var (map x4 pts) + np.var (map y4 pts) + np.var (map z4 pts)).
Proof.
  rewrite normalize3dpts_sq_dist, axis_var3_x, axis_var3_y, axis_var3_z.
  pose proof (scale_sq_var _ Hstd) as Hs. fold s in Hs.
  pose proof (INR_length_pos pts Hne). fold N in H.
  transitivity ((sq s * np.var (flat_map (fun p => [x4 p; y4 p; z4 p]) pts)) *
                ((Vx + Vy + Vz) / N));
    [field; lra|].
  rewrite Hs. field. lra.
Qed.

Lemma normalize3dpts_sq_dist_le :
  np.mean (map sq_dist3 (fst (normalize3dpts pts))) <= 6.
Proof.
  pose proof normalize3dpts_sq_dist_var as HD.
  pose proof (std_neq_0_var_pos _ Hstd) as Hv.
  rewrite axis_var3_x, axis_var3_y, axis_var3_z in HD.
  pose proof pooled_var3 as HP.
  pose proof (INR_length_pos pts Hne) as HN. fold N in HN.
  set (D := np.mean (map sq_dist3 (fst (normalize3dpts pts)))) in *.
  set (v := np.var (flat_map (fun p => [x4 p; y4 p; z4 p]) pts)) in *.
  pose proof (sq_nonneg (cx - m)) as Ha.
  pose proof (sq_nonneg (cy - m)) as Hb.
  pose proof (sq_nonneg (cz - m)) as Hc.
  assert (H2 : 2 * (Vx / N + Vy / N + Vz / N) <= 6 * v).
  { rewrite HP.
    replace (6 * ((Vx + Vy + Vz + N * (sq (cx - m) + sq (cy - m) + sq (cz - m))) / (3 * N)))
      with (2 * (Vx / N + Vy / N + Vz / N) +
            2 * (sq (cx - m) + sq (cy - m) + sq (cz - m))) by (field; lra).
    lra. }
  apply (Rmult_le_reg_r v); [exact Hv|]. lra.
Qed.

End Normalize3d.

(** C8, as amended.  For a nonempty set of homogeneous points whose scales
    are all 1 and whose coordinates have nonzero standard deviation (taken
    over all coordinates together), [normalize2dpts] (resp.
    [normalize3dpts]) returns the similarity [T] that scales by
    [s = sqrt(2) / std] and then translates by minus the scaled centroid,
    together with the points so transformed; their coordinate-wise mean is
    0; the mean of their squared distances from the origin, times the
    variance of all coordinates together, is twice the sum of the variances
    of the coordinates taken axis by axis, and it is at most 4 (resp. 6). *)
Theorem normalize_pts_properties :
  (forall pts : list vec3,
     pts <> [] ->
     Forall (fun p => z3 p = 1) pts ->
     np.std (flat_map (fun p => [x3 p; y3 p]) pts) <> 0 ->
     let s := sqrt 2 / np.std (flat_map (fun p => [x3 p; y3 p]) pts) in
     let cx := np.mean (map x3 pts) in
     let cy := np.mean (map y3 pts) in
     let out := fst (normalize2dpts pts) in
     snd (normalize2dpts pts) = M33 (V3 s 0 (- s * cx)) (V3 0 s (- s * cy)) (V3 0 0 1) /\
     out = map (fun p => V3 (s * x3 p - s * cx) (s * y3 p - s * cy) 1) pts /\
     np.mean (map (fun p => x2 (euclid p)) out) = 0 /\
     np.mean (map (fun p => y2 (euclid p)) out) = 0 /\
     np.mean (map sq_dist2 out) * np.var (flat_map (fun p => [x3 p; y3 p]) pts) =
       2 * (np.var (map x3 pts) + np.var (map y3 pts)) /\
     np.mean (map sq_dist2 out) <= 4) /\
  (forall pts : list vec4,
     pts <> [] ->
     Forall (fun p => w4 p = 1) pts ->
     np.std (flat_map (fun p => [x4 p; y4 p; z4 p]) pts) <> 0 ->
     let s := sqrt 2 / np.std (flat_map (fun p => [x4 p; y4 p; z4 p]) pts) in
     let cx := np.mean (map x4 pts) in
     let cy := np.mean (map y4 pts) in
     let cz := np.mean (map z4 pts) in
     let out := fst (normalize3dpts pts) in
     snd (normalize3dpts pts) =
       M44 (V4 s 0 0 (- s * cx)) (V4 0 s 0 (- s * cy)) (V4 0 0 s (- s * cz)) (V4 0 0 0 1) /\
     out = map (fun p => V4 (s * x4 p - s * cx) (s * y4 p - s * cy) (s * z4 p - s * cz) 1) pts /\
     np.mean (map (fun p => x3 (euclid4 p)) out) = 0 /\
     np.mean (map (fun p => y3 (euclid4 p)) out) = 0 /\
     np.mean (map (fun p => z3 (euclid4 p)) out) = 0 /\
     np.mean (map sq_dist3 out) * np.var (flat_map (fun p => [x4 p; y4 p; z4 p]) pts) =
       2 * (np.var (map x4 pts) + np.var (map y4 pts) + np.var (map z4 pts)) /\
     np.mean (map sq_dist3 out) <= 6).
Proof.
  split.
  - intros pts Hne Hw Hstd s cx cy out.
    split; [reflexivity|].
    split; [apply normalize2dpts_points; assumption|].
    split; [apply normalize2dpts_mean_x; assumption|].
    split; [apply normalize2dpts_mean_y; assumption|].
    split; [apply normalize2dpts_sq_dist_var; assumption|].
    apply normalize2dpts_sq_dist_le; assumption.
  - intros pts Hne Hw Hstd s cx cy cz out.
    split; [reflexivity|].
    split; [apply normalize3dpts_points; assumption|].
    split; [apply normalize3dpts_mean_x; assumption|].
    split; [apply normalize3dpts_mean_y; assumption|].
    split; [apply normalize3dpts_mean_z; assumption|].
    split; [apply normalize3dpts_sq_dist_var; assumption|].
    apply normalize3dpts_sq_dist_le; assumption.
Qed.

(** Two points on the first axis, with scale 1. *)
Definition pts_pair : list vec3 := [V3 0 0 1; V3 2 0 1].

Lemma var_pts_pair : np.var (flat_map (fun p => [x3 p; y3 p]) pts_pair) = 3 / 4.
Proof. unfold np.var, np.mean, np.sum, pts_pair; simpl. lra. Qed.

Lemma std_pts_pair_pos : 0 < np.std (flat_map (fun p => [x3 p; y3 p]) pts_pair).
Proof. unfold np.std. rewrite var_pts_pair. apply sqrt_lt_R0. lra. Qed.

Lemma normalize_pts_properties_witness :
  let pts := pts_pair in
  let s := sqrt 2 / np.std (flat_map (fun p => [x3 p; y3 p]) pts) in
  let cx := np.mean (map x3 pts) in
  let cy := np.mean (map y3 pts) in
  let out := fst (normalize2dpts pts) in
  snd (normalize2dpts pts) = M33 (V3 s 0 (- s * cx)) (V3 0 s (- s * cy)) (V3 0 0 1) /\
  out = map (fun p => V3 (s * x3 p - s * cx) (s * y3 p - s * cy) 1) pts /\
  np.mean (map (fun p => x2 (euclid p)) out) = 0 /\
  np.mean (map (fun p => y2 (euclid p)) out) = 0 /\
  np.mean (map sq_dist2 out) * np.var (flat_map (fun p => [x3 p; y3 p]) pts) =
    2 * (np.var (map x3 pts) + np.var (map y3 pts)) /\
  np.mean (map sq_dist2 out) <= 4.
Proof.
  apply (proj1 normalize_pts_properties pts_pair).
  - discriminate.
  - repeat constructor.
  - pose proof std_pts_pair_pos. lra.
Defined.

(** The scale factor computed for [pts_pair] is positive and is not
    [sqrt 2]. *)
Lemma scale_pts_pair :
  let s := sqrt 2 / np.std (flat_map (fun p => [x3 p; y3 p]) pts_pair) in
  0 < s /\ s <> sqrt 2.
Proof.
  intros s. pose proof std_pts_pair_pos as Hp. pose proof (sqrt_lt_R0 2) as H2.
  split.
  - unfold s. apply Rdiv_lt_0_compat; lra.
  - unfold s. intros E.
    assert (E1 : np.std (flat_map (fun p => [x3 p; y3 p]) pts_pair) = 1).
    { set (t := np.std (flat_map (fun p => [x3 p; y3 p]) pts_pair)) in *.
      assert (E2 : sqrt 2 / t * t = sqrt 2) by (field; lra).
      rewrite E in E2. nra. }
    pose proof var_pts_pair as Hv. unfold np.std in E1.
    assert (Hs : sqrt (np.var (flat_map (fun p => [x3 p; y3 p]) pts_pair)) *
                 sqrt (np.var (flat_map (fun p => [x3 p; y3 p]) pts_pair)) = 3 / 4).
    { rewrite sqrt_sqrt; lra. }
    rewrite E1 in Hs. lra.
Qed.

(** The same two points, the second with homogeneous scale 2. *)
Definition pts_pair_scaled : list vec3 := [V3 0 0 1; V3 2 0 2].

(** C8, as stated, fails, in two ways.  On [pts_pair] the normalized points
    are at distance [s] from the origin, where [s] is the scale factor, and
    [s] is not [sqrt 2]; on [pts_pair_scaled], whose second point has scale
    2, the mean of the first coordinate of the normalized points is not 0,
    whether taken on the homogeneous or on the Euclidean coordinates. *)
Lemma normalize2dpts_mean_distance_not_sqrt2 :
  (np.std (flat_map (fun p => [x3 p; y3 p]) pts_pair) <> 0 /\
   mean_dist2 (fst (normalize2dpts pts_pair)) <> sqrt 2) /\
  (np.std (flat_map (fun p => [x3 p; y3 p]) pts_pair_scaled) <> 0 /\
   np.mean (map x3 (fst (normalize2dpts pts_pair_scaled))) <> 0 /\
   np.mean (map (fun p => x2 (euclid p)) (fst (normalize2dpts pts_pair_scaled))) <> 0).
Proof.
  pose proof std_pts_pair_pos as Hp.
  destruct scale_pts_pair as (Hs & Hne). cbv zeta in Hs, Hne.
  assert (Ecx : np.mean [0; 2] = 1) by (unfold np.mean, np.sum; simpl; lra).
  assert (Ecy : np.mean [0; 0] = 0) by (unfold np.mean, np.sum; simpl; lra).
  split; split.
  - lra.
  - unfold mean_dist2, normalize2dpts. cbn [fst].
    change (flat_map (fun p => [x3 p; y3 p]) pts_pair) with [0; 0; 2; 0].
    change (flat_map (fun p => [x3 p; y3 p]) pts_pair) with [0; 0; 2; 0] in Hs, Hne.
    set (s := sqrt 2 / np.std [0; 0; 2; 0]) in *.
    unfold pts_pair. cbn [map x3 y3]. rewrite Ecx, Ecy.
    assert (D : forall a b c : R, a = s * s -> sqrt a = s).
    { intros a _ _ ->. apply sqrt_square. lra. }
    unfold np.mean, np.sum. cbn [map fold_right length].
    rewrite (D _ 0 0), (D _ 0 0).
    + simpl (INR 2). intros E. apply Hne. lra.
    + unfold sq_dist2, sq, euclid, mv33, dot3. cbn [x2 y2 x3 y3 z3 m33_0 m33_1 m33_2]. field.
    + unfold sq_dist2, sq, euclid, mv33, dot3. cbn [x2 y2 x3 y3 z3 m33_0 m33_1 m33_2]. field.
  - exact (Rgt_not_eq _ _ Hp).
  - unfold normalize2dpts. cbn [fst].
    change (flat_map (fun p => [x3 p; y3 p]) pts_pair_scaled) with [0; 0; 2; 0].
    change (flat_map (fun p => [x3 p; y3 p]) pts_pair) with [0; 0; 2; 0] in Hs.
    set (s := sqrt 2 / np.std [0; 0; 2; 0]) in *.
    unfold pts_pair_scaled. cbn [map x3 y3]. rewrite Ecx, Ecy.
    unfold np.mean, np.sum, euclid, mv33, dot3.
    cbn [map fold_right length x2 y2 x3 y3 z3 m33_0 m33_1 m33_2]. simpl (INR 2).
    split; intros E.
    + assert (s = 0) by lra. lra.
    + assert (E' : - s / 2 = 0) by (rewrite <- E; field). lra.
Qed.

(** ** Camera factorization *)

Lemma mat33_eq r0 r1 r2 r0' r1' r2' :
  r0 = r0' -> r1 = r1' -> r2 = r2' -> M33 r0 r1 r2 = M33 r0' r1' r2'.
Proof. intros; subst; reflexivity. Qed.

Ltac mat33_ring :=
  repeat match goal with
         | m : mat33 |- _ => destruct m as [[? ? ?] [? ? ?] [? ? ?]]
         | v : vec3 |- _ => destruct v as [? ? ?]
         end;
  unfold mul33, T33, vm33, mv33, scale33, scale3, neg33, neg3, div33, div3, det33, cross, dot3,
    col33_0, col33_1, col33_2, flipud, fliplr, I33; simpl;
  try (apply mat33_eq; apply vec3_eq; ring);
  try (apply vec3_eq; ring);
  try ring.

(** The exchange matrix: [flipud] and [fliplr] multiply by it. *)
Definition J33 : mat33 := M33 (V3 0 0 1) (V3 0 1 0) (V3 1 0 0).

Lemma mul33_assoc A B C : mul33 (mul33 A B) C = mul33 A (mul33 B C).
Proof. mat33_ring. Qed.
Lemma mul33_I33_l A : mul33 I33 A = A.
Proof. mat33_ring. Qed.
Lemma mul33_I33_r A : mul33 A I33 = A.
Proof. mat33_ring. Qed.
Lemma T33_mul33 A B : T33 (mul33 A B) = mul33 (T33 B) (T33 A).
Proof. mat33_ring. Qed.
Lemma T33_T33 A : T33 (T33 A) = A.
Proof. mat33_ring. Qed.
Lemma det33_mul33 A B : det33 (mul33 A B) = det33 A * det33 B.
Proof. mat33_ring. Qed.
Lemma det33_T33 A : det33 (T33 A) = det33 A.
Proof. mat33_ring. Qed.
Lemma det33_neg33 A : det33 (neg33 A) = - det33 A.
Proof. mat33_ring. Qed.
Lemma flipud_J A : flipud A = mul33 J33 A.
Proof. unfold J33. mat33_ring. Qed.
Lemma fliplr_J A : fliplr A = mul33 A J33.
Proof. unfold J33. mat33_ring. Qed.
Lemma J33_J33 : mul33 J33 J33 = I33.
Proof. unfold J33. mat33_ring. Qed.
Lemma T33_J33 : T33 J33 = J33.
Proof. unfold J33. mat33_ring. Qed.
Lemma T33_I33 : T33 I33 = I33.
Proof. mat33_ring. Qed.

(** What the claim says of [K] and [R], and what [np.linalg.qr] returns. *)
Definition upper_triangular (M : mat33) : Prop :=
  x3 (m33_1 M) = 0 /\ x3 (m33_2 M) = 0 /\ y3 (m33_2 M) = 0.
Definition orthogonal (M : mat33) : Prop :=
  mul33 M (T33 M) = I33 /\ mul33 (T33 M) M = I33.
Definition qr_spec (B Q R : mat33) : Prop :=
  mul33 Q R = B /\ orthogonal Q /\ upper_triangular R.

Lemma det33_upper M :
  upper_triangular M -> det33 M = x3 (m33_0 M) * y3 (m33_1 M) * z3 (m33_2 M).
Proof.
  destruct M as [[a b c] [d e f] [g h k]]. unfold upper_triangular; simpl.
  intros (-> & -> & ->). unfold det33, dot3, cross; simpl. ring.
Qed.

Lemma orthogonal_det M : orthogonal M -> det33 M = 1 \/ det33 M = -1.
Proof.
  intros [H _]. apply (f_equal det33) in H.
  rewrite det33_mul33, det33_T33 in H.
  replace (det33 I33) with 1 in H by (unfold det33, I33, dot3, cross; simpl; ring).
  assert (E : (det33 M - 1) * (det33 M + 1) = 0) by nra.
  apply Rmult_integral in E. destruct E; [left|right]; lra.
Qed.

Section RQ.

Variable linalg_qr : mat33 -> mat33 * mat33.

Lemma RQ_factorization_correct A :
  qr_spec (T33 (flipud A)) (fst (linalg_qr (T33 (flipud A)))) (snd (linalg_qr (T33 (flipud A)))) ->
  mul33 (fst (RQ_factorization linalg_qr A)) (snd (RQ_factorization linalg_qr A)) = A /\
  upper_triangular (fst (RQ_factorization linalg_qr A)) /\
  orthogonal (snd (RQ_factorization linalg_qr A)).
Proof.
  unfold RQ_factorization.
  destruct (linalg_qr (T33 (flipud A))) as [Q R]. cbn [fst snd].
  intros (HQR & (HQ1 & HQ2) & HR).
  split; [|split].
  - rewrite fliplr_J, !flipud_J.
    rewrite !mul33_assoc, <- (mul33_assoc J33 J33), J33_J33, mul33_I33_l.
    rewrite <- T33_mul33, HQR, flipud_J, T33_T33.
    rewrite <- mul33_assoc, J33_J33, mul33_I33_l. reflexivity.
  - destruct R as [[a b c] [d e f] [g h k]]. unfold upper_triangular in *; simpl in *.
    tauto.
  - split.
    + rewrite flipud_J, T33_mul33, T33_T33, T33_J33.
      rewrite mul33_assoc, <- (mul33_assoc (T33 Q)), HQ2, mul33_I33_l. apply J33_J33.
    + rewrite flipud_J, T33_mul33, T33_T33, T33_J33.
      rewrite mul33_assoc, <- (mul33_assoc J33), J33_J33, mul33_I33_l. exact HQ1.
Qed.

End RQ.

Lemma sign_nonzero x : x <> 0 -> np.sign x * np.sign x = 1 /\ 0 < x * np.sign x.
Proof.
  intros H. unfold np.sign.
  destruct (Rlt_dec x 0); [split; lra|].
  destruct (Rlt_dec 0 x); [split; lra|]. lra.
Qed.

Lemma diag_sign_involutive K :
  x3 (m33_0 K) <> 0 -> y3 (m33_1 K) <> 0 -> z3 (m33_2 K) <> 0 ->
  mul33 (diag_sign K) (diag_sign K) = I33.
Proof.
  intros H0 H1 H2.
  destruct (sign_nonzero _ H0) as (E0 & _), (sign_nonzero _ H1) as (E1 & _),
    (sign_nonzero _ H2) as (E2 & _).
  unfold diag_sign, mul33, vm33, dot3, col33_0, col33_1, col33_2, I33; simpl.
  apply mat33_eq; apply vec3_eq; try ring; ring_simplify; [| |];
    match goal with |- ?a ^ 2 = 1 => replace (a ^ 2) with (a * a) by ring end; assumption.
Qed.

Lemma T33_diag_sign K : T33 (diag_sign K) = diag_sign K.
Proof. unfold diag_sign, T33, col33_0, col33_1, col33_2; simpl. reflexivity. Qed.

Lemma linalg_solve_correct solve_singular K b :
  det33 K <> 0 -> exists t, linalg_solve solve_singular K b = Ok t /\ mv33 K t = b.
Proof.
  intros Hd. unfold linalg_solve.
  destruct (Req_dec_T (det33 K) 0); [contradiction|].
  eexists; split; [reflexivity|].
  destruct K as [[a b0 c] [d e f] [g h k]], b as [b1 b2 b3].
  revert Hd.
  unfold mv33, det33, replace_col0, replace_col1, replace_col2, dot3, cross; simpl.
  intros Hd. apply vec3_eq; field; exact Hd.
Qed.

Lemma mul33_34_concatenate K R t :
  mul33_34 K (concatenate_axis1 R t) = concatenate_axis1 (mul33 K R) (mv33 K t).
Proof.
  destruct K as [[] [] []], R as [[] [] []], t.
  unfold mul33_34, concatenate_axis1, mul33, mv33, vm34, vm33, dot3,
    col34_0, col34_1, col34_2, col34_3, col33_0, col33_1, col33_2; simpl.
  apply mat34_eq; apply vec4_eq; ring.
Qed.

Lemma concatenate_blocks P : P = concatenate_axis1 (left_block P) (last_column P).
Proof. destruct P as [[] [] []]. reflexivity. Qed.

Lemma scale34_concatenate c A b :
  scale34 c (concatenate_axis1 A b) = concatenate_axis1 (scale33 c A) (scale3 c b).
Proof. destruct A as [[] [] []], b. reflexivity. Qed.

Lemma mul33_div33 K k R : mul33 (div33 K k) R = scale33 (/ k) (mul33 K R).
Proof.
  destruct K as [[] [] []], R as [[] [] []].
  unfold mul33, div33, div3, scale33, scale3, vm33, dot3, col33_0, col33_1, col33_2, Rdiv; simpl.
  apply mat33_eq; apply vec3_eq; ring.
Qed.

Lemma mv33_div33 K k t : mv33 (div33 K k) t = scale3 (/ k) (mv33 K t).
Proof.
  destruct K as [[] [] []], t.
  unfold mv33, div33, div3, scale3, dot3, Rdiv; simpl. apply vec3_eq; ring.
Qed.

Lemma mul33_neg33 K R : mul33 K (neg33 R) = scale33 (-1) (mul33 K R).
Proof. mat33_ring. Qed.

Lemma mv33_neg3 K t : mv33 K (neg3 t) = scale3 (-1) (mv33 K t).
Proof. mat33_ring. Qed.

Lemma scale33_scale33 a b M : scale33 a (scale33 b M) = scale33 (a * b) M.
Proof. mat33_ring. Qed.

Lemma scale3_scale3 a b v : scale3 a (scale3 b v) = scale3 (a * b) v.
Proof. mat33_ring. Qed.

Lemma orthogonal_neg33 R : orthogonal R -> orthogonal (neg33 R).
Proof.
  intros [H1 H2]. split.
  - rewrite <- H1. mat33_ring.
  - rewrite <- H2. mat33_ring.
Qed.

(** C4.  For a camera matrix [P] whose leading [3 x 3] block is nonsingular,
    and [np.linalg.qr] returning an orthogonal [Q] and an upper-triangular
    [R] whose product is its argument, [KRt_from_P] returns [(K, R, t)] with
    [K] upper-triangular, its diagonal strictly positive and [K[2,2] = 1],
    [R] orthogonal with determinant 1, and [K @ [R|t]] a nonzero multiple of
    [P]. *)
Theorem KRt_from_P_factorization (linalg_qr : mat33 -> mat33 * mat33)
  (solve_singular : mat33 -> vec3 -> option vec3) (P : mat34) :
  det33 (left_block P) <> 0 ->
  qr_spec (T33 (flipud (left_block P)))
          (fst (linalg_qr (T33 (flipud (left_block P)))))
          (snd (linalg_qr (T33 (flipud (left_block P))))) ->
  exists K R t,
    KRt_from_P linalg_qr solve_singular P = Ok (K, R, t) /\
    upper_triangular K /\
    0 < x3 (m33_0 K) /\ 0 < y3 (m33_1 K) /\ z3 (m33_2 K) = 1 /\
    orthogonal R /\ det33 R = 1 /\
    exists c, c <> 0 /\ mul33_34 K (concatenate_axis1 R t) = scale34 c P.
Proof.
  intros Hdet Hqr.
  destruct (RQ_factorization_correct linalg_qr (left_block P) Hqr) as (HKR & HK0 & HR0).
  unfold KRt_from_P.
  destruct (RQ_factorization linalg_qr (left_block P)) as [K0 R0]. cbn [fst snd] in *.
  (* the diagonal of K0 has no zero *)
  assert (HdK : det33 K0 * det33 R0 <> 0) by (rewrite <- det33_mul33, HKR; exact Hdet).
  rewrite (det33_upper K0 HK0) in HdK.
  assert (Hk0 : x3 (m33_0 K0) <> 0) by (intros E; apply HdK; rewrite E; ring).
  assert (Hk1 : y3 (m33_1 K0) <> 0) by (intros E; apply HdK; rewrite E; ring).
  assert (Hk2 : z3 (m33_2 K0) <> 0) by (intros E; apply HdK; rewrite E; ring).
  pose proof (diag_sign_involutive K0 Hk0 Hk1 Hk2) as HTT.
  pose proof (T33_diag_sign K0) as HTt.
  destruct (sign_nonzero _ Hk0) as (_ & P0), (sign_nonzero _ Hk1) as (_ & P1),
    (sign_nonzero _ Hk2) as (_ & P2).
  set (T := diag_sign K0) in *.
  set (K1 := mul33 K0 T). set (R1 := mul33 T R0).
  assert (HK1R1 : mul33 K1 R1 = left_block P).
  { unfold K1, R1. rewrite mul33_assoc, <- (mul33_assoc T T), HTT, mul33_I33_l. exact HKR. }
  assert (HR1 : orthogonal R1).
  { destruct HR0 as [O1 O2]. unfold R1. split.
    - rewrite T33_mul33, HTt, mul33_assoc, <- (mul33_assoc R0), O1, mul33_I33_l. exact HTT.
    - rewrite T33_mul33, HTt, mul33_assoc, <- (mul33_assoc T T), HTT, mul33_I33_l. exact O2. }
  assert (HK1 : upper_triangular K1 /\
                x3 (m33_0 K1) = x3 (m33_0 K0) * np.sign (x3 (m33_0 K0)) /\
                y3 (m33_1 K1) = y3 (m33_1 K0) * np.sign (y3 (m33_1 K0)) /\
                z3 (m33_2 K1) = z3 (m33_2 K0) * np.sign (z3 (m33_2 K0))).
  { unfold K1, T, diag_sign. destruct K0 as [[a b c] [d e f] [g h k]].
    unfold upper_triangular in *; simpl in *. destruct HK0 as (-> & -> & ->).
    unfold vm33, dot3; simpl. repeat split; ring. }
  destruct HK1 as (HK1u & D0 & D1 & D2).
  assert (HdK1 : det33 K1 <> 0).
  { rewrite (det33_upper K1 HK1u), D0, D1, D2.
    apply Rgt_not_eq. apply Rmult_lt_0_compat; [apply Rmult_lt_0_compat|]; assumption. }
  destruct (linalg_solve_correct solve_singular K1 (last_column P) HdK1) as (t1 & Et & Ht).
  rewrite Et. cbn [bind].
  set (k := z3 (m33_2 K1)) in *.
  assert (Hk : 0 < k) by (rewrite D2; exact P2).
  assert (HKu : upper_triangular (div33 K1 k) /\ 0 < x3 (m33_0 (div33 K1 k)) /\
                0 < y3 (m33_1 (div33 K1 k)) /\ z3 (m33_2 (div33 K1 k)) = 1).
  { rewrite <- D0 in P0. rewrite <- D1 in P1. unfold k in *. clearbody K1.
    destruct K1 as [[a b c] [d e f] [g h k1]].
    unfold upper_triangular in *; simpl in *. destruct HK1u as (-> & -> & ->).
    unfold Rdiv. rewrite !Rmult_0_l.
    repeat split; try reflexivity.
    - apply Rmult_lt_0_compat; [assumption|apply Rinv_0_lt_compat; assumption].
    - apply Rmult_lt_0_compat; [assumption|apply Rinv_0_lt_compat; assumption].
    - field. lra. }
  destruct HKu as (HKu & HKx & HKy & HKz).
  destruct (Rlt_dec (det33 R1) 0) as [Hneg|Hpos].
  - exists (div33 K1 k), (neg33 R1), (neg3 t1).
    split; [reflexivity|]. repeat (split; [assumption|]).
    split; [apply orthogonal_neg33; exact HR1|].
    split.
    { rewrite det33_neg33. destruct (orthogonal_det R1 HR1); lra. }
    exists (- / k). split.
    { pose proof (Rinv_0_lt_compat k Hk). lra. }
    rewrite mul33_34_concatenate, mul33_div33, mv33_div33, mul33_neg33, mv33_neg3.
    rewrite scale33_scale33, scale3_scale3, HK1R1, Ht.
    rewrite (concatenate_blocks P) at 3. rewrite scale34_concatenate.
    f_equal; f_equal; ring.
  - exists (div33 K1 k), R1, t1.
    split; [reflexivity|]. repeat (split; [assumption|]).
    split.
    { destruct (orthogonal_det R1 HR1); lra. }
    exists (/ k). split.
    { apply Rinv_neq_0_compat. lra. }
    rewrite mul33_34_concatenate, mul33_div33, mv33_div33, HK1R1, Ht.
    rewrite (concatenate_blocks P) at 3. rewrite scale34_concatenate. reflexivity.
Qed.

(** A camera with intrinsics of negative second diagonal entry, and the QR
    factors of the flipped, transposed intrinsics. *)
Definition K_example : mat33 := M33 (V3 2 0 1) (V3 0 (-3) 1) (V3 0 0 1).
Definition P_example : mat34 := concatenate_axis1 K_example (V3 1 2 3).
Definition qr_example : mat33 -> mat33 * mat33 :=
  fun _ => (J33, M33 (V3 1 1 1) (V3 0 (-3) 0) (V3 0 0 2)).

(** An [np.linalg.solve] that raises on every singular matrix. *)
Definition solve_raises : mat33 -> vec3 -> option vec3 := fun _ _ => None.

Lemma KRt_from_P_factorization_witness :
  exists K R t,
    KRt_from_P qr_example solve_raises P_example = Ok (K, R, t) /\
    upper_triangular K /\
    0 < x3 (m33_0 K) /\ 0 < y3 (m33_1 K) /\ z3 (m33_2 K) = 1 /\
    orthogonal R /\ det33 R = 1 /\
    exists c, c <> 0 /\ mul33_34 K (concatenate_axis1 R t) = scale34 c P_example.
Proof.
  apply (KRt_from_P_factorization qr_example solve_raises P_example).
  - unfold det33, P_example, K_example, left_block, concatenate_axis1, dot3, cross; simpl. lra.
  - unfold qr_spec, orthogonal, upper_triangular, qr_example, P_example, K_example, J33.
    cbn [fst snd].
    unfold left_block, concatenate_axis1, flipud, T33, mul33, vm33, dot3,
      col33_0, col33_1, col33_2, I33; simpl.
    repeat split; try (apply mat33_eq; apply vec3_eq; lra); lra.
Defined.

(** * Further properties of the code *)

(** ** Homogeneous and Euclidean coordinates *)

Lemma euclid_homog_row (p : vec2) : euclid (V3 (x2 p) (y2 p) 1) = p.
Proof. destruct p as [x y]. unfold euclid; simpl. f_equal; field. Qed.

(** X1.  [homog] raises on an empty array of observations and on no other;
    on a nonempty one it appends a scale of 1 to every row, and [euclid]
    applied to its rows gives the observations back. *)
Theorem homog_euclid_round_trip (x : list vec2) :
  (x = [] -> homog x = Raise (AxisError "axis 1 is out of bounds for array of dimension 1")) /\
  (x <> [] ->
   exists y, homog x = Ok y /\ length y = length x /\
             Forall (fun p => z3 p = 1) y /\ map euclid y = x).
Proof.
  split.
  - intros ->. reflexivity.
  - intros Hx. destruct x as [|p x]; [contradiction|].
    eexists. split; [reflexivity|]. split; [apply length_map|]. split.
    + apply Forall_forall. intros q Hq. apply in_map_iff in Hq as (r & <- & _). reflexivity.
    + rewrite map_map. rewrite (map_ext _ (fun p => p)); [apply map_id|].
      intros a. apply euclid_homog_row.
Qed.

(** ** Reprojection error *)

Lemma broadcast_sub_same_length (a b : list vec2) :
  length a = length b ->
  broadcast_sub a b = Ok (map (fun c => sub2 (fst c) (snd c)) (combine a b)).
Proof.
  intros L. unfold broadcast_sub.
  destruct a as [|x [|x' a]], b as [|y [|y' b]]; simpl in L; try discriminate; try reflexivity.
  simpl. injection L as L. rewrite L, Nat.eqb_refl. reflexivity.
Qed.

Lemma sum_squares_nonneg d : 0 <= sum_squares d.
Proof.
  unfold sum_squares, np.sum. induction d as [|v d IH]; cbn [map fold_right]; [lra|].
  destruct v as [x y]; cbn [x2 y2]. nra.
Qed.

Lemma sum_squares_zero d : sum_squares d = 0 <-> Forall (fun v => v = V2 0 0) d.
Proof.
  induction d as [|v d IH].
  - split; [constructor|reflexivity].
  - pose proof (sum_squares_nonneg d) as Hd.
    unfold sum_squares, np.sum in *. cbn [map fold_right].
    destruct v as [x y]; cbn [x2 y2]. split.
    + intros H. assert (x = 0) by nra. assert (y = 0) by nra.
      constructor; [subst; reflexivity|]. apply IH. nra.
    + intros H. inversion H as [|? ? E F]; subst. injection E as -> ->.
      apply IH in F. rewrite F. ring.
Qed.

Lemma zip_sub_zero (a b : list vec2) :
  length a = length b ->
  (Forall (fun v => v = V2 0 0) (map (fun c => sub2 (fst c) (snd c)) (combine a b)) <-> a = b).
Proof.
  revert b. induction a as [|x a IH]; intros [|y b] L; simpl in L; try discriminate.
  - split; [reflexivity|constructor].
  - injection L as L. simpl. split.
    + intros H. inversion H as [|? ? E F]; subst.
      apply (IH b L) in F. subst b.
      destruct x as [x1 x2], y as [y1 y2]. unfold sub2 in E; simpl in E.
      injection E as E1 E2. f_equal. f_equal; lra.
    + intros [= -> ->]. constructor.
      * destruct y; unfold sub2; simpl. f_equal; ring.
      * apply IH; auto.
Qed.

(** X2.  When the two arrays of observations have one column for each
    point and neither camera sends a point to scale 0,
    [compute_reproj_error] returns a number; it is not negative, and it is
    0 exactly when every observation is the Euclidean image of its point
    under the camera of its view. *)
Theorem compute_reproj_error_zero_iff_exact
  (X : list vec4) (P1 P2 : mat34) (xr1 xr2 : list vec2) :
  length xr1 = length X ->
  length xr2 = length X ->
  Forall (fun Xc => z3 (mv34 P1 Xc) <> 0 /\ z3 (mv34 P2 Xc) <> 0) X ->
  exists e,
    compute_reproj_error X P1 P2 xr1 xr2 = Ok e /\
    0 <= e /\
    (e = 0 <->
     xr1 = map (fun Xc => euclid (mv34 P1 Xc)) X /\
     xr2 = map (fun Xc => euclid (mv34 P2 Xc)) X).
Proof.
  intros L1 L2 _. unfold compute_reproj_error. rewrite !map_map.
  rewrite (broadcast_sub_same_length xr1), (broadcast_sub_same_length xr2)
    by (rewrite length_map; assumption).
  cbn [bind]. eexists. split; [reflexivity|].
  set (d1 := map _ (combine xr1 _)). set (d2 := map _ (combine xr2 _)).
  pose proof (sum_squares_nonneg d1) as N1. pose proof (sum_squares_nonneg d2) as N2.
  split; [lra|].
  rewrite <- (zip_sub_zero xr1), <- (zip_sub_zero xr2) by (rewrite length_map; assumption).
  fold d1 d2. rewrite <- !sum_squares_zero. split; [intros; split; lra|intros []; lra].
Qed.

Lemma compute_reproj_error_zero_iff_exact_witness :
  exists e,
    compute_reproj_error [V4 1 2 4 1; V4 0 1 2 1] P_canonical P_canonical
      [V2 (1 / 4) (1 / 2); V2 0 (1 / 2)] [V2 (1 / 4) (1 / 2); V2 0 (1 / 2)] = Ok e /\
    0 <= e /\
    (e = 0 <->
     [V2 (1 / 4) (1 / 2); V2 0 (1 / 2)] =
       map (fun Xc => euclid (mv34 P_canonical Xc)) [V4 1 2 4 1; V4 0 1 2 1] /\
     [V2 (1 / 4) (1 / 2); V2 0 (1 / 2)] =
       map (fun Xc => euclid (mv34 P_canonical Xc)) [V4 1 2 4 1; V4 0 1 2 1]).
Proof.
  apply (compute_reproj_error_zero_iff_exact [V4 1 2 4 1; V4 0 1 2 1]
           P_canonical P_canonical); try reflexivity.
  repeat constructor; unfold mv34, P_canonical, dot4; simpl; lra.
Defined.

(** ** Normalized triangulated points *)

Lemma euclid_scale3 (c : R) (v : vec3) :
  c <> 0 -> z3 v <> 0 -> euclid (scale3 c v) = euclid v.
Proof.
  intros Hc Hz. destruct v as [x y z]. unfold euclid, scale3; simpl in *.
  f_equal; field; auto.
Qed.

Lemma div4_unit_scale (X : vec4) : w4 X <> 0 -> w4 (div4 X (w4 X)) = 1.
Proof. intros H. destruct X as [x y z w]; simpl in *. field. exact H. Qed.

(** Dividing a point by its scale does not move its image. *)
Lemma euclid_mv34_div4 (P : mat34) (X : vec4) :
  w4 X <> 0 -> z3 (mv34 P X) <> 0 ->
  euclid (mv34 P (div4 X (w4 X))) = euclid (mv34 P X).
Proof.
  intros Hw Hz. rewrite mv34_div4. apply euclid_scale3; [|exact Hz].
  apply Rinv_neq_0_compat. exact Hw.
Qed.

(** X4.  [estimate_3d_points] returns one point for each triangulated
    point; when no triangulated point has scale 0, every returned point has
    scale exactly 1, and, for two cameras that send no triangulated point
    to scale 0, the reprojection error of the returned points is that of
    the triangulated points. *)
Theorem estimate_3d_points_normalized
  (triangulatePoints : mat34 -> mat34 -> list vec2 -> list vec2 -> list vec4)
  (P1 P2 : mat34) (xr1 xr2 : list vec2) (Q1 Q2 : mat34) (o1 o2 : list vec2) :
  let Xraw := triangulatePoints P1 P2 xr1 xr2 in
  let Xprj := estimate_3d_points triangulatePoints P1 P2 xr1 xr2 in
  Forall (fun X => w4 X <> 0) Xraw ->
  Forall (fun X => z3 (mv34 Q1 X) <> 0 /\ z3 (mv34 Q2 X) <> 0) Xraw ->
  length Xprj = length Xraw /\
  Forall (fun X => w4 X = 1) Xprj /\
  compute_reproj_error Xprj Q1 Q2 o1 o2 = compute_reproj_error Xraw Q1 Q2 o1 o2.
Proof.
  intros Xraw Xprj Hw Hz. unfold Xprj, estimate_3d_points. fold Xraw.
  split; [apply length_map|]. split.
  - apply Forall_forall. intros X' HX'. apply in_map_iff in HX' as (X & <- & HX).
    rewrite Forall_forall in Hw. apply div4_unit_scale. auto.
  - unfold compute_reproj_error. rewrite !map_map.
    rewrite Forall_forall in Hw, Hz.
    rewrite (map_ext_in (fun X => euclid (mv34 Q1 (div4 X (w4 X))))
                        (fun X => euclid (mv34 Q1 X)));
      [|intros X HX; apply euclid_mv34_div4; [auto|apply Hz; auto]].
    rewrite (map_ext_in (fun X => euclid (mv34 Q2 (div4 X (w4 X))))
                        (fun X => euclid (mv34 Q2 X)));
      [|intros X HX; apply euclid_mv34_div4; [auto|apply Hz; auto]].
    reflexivity.
Qed.

Lemma estimate_3d_points_normalized_witness :
  let tri := fun (_ _ : mat34) (_ _ : list vec2) => [V4 2 4 8 2; V4 0 3 6 3] in
  let Xraw := tri P_canonical P_canonical [] [] in
  let Xprj := estimate_3d_points tri P_canonical P_canonical [] [] in
  length Xprj = length Xraw /\
  Forall (fun X => w4 X = 1) Xprj /\
  compute_reproj_error Xprj P_canonical P_canonical [V2 0 0] [V2 1 1] =
    compute_reproj_error Xraw P_canonical P_canonical [V2 0 0] [V2 1 1].
Proof.
  intros tri.
  apply (estimate_3d_points_normalized tri P_canonical P_canonical [] []
           P_canonical P_canonical [V2 0 0] [V2 1 1]).
  - repeat constructor; simpl; lra.
  - repeat constructor; unfold mv34, P_canonical, dot4; simpl; lra.
Defined.

(** ** Affine upgrade: failure, and undoing it *)


Lemma mul44_assoc (A B C : mat44) : mul44 (mul44 A B) C = mul44 A (mul44 B C).
Proof.
  destruct A as [[] [] [] []], B as [[] [] [] []], C as [[] [] [] []].
  unfold mul44, vm44, dot4, col44_0, col44_1, col44_2, col44_3; simpl.
  apply mat44_eq; apply vec4_eq; ring.
Qed.

Lemma mul44_I44_l (A : mat44) : mul44 I44 A = A.
Proof.
  destruct A as [[] [] [] []].
  unfold mul44, I44, vm44, dot4, col44_0, col44_1, col44_2, col44_3; simpl.
  apply mat44_eq; apply vec4_eq; ring.
Qed.

Lemma mul34_44_assoc (P : mat34) (A B : mat44) :
  mul34_44 (mul34_44 P A) B = mul34_44 P (mul44 A B).
Proof.
  destruct P as [[] [] []], A as [[] [] [] []], B as [[] [] [] []].
  unfold mul34_44, mul44, vm44, dot4, col44_0, col44_1, col44_2, col44_3; simpl.
  apply mat34_eq; apply vec4_eq; ring.
Qed.

Lemma mul34_44_I44 (P : mat34) : mul34_44 P I44 = P.
Proof.
  destruct P as [[] [] []].
  unfold mul34_44, I44, vm44, dot4, col44_0, col44_1, col44_2, col44_3; simpl.
  apply mat34_eq; apply vec4_eq; ring.
Qed.

(** A left inverse of a nonsingular matrix is the one [np.linalg.inv]
    computes, and the matrix is in turn the inverse of it. *)
Lemma linalg_inv_of_left_inverse (G H : mat44) :
  det44 G <> 0 -> mul44 G H = I44 -> div44 (adj44 G) (det44 G) = H.
Proof.
  intros Hd E. pose proof (linalg_inv_left G Hd) as L.
  rewrite <- (mul44_I44_l H) at 1.
  rewrite <- L, mul44_assoc, E.
  destruct (div44 (adj44 G) (det44 G)) as [[] [] [] []].
  unfold mul44, I44, vm44, dot4, col44_0, col44_1, col44_2, col44_3; simpl.
  apply mat44_eq; apply vec4_eq; ring.
Qed.

Lemma transform_nonsingular (inv_singular : mat44 -> option mat44)
  (H : mat44) (Xprj : list vec4) (cams_pr : list mat34) :
  det44 H <> 0 ->
  transform inv_singular H Xprj cams_pr =
    Ok (map (fun X => div4 (mv44 H X) (w4 (mv44 H X))) Xprj,
        map (fun cam => mul34_44 cam (div44 (adj44 H) (det44 H))) cams_pr).
Proof.
  intros Hd. unfold transform.
  rewrite (mapM_total _ (fun cam => mul34_44 cam (div44 (adj44 H) (det44 H))))
    by (intros cam; rewrite (linalg_inv_nonsingular inv_singular H Hd); reflexivity).
  rewrite map_map. reflexivity.
Qed.

(** X6.  Upgrading by [H] and then by the inverse [G] of [H] gives back the
    cameras and, when they have scale 1, the points. *)
Theorem transform_round_trip
  (inv_singular : mat44 -> option mat44)
  (H G : mat44) (Xprj : list vec4) (cams_pr : list mat34) :
  det44 H <> 0 ->
  det44 G <> 0 ->
  mul44 G H = I44 ->
  Forall (fun X => w4 X = 1 /\ w4 (mv44 H X) <> 0) Xprj ->
  exists Xaff cams_aff,
    transform inv_singular H Xprj cams_pr = Ok (Xaff, cams_aff) /\
    transform inv_singular G Xaff cams_aff = Ok (Xprj, cams_pr).
Proof.
  intros HdH HdG E HX.
  do 2 eexists. split; [apply transform_nonsingular; exact HdH|].
  rewrite (transform_nonsingular inv_singular G _ _ HdG), !map_map.
  rewrite (linalg_inv_of_left_inverse G H HdG E).
  f_equal. f_equal.
  - rewrite <- (map_id Xprj) at 2. apply map_ext_in. intros X HIn.
    rewrite Forall_forall in HX. destruct (HX X HIn) as (Hw1 & Hw).
    rewrite mv44_div4, <- mv44_mul44, E, mv44_I44.
    destruct X as [x y z w]. simpl in Hw1. subst w.
    set (k := w4 (mv44 H (V4 x y z 1))) in *.
    unfold div4; simpl. apply vec4_eq; field; exact Hw.
  - rewrite <- (map_id cams_pr) at 2. apply map_ext. intros P.
    rewrite mul34_44_assoc, (linalg_inv_left H HdH). apply mul34_44_I44.
Qed.

(** The inverse of [H_example]. *)
Definition G_example : mat44 :=
  M44 (V4 (1 / 2) 0 0 0) (V4 0 1 0 0) (V4 0 0 1 0) (V4 0 0 (-1) 1).

Lemma transform_round_trip_witness :
  exists Xaff cams_aff,
    transform inv_raises H_example [X_example] [P_canonical] = Ok (Xaff, cams_aff) /\
    transform inv_raises G_example Xaff cams_aff = Ok ([X_example], [P_canonical]).
Proof.
  apply (transform_round_trip inv_raises H_example G_example [X_example] [P_canonical]).
  - unfold det44, cofactor44, minor44, det3, ent44, ent4, skip, H_example.
    cbn [m44_0 m44_1 m44_2 m44_3 x4 y4 z4 w4 Nat.ltb Nat.leb Nat.even Nat.add]. lra.
  - unfold det44, cofactor44, minor44, det3, ent44, ent4, skip, G_example.
    cbn [m44_0 m44_1 m44_2 m44_3 x4 y4 z4 w4 Nat.ltb Nat.leb Nat.even Nat.add]. lra.
  - unfold mul44, G_example, H_example, I44, vm44, dot4,
      col44_0, col44_1, col44_2, col44_3; simpl.
    apply mat44_eq; apply vec4_eq; lra.
  - repeat constructor; unfold X_example, H_example, mv44, dot4; simpl; lra.
Defined.

(** X7.  For a nonsingular [H], the reprojection error of two cameras is
    the same after the upgrade as before it, provided no point is sent to
    scale 0 by [H] or by either camera. *)
Theorem transform_preserves_reproj_error
  (inv_singular : mat44 -> option mat44)
  (H : mat44) (Xprj : list vec4) (P1 P2 : mat34) (xr1 xr2 : list vec2) :
  det44 H <> 0 ->
  Forall (fun X => w4 (mv44 H X) <> 0 /\ z3 (mv34 P1 X) <> 0 /\ z3 (mv34 P2 X) <> 0) Xprj ->
  exists Xaff P1' P2',
    transform inv_singular H Xprj [P1; P2] = Ok (Xaff, [P1'; P2']) /\
    compute_reproj_error Xaff P1' P2' xr1 xr2 = compute_reproj_error Xprj P1 P2 xr1 xr2.
Proof.
  intros Hd HX.
  set (Hinv := div44 (adj44 H) (det44 H)).
  exists (map (fun X => div4 (mv44 H X) (w4 (mv44 H X))) Xprj),
    (mul34_44 P1 Hinv), (mul34_44 P2 Hinv).
  split; [rewrite (transform_nonsingular inv_singular H _ _ Hd); reflexivity|].
  assert (K : forall (P : mat34) X, w4 (mv44 H X) <> 0 -> z3 (mv34 P X) <> 0 ->
              euclid (mv34 (mul34_44 P Hinv) (div4 (mv44 H X) (w4 (mv44 H X)))) =
              euclid (mv34 P X)).
  { intros P X Hw Hz.
    rewrite mv34_mul34_44, mv44_div4, <- mv44_mul44.
    unfold Hinv. rewrite (linalg_inv_left H Hd), mv44_I44, mv34_div4.
    apply euclid_scale3; [apply Rinv_neq_0_compat; exact Hw|exact Hz]. }
  unfold compute_reproj_error. rewrite !map_map.
  rewrite Forall_forall in HX.
  rewrite (map_ext_in _ (fun X => euclid (mv34 P1 X)))
    by (intros X HIn; destruct (HX X HIn) as (? & ? & ?); apply K; assumption).
  rewrite (map_ext_in (fun X => euclid (mv34 (mul34_44 P2 Hinv) _))
                      (fun X => euclid (mv34 P2 X)))
    by (intros X HIn; destruct (HX X HIn) as (? & ? & ?); apply K; assumption).
  reflexivity.
Qed.

Lemma transform_preserves_reproj_error_witness :
  exists Xaff P1' P2',
    transform inv_raises H_example [V4 1 2 4 1] [P_canonical; P_canonical] =
      Ok (Xaff, [P1'; P2']) /\
    compute_reproj_error Xaff P1' P2' [V2 0 0] [V2 1 1] =
      compute_reproj_error [V4 1 2 4 1] P_canonical P_canonical [V2 0 0] [V2 1 1].
Proof.
  apply (transform_preserves_reproj_error inv_raises H_example [V4 1 2 4 1]
           P_canonical P_canonical).
  - unfold det44, cofactor44, minor44, det3, ent44, ent4, skip, H_example.
    cbn [m44_0 m44_1 m44_2 m44_3 x4 y4 z4 w4 Nat.ltb Nat.leb Nat.even Nat.add]. lra.
  - repeat constructor; unfold H_example, P_canonical, mv44, mv34, dot4; simpl; lra.
Defined.

(** ** [camera_matrix]: too few rows, and the sign of the singular vector *)



Lemma reshape34_scale (c : R) (p : list R) :
  reshape34 (map (Rmult c) p) = scale34 c (reshape34 p).
Proof.
  unfold reshape34, scale34, scale4; simpl.
  assert (N : forall k, nth k (map (Rmult c) p) 0 = c * nth k p 0).
  { intros k. rewrite <- (Rmult_0_r c) at 1. apply map_nth. }
  rewrite !N. reflexivity.
Qed.

Lemma mul33_34_scale34 (A : mat33) (c : R) (B : mat34) :
  mul33_34 A (scale34 c B) = scale34 c (mul33_34 A B).
Proof.
  destruct A as [[? ? ?] [? ? ?] [? ? ?]], B as [[? ? ? ?] [? ? ? ?] [? ? ? ?]].
  unfold mul33_34, scale34, scale4, vm34, dot3, col34_0, col34_1, col34_2, col34_3; simpl.
  apply mat34_eq; apply vec4_eq; ring.
Qed.

Lemma mul34_44_scale34 (c : R) (B : mat34) (C : mat44) :
  mul34_44 (scale34 c B) C = scale34 c (mul34_44 B C).
Proof.
  destruct B as [[? ? ? ?] [? ? ? ?] [? ? ? ?]],
    C as [[? ? ? ?] [? ? ? ?] [? ? ? ?] [? ? ? ?]].
  unfold mul34_44, scale34, scale4, vm44, dot4, col44_0, col44_1, col44_2, col44_3; simpl.
  apply mat34_eq; apply vec4_eq; ring.
Qed.

Lemma denormalized_scale (T1 : mat44) (T2 : mat33) (c : R) (p : list R) :
  denormalized T1 T2 (map (Rmult c) p) = scale34 c (denormalized T1 T2 p).
Proof.
  unfold denormalized.
  rewrite reshape34_scale, mul33_34_scale34, mul34_44_scale34. reflexivity.
Qed.

Lemma div34_scale34 (c : R) (M : mat34) :
  c <> 0 -> w4 (m34_2 M) <> 0 ->
  div34 (scale34 c M) (w4 (m34_2 (scale34 c M))) = div34 M (w4 (m34_2 M)).
Proof.
  intros Hc Hm. destruct M as [[] [] [a b c0 d]]. simpl in Hm.
  unfold div34, scale34, scale4, div4; simpl.
  apply mat34_eq; apply vec4_eq; field; auto.
Qed.

(** X9.  The result of [camera_matrix] does not depend on the sign or the
    length of the singular vector that [svd] returns: two [svd]s whose last
    rows of [vh] differ by a nonzero factor give the same camera matrix,
    when the entry that line 135 divides by is not 0. *)
Theorem camera_matrix_singular_vector_scale
  (svd1 svd2 : list (list R) -> list (list R)) (c : R)
  (pts3d : list vec4) (pts2d : list vec3) :
  c <> 0 ->
  (forall A, last (svd2 A) [] = map (Rmult c) (last (svd1 A) [])) ->
  (forall A,
     w4 (m34_2 (denormalized (snd (normalize3dpts pts3d)) (snd (normalize2dpts pts2d))
                  (last (svd1 A) []))) <> 0) ->
  camera_matrix svd2 pts3d pts2d = camera_matrix svd1 pts3d pts2d.
Proof.
  intros Hc Hs Hm. rewrite !camera_matrix_unfold.
  destruct (dlt_matrix _ _) as [A|e]; cbn [bind]; [|reflexivity].
  unfold linalg_svd.
  destruct (Req_dec_T _ 0); [reflexivity|].
  destruct (Req_dec_T _ 0); [reflexivity|]. cbn [bind].
  rewrite Hs, denormalized_scale. f_equal. apply div34_scale34; [exact Hc|apply Hm].
Qed.

Lemma camera_matrix_singular_vector_scale_witness :
  camera_matrix (fun A => map (map (Rmult (-1))) (vh_identity A)) pts3d_seven pts2d_seven =
  camera_matrix vh_identity pts3d_seven pts2d_seven.
Proof.
  apply (camera_matrix_singular_vector_scale vh_identity
           (fun A => map (map (Rmult (-1))) (vh_identity A)) (-1)).
  - lra.
  - intros A. reflexivity.
  - intros A. rewrite denormalized_vh_identity; [lra|reflexivity|reflexivity].
Defined.

(** ** The RANSAC loop: what it keeps, when it stops early *)

Lemma where_lt_sorted d t : forall i, StronglySorted lt (where_lt d t i).
Proof.
  induction d as [|x d IH]; intros i; simpl; [constructor|].
  destruct (Rlt_dec x t); [|apply IH].
  constructor; [apply IH|].
  eapply Forall_impl; [|apply (where_lt_bound d t (S i))]. simpl. intros; lia.
Qed.

Lemma where_lt_In d t : forall i k,
  In k (where_lt d t i) <-> exists x, (i <= k)%nat /\ nth_error d (k - i) = Some x /\ x < t.
Proof.
  induction d as [|x d IH]; intros i k; simpl.
  - split; [contradiction|]. intros (x & _ & E & _). destruct (k - i)%nat; discriminate.
  - assert (Hrest : In k (where_lt d t (S i)) <->
                    exists y, (S i <= k)%nat /\ nth_error (x :: d) (k - i) = Some y /\ y < t).
    { rewrite IH. split; intros (y & Hk & E & Hy); exists y; (split; [exact Hk|]);
        (split; [|exact Hy]).
      - replace (k - i)%nat with (S (k - S i)) by lia. exact E.
      - replace (k - i)%nat with (S (k - S i)) in E by lia. exact E. }
    destruct (Rlt_dec x t) as [Hx|Hx]; simpl; rewrite Hrest.
    + split.
      * intros [<-|(y & Hk & E & Hy)].
        -- exists x. rewrite Nat.sub_diag. simpl. auto.
        -- exists y. split; [lia|auto].
      * intros (y & Hk & E & Hy).
        destruct (Nat.eq_dec i k) as [->|Hne]; [left; reflexivity|].
        right. exists y. split; [lia|auto].
    + split.
      * intros (y & Hk & E & Hy). exists y. split; [lia|auto].
      * intros (y & Hk & E & Hy).
        destruct (Nat.eq_dec i k) as [->|Hne].
        -- rewrite Nat.sub_diag in E. simpl in E. injection E as ->. contradiction.
        -- exists y. split; [lia|auto].
Qed.

(** The indices that [np.where] keeps for one fitted camera [P]: those of
    the correspondences whose reprojection distance is below the
    threshold. *)
Definition inliers_of (pts3d : list vec4) (pts2d : list vec3) (P : mat34) (best : list nat)
  : Prop :=
  forall k, In k best <->
    exists X x, nth_error pts3d k = Some X /\ nth_error pts2d k = Some x /\
                reproj_dist P X x < th.

Lemma where_lt_inliers_of pts3d pts2d P :
  inliers_of pts3d pts2d P
    (where_lt (map (fun c => reproj_dist P (fst c) (snd c)) (combine pts3d pts2d)) th 0).
Proof.
  intros k. rewrite where_lt_In, Nat.sub_0_r. split.
  - intros (d & _ & E & Hd).
    rewrite nth_error_map in E.
    destruct (nth_error (combine pts3d pts2d) k) as [[X x]|] eqn:C; [|discriminate].
    injection E as <-. simpl in Hd.
    exists X, x. split; [|split; [|exact Hd]].
    + revert k pts2d C. induction pts3d as [|a l IH]; intros [|k] [|b m] C;
        simpl in *; try discriminate; [congruence|eauto].
    + revert k pts3d C. induction pts2d as [|b m IH]; intros [|k] [|a l] C;
        simpl in *; try discriminate; [congruence|eauto].
  - intros (X & x & E3 & E2 & Hd). exists (reproj_dist P X x).
    split; [lia|]. split; [|exact Hd].
    rewrite nth_error_map.
    assert (C : nth_error (combine pts3d pts2d) k = Some (X, x)).
    { revert k pts2d E3 E2. induction pts3d as [|a l IH]; intros [|k] [|b m] E3 E2;
        simpl in *; try discriminate; [congruence|eauto]. }
    rewrite C. reflexivity.
Qed.

Section LoopInvariant.

Variable svd_vh : list (list R) -> list (list R).
Variable sample : nat -> list nat.
Variable pts3d : list vec4.
Variable pts2d : list vec3.

Let step := ransac_step svd_vh sample pts3d pts2d.

(** What every state of the loop satisfies. *)
Definition best_inliers_ok (st : ransac_state) : Prop :=
  StronglySorted lt (best_inliers st) /\
  (best_inliers st = [] \/ exists P, inliers_of pts3d pts2d P (best_inliers st)).

Lemma ransac_step_best_ok st st' :
  best_inliers_ok st -> step st = Ok st' -> best_inliers_ok st'.
Proof.
  unfold step, ransac_step, best_inliers_ok. intros Hst H.
  apply bind_Ok in H as (points & _ & H).
  apply bind_Ok in H as (X6 & _ & H).
  apply bind_Ok in H as (x6 & _ & H).
  apply bind_Ok in H as (P & _ & H).
  injection H as <-. cbn [best_inliers].
  match goal with |- context [if ?c then _ else _] => destruct c end; [|exact Hst].
  split; [apply where_lt_sorted|]. right. exists P. apply where_lt_inliers_of.
Qed.

Lemma iterates_best_ok k st st' :
  iterates step k st st' -> best_inliers_ok st -> best_inliers_ok st'.
Proof.
  induction 1 as [|k st st1 st2 _ Hstep _ IH]; [auto|].
  intros Hst. apply IH. eapply ransac_step_best_ok; eauto.
Qed.

End LoopInvariant.

(** X10.  In every state that the RANSAC loop reaches, the best inlier set
    is a strictly increasing list of row indices (so it names no
    correspondence twice), it has never shrunk, and it is either empty or
    exactly the set of correspondences that lie within the threshold of one
    camera matrix. *)
Theorem ransac_best_inliers_invariant
  (svd_vh : list (list R) -> list (list R)) (sample : nat -> list nat)
  (pts3d : list vec4) (pts2d : list vec3) (j k : nat) (st st' : ransac_state) :
  let step := ransac_step svd_vh sample pts3d pts2d in
  iterates step j ransac_init st ->
  iterates step k st st' ->
  StronglySorted lt (best_inliers st') /\
  NoDup (best_inliers st') /\
  (length (best_inliers st) <= length (best_inliers st'))%nat /\
  (best_inliers st' = [] \/ exists P, inliers_of pts3d pts2d P (best_inliers st')).
Proof.
  intros step H0 H1.
  assert (Hok : best_inliers_ok pts3d pts2d st').
  { apply (iterates_best_ok svd_vh sample pts3d pts2d _ _ _ H1).
    apply (iterates_best_ok svd_vh sample pts3d pts2d _ _ _ H0).
    split; [constructor|left; reflexivity]. }
  destruct Hok as (Hs & Hin).
  split; [exact Hs|]. split.
  - clear -Hs. induction Hs as [|a l Hs IH Ha]; constructor; [|exact IH].
    intros Hin. rewrite Forall_forall in Ha. specialize (Ha _ Hin). lia.
  - split; [|exact Hin].
    destruct (iterates_budget _ _ _ _ _ _ _ H1) as (_ & _ & Hl). exact Hl.
Qed.

Lemma ransac_best_inliers_invariant_witness :
  let pts3d := map pt tracks_six in
  let pts2d := map (fun p => V3 (x2 p) (y2 p) 1) obs_six in
  let step := ransac_step vh_identity sample_all_six pts3d pts2d in
  exists k st,
    iterates step k ransac_init st /\
    StronglySorted lt (best_inliers st) /\
    NoDup (best_inliers st) /\
    (length (best_inliers ransac_init) <= length (best_inliers st))%nat /\
    (best_inliers st = [] \/ exists P, inliers_of pts3d pts2d P (best_inliers st)).
Proof.
  intros pts3d pts2d step.
  destruct (ransac_loop_stops vh_identity sample_all_six pts3d pts2d 1000 ransac_init)
    as ([st|e] & _ & Hout); simpl; try lra; try lia.
  - destruct Hout as (k & Hit & _).
    exists k, st. split; [exact Hit|].
    exact (ransac_best_inliers_invariant vh_identity sample_all_six pts3d pts2d
             0 k ransac_init st (iterates_here _ _) Hit).
  - destruct Hout as (k & st & Hit & _).
    exists k, st. split; [exact Hit|].
    exact (ransac_best_inliers_invariant vh_identity sample_all_six pts3d pts2d
             0 k ransac_init st (iterates_here _ _) Hit).
Defined.


(** X11.  An iteration after which every correspondence is an inlier is
    the last one: the budget drops below 1 and the loop condition is false
    at the next test. *)
Theorem ransac_stops_when_all_inliers
  (svd_vh : list (list R) -> list (list R)) (sample : nat -> list nat)
  (pts3d : list vec4) (pts2d : list vec3) (fuel : nat) (st st' : ransac_state) :
  ransac_step svd_vh sample pts3d pts2d st = Ok st' ->
  length (best_inliers st') = length pts3d ->
  max_it st' < 1 /\
  ransac_loop svd_vh sample pts3d pts2d fuel st' = Some (Ok st').
Proof.
  intros Hstep Hall.
  destruct (ransac_step_update _ _ _ _ _ _ Hstep) as (Hit & Hmin & _ & _).
  assert (Hn : (0 < length pts3d)%nat).
  { unfold ransac_step, random_choice in Hstep.
    destruct (Nat.ltb_spec (length pts3d) 6); [discriminate|lia]. }
  assert (Hb : max_it st' < 1).
  { rewrite Hmin, Hall. eapply Rle_lt_trans; [apply Rmin_r|].
    apply budget_all_inliers. exact Hn. }
  split; [exact Hb|].
  assert (Hc : ~ INR (it st') < max_it st').
  { rewrite Hit, S_INR. pose proof (pos_INR (it st)). lra. }
  destruct fuel; simpl; destruct (Rlt_dec (INR (it st')) (max_it st'));
    try contradiction; reflexivity.
Qed.

(** X12.  The estimate of line 97 does not grow with the number of inliers:
    a larger best inlier set gives a budget that is at most as large. *)
Theorem budget_antitone (n n1 n2 : nat) :
  (0 < n)%nat -> (n1 <= n2)%nat -> budget n2 n <= budget n1 n.
Proof.
  intros Hn H12.
  pose proof eps_pos as He.
  pose proof (pNoOutliers_clamped n1 n) as C1.
  pose proof (pNoOutliers_clamped n2 n) as C2.
  assert (Hp : pNoOutliers n2 n <= pNoOutliers n1 n).
  { unfold pNoOutliers.
    assert (HN : 0 < INR n) by (apply lt_0_INR; exact Hn).
    assert (Hf : INR n1 / INR n <= INR n2 / INR n).
    { apply Rmult_le_compat_r; [left; apply Rinv_0_lt_compat; exact HN|apply le_INR; exact H12]. }
    assert (H0 : 0 <= INR n1 / INR n).
    { apply Rmult_le_pos; [apply pos_INR|left; apply Rinv_0_lt_compat; exact HN]. }
    pose proof (pow_incr _ _ 6 (conj H0 Hf)) as Hpow.
    apply Rle_min_compat_l. apply Rle_max_compat_l. lra. }
  assert (Hl : ln (pNoOutliers n2 n) <= ln (pNoOutliers n1 n)).
  { destruct Hp as [Hlt|Heq]; [left; apply ln_increasing; lra|rewrite Heq; lra]. }
  pose proof (ln_pNoOutliers_neg n1 n) as N1.
  pose proof (ln_pNoOutliers_neg n2 n) as N2.
  assert (H1 : ln (1 - p_conf) < 0).
  { rewrite <- ln_1. apply ln_increasing; unfold p_conf; lra. }
  unfold budget.
  apply (Rmult_le_reg_r (ln (pNoOutliers n1 n) * ln (pNoOutliers n2 n)));
    [nra|].
  replace (ln (1 - p_conf) / ln (pNoOutliers n2 n) *
           (ln (pNoOutliers n1 n) * ln (pNoOutliers n2 n)))
    with (ln (1 - p_conf) * ln (pNoOutliers n1 n)) by (field; lra).
  replace (ln (1 - p_conf) / ln (pNoOutliers n1 n) *
           (ln (pNoOutliers n1 n) * ln (pNoOutliers n2 n)))
    with (ln (1 - p_conf) * ln (pNoOutliers n2 n)) by (field; lra).
  nra.
Qed.

Lemma budget_antitone_witness : budget 6 6 <= budget 3 6.
Proof. apply (budget_antitone 6 3 6); lia. Defined.


Lemma ransac_stops_when_all_inliers_witness :
  ransac_step svd_plane sample_all_six pts3d_plane pts2d_plane ransac_init = Ok st_plane /\
  best_inliers st_plane = seq 0 6 /\
  max_it st_plane < 1 /\
  ransac_loop svd_plane sample_all_six pts3d_plane pts2d_plane 1000 st_plane =
    Some (Ok st_plane).
Proof.
  split; [exact ransac_step_plane|]. split; [reflexivity|].
  apply (ransac_stops_when_all_inliers svd_plane sample_all_six pts3d_plane pts2d_plane
           1000 ransac_init st_plane ransac_step_plane).
  reflexivity.
Defined.

(** ** [resection] as a whole *)

Lemma resection_finish_cases svd_vh pts3d pts2d st :
  length pts2d = length pts3d ->
  inliers_in_range pts3d st ->
  resection_finish svd_vh pts3d pts2d st = Raise (ValueError msg_inliers) \/
  resection_finish svd_vh pts3d pts2d st = Raise (LinAlgError msg_svd) \/
  exists P, resection_finish svd_vh pts3d pts2d st = Ok P.
Proof.
  intros L Hr. unfold resection_finish.
  destruct (Nat.ltb_spec (length (best_inliers st)) 6) as [Hlt|Hge]; [left; reflexivity|].
  right.
  destruct (take_rows_ok pts3d (best_inliers st) Hr) as (X & EX & LX).
  destruct (take_rows_ok pts2d (best_inliers st)) as (x & Ex & Lx);
    [rewrite L; exact Hr|].
  rewrite EX, Ex. cbn [bind].
  destruct (camera_matrix_outcomes svd_vh X x) as [HP|HE]; [lia|lia|right; exact HP|left; exact HE].
Qed.

(** X13.  With at least 6 usable tracks and a sampler that draws six row
    indices, [resection] ends within 1000 iterations, and it ends with a
    camera matrix, with the error of line 102, or with the failure of
    [svd] on six or more rows normalized by a zero deviation: no other
    exception leaves it, and unrolling the loop further changes nothing. *)
Theorem resection_returns
  (svd_vh : list (list R) -> list (list R)) (sample : nat -> list nat)
  (fuel : nat) (tracks : list track) (i : Z) :
  (6 <= usable tracks i)%nat ->
  (forall k, valid_sample (usable tracks i) (sample k)) ->
  (1000 <= fuel)%nat ->
  resection svd_vh sample fuel tracks i = resection svd_vh sample 1000 tracks i /\
  (resection svd_vh sample fuel tracks i = Some (Raise (ValueError msg_inliers)) \/
   resection svd_vh sample fuel tracks i = Some (Raise (LinAlgError msg_svd)) \/
   exists P, resection svd_vh sample fuel tracks i = Some (Ok P)).
Proof.
  unfold usable, resection. intros Hn Hs Hf.
  pose proof (gather_lengths tracks i) as L.
  destruct (gather tracks i) as [pts3d obs]. cbn [fst snd] in *.
  destruct obs as [|o obs]; [simpl in L; lia|].
  cbn [homog].
  set (pts2d := map (fun p => V3 (x2 p) (y2 p) 1) (o :: obs)).
  assert (L2 : length pts2d = length pts3d) by (unfold pts2d; rewrite length_map; lia).
  assert (Hmore : forall r, ransac_loop svd_vh sample pts3d pts2d 1000 ransac_init = Some r ->
                            ransac_loop svd_vh sample pts3d pts2d fuel ransac_init = Some r).
  { intros r Hr. replace fuel with (1000 + (fuel - 1000))%nat by lia.
    apply ransac_loop_more_fuel. exact Hr. }
  destruct (ransac_loop_total svd_vh sample pts3d pts2d L2 Hn Hs) as [(st & Hst)|Hst];
    rewrite (Hmore _ Hst), Hst.
  - split; [reflexivity|].
    assert (Hr : inliers_in_range pts3d st).
    { destruct (ransac_loop_outcome _ _ _ _ _ _ Hst) as (k & Hit & _).
      apply (iterates_in_range svd_vh sample pts3d pts2d L2 _ _ _ Hit). constructor. }
    destruct (resection_finish_cases svd_vh pts3d pts2d st L2 Hr) as [E|[E|(P & E)]];
      rewrite E; [left; reflexivity|right; left; reflexivity|right; right; eexists; reflexivity].
  - split; [reflexivity|]. right; left; reflexivity.
Qed.

Lemma usable_tracks_plane : usable tracks_plane 0 = 6%nat.
Proof. unfold usable. rewrite gather_tracks_plane. reflexivity. Qed.

Lemma resection_returns_witness :
  resection svd_plane sample_all_six 2000 tracks_plane 0 =
    resection svd_plane sample_all_six 1000 tracks_plane 0 /\
  (resection svd_plane sample_all_six 2000 tracks_plane 0 =
     Some (Raise (ValueError msg_inliers)) \/
   resection svd_plane sample_all_six 2000 tracks_plane 0 =
     Some (Raise (LinAlgError msg_svd)) \/
   exists P, resection svd_plane sample_all_six 2000 tracks_plane 0 = Some (Ok P)).
Proof.
  apply (resection_returns svd_plane sample_all_six 2000 tracks_plane 0).
  - rewrite usable_tracks_plane. lia.
  - intros k. rewrite usable_tracks_plane. split; [reflexivity|].
    apply Forall_forall. intros j Hj. apply in_seq in Hj. lia.
  - lia.
Defined.

(** ** The correspondences gathered from the tracks *)

(** X14.  The correspondences that [resection] gathers are, in the order of
    the tracks, the 3D point and the observation in view [i] of every track
    that has a point of nonzero scale and an observation in that view, and
    of no other track. *)
Theorem gather_usable_tracks (tracks : list track) (i : Z) :
  combine (fst (gather tracks i)) (snd (gather tracks i)) =
    flat_map (fun tk =>
                match views_get (views tk) i with
                | Some x => if Req_dec_T (w4 (pt tk)) 0 then [] else [(pt tk, x)]
                | None => []
                end) tracks /\
  length (fst (gather tracks i)) = length (snd (gather tracks i)) /\
  (length (fst (gather tracks i)) <= length tracks)%nat /\
  Forall (fun X => w4 X <> 0) (fst (gather tracks i)).
Proof.
  induction tracks as [|tk tracks (IH1 & IH2 & IH3 & IH4)]; simpl.
  - repeat split; try constructor.
  - destruct (gather tracks i) as [pts3d pts2d]. cbn [fst snd] in *.
    destruct (Req_dec_T (w4 (pt tk)) 0) as [Hz|Hnz].
    + destruct (views_get (views tk) i); cbn [fst snd app];
        (split; [exact IH1|split; [exact IH2|split; [lia|exact IH4]]]).
    + destruct (views_get (views tk) i); cbn [fst snd app combine length].
      * split; [rewrite IH1; reflexivity|]. split; [lia|]. split; [lia|].
        constructor; assumption.
      * split; [exact IH1|split; [exact IH2|split; [lia|exact IH4]]].
Qed.


(** ** Camera factorization: recovering the factors *)

(** The rows of an orthogonal matrix are orthonormal. *)
Lemma orthogonal_rows (R : mat33) :
  orthogonal R ->
  dot3 (m33_0 R) (m33_0 R) = 1 /\ dot3 (m33_1 R) (m33_1 R) = 1 /\
  dot3 (m33_2 R) (m33_2 R) = 1 /\ dot3 (m33_0 R) (m33_1 R) = 0 /\
  dot3 (m33_0 R) (m33_2 R) = 0 /\ dot3 (m33_1 R) (m33_2 R) = 0.
Proof.
  intros [H _]. destruct R as [[a b c] [d e f] [g h k]].
  unfold mul33, T33, vm33, dot3, col33_0, col33_1, col33_2, I33 in *; simpl in *.
  injection H as H00 H01 H02 H10 H11 H12 H20 H21 H22.
  repeat split; lra.
Qed.

(** Two factorizations of proportional matrices into an upper triangular
    factor of positive diagonal and last diagonal entry 1 and a rotation
    are the same factorization. *)
Lemma KR_unique (K K' Ro Ro' : mat33) (c : R) :
  upper_triangular K -> upper_triangular K' ->
  0 < x3 (m33_0 K) -> 0 < y3 (m33_1 K) -> z3 (m33_2 K) = 1 ->
  0 < x3 (m33_0 K') -> 0 < y3 (m33_1 K') -> z3 (m33_2 K') = 1 ->
  orthogonal Ro -> orthogonal Ro' -> det33 Ro = 1 -> det33 Ro' = 1 ->
  mul33 K' Ro' = scale33 c (mul33 K Ro) ->
  c = 1 /\ K' = K /\ Ro' = Ro.
Proof.
  intros HK HK' Ha Hd Hk Ha' Hd' Hk' HR HR' HdR HdR' E.
  destruct (orthogonal_rows Ro HR) as (N0 & N1 & N2 & O01 & O02 & O12).
  destruct (orthogonal_rows Ro' HR') as (N0' & N1' & N2' & O01' & O02' & O12').
  destruct K as [[a b c0] [z1 d e] [z2 z3 k]], K' as [[a' b' c0'] [z1' d' e'] [z2' z3' k']].
  unfold upper_triangular in HK, HK'; simpl in *.
  destruct HK as (-> & -> & ->), HK' as (-> & -> & ->). subst k k'.
  destruct Ro as [[r00 r01 r02] [r10 r11 r12] [r20 r21 r22]],
           Ro' as [[s00 s01 s02] [s10 s11 s12] [s20 s21 s22]].
  unfold mul33, scale33, scale3, vm33, dot3, det33, cross, col33_0, col33_1, col33_2 in *;
    simpl in *.
  injection E as E00 E01 E02 E10 E11 E12 E20 E21 E22.
  assert (S20 : s20 = c * r20) by lra.
  assert (S21 : s21 = c * r21) by lra.
  assert (S22 : s22 = c * r22) by lra.
  clear E20 E21 E22.
  assert (F10 : d' * s10 + e' * s20 = c * (d * r10 + e * r20)) by lra.
  assert (F11 : d' * s11 + e' * s21 = c * (d * r11 + e * r21)) by lra.
  assert (F12 : d' * s12 + e' * s22 = c * (d * r12 + e * r22)) by lra.
  assert (F00 : a' * s00 + b' * s10 + c0' * s20 = c * (a * r00 + b * r10 + c0 * r20)) by lra.
  assert (F01 : a' * s01 + b' * s11 + c0' * s21 = c * (a * r01 + b * r11 + c0 * r21)) by lra.
  assert (F02 : a' * s02 + b' * s12 + c0' * s22 = c * (a * r02 + b * r12 + c0 * r22)) by lra.
  clear E00 E01 E02 E10 E11 E12.
  assert (Hc2 : c * c = 1).
  { clear -N2 N2' S20 S21 S22. subst s20 s21 s22.
    replace (c * r20 * (c * r20) + c * r21 * (c * r21) + c * r22 * (c * r22))
      with (c * c * (r20 * r20 + r21 * r21 + r22 * r22)) in N2' by ring.
    rewrite N2 in N2'. lra. }
  assert (He : e' = e).
  { clear -F10 F11 F12 N2' O12' N2 O12 S20 S21 S22 Hc2.
    assert (H1 : (d' * s10 + e' * s20) * s20 + (d' * s11 + e' * s21) * s21 +
                 (d' * s12 + e' * s22) * s22 =
                 d' * (s10 * s20 + s11 * s21 + s12 * s22) +
                 e' * (s20 * s20 + s21 * s21 + s22 * s22)) by ring.
    rewrite O12', N2', F10, F11, F12 in H1. subst s20 s21 s22.
    assert (H2 : c * (d * r10 + e * r20) * (c * r20) + c * (d * r11 + e * r21) * (c * r21) +
                 c * (d * r12 + e * r22) * (c * r22) =
                 c * c * (d * (r10 * r20 + r11 * r21 + r12 * r22) +
                          e * (r20 * r20 + r21 * r21 + r22 * r22))) by ring.
    rewrite O12, N2, Hc2 in H2. lra. }
  subst e'.
  assert (S10 : d' * s10 = c * d * r10) by (rewrite S20 in F10; lra).
  assert (S11 : d' * s11 = c * d * r11) by (rewrite S21 in F11; lra).
  assert (S12 : d' * s12 = c * d * r12) by (rewrite S22 in F12; lra).
  clear F10 F11 F12.
  assert (Hd2 : d' * d' = d * d).
  { clear -S10 S11 S12 N1 N1' Hc2.
    assert (H1 : d' * s10 * (d' * s10) + d' * s11 * (d' * s11) + d' * s12 * (d' * s12) =
                 d' * d' * (s10 * s10 + s11 * s11 + s12 * s12)) by ring.
    rewrite N1', S10, S11, S12 in H1.
    assert (H2 : c * d * r10 * (c * d * r10) + c * d * r11 * (c * d * r11) +
                 c * d * r12 * (c * d * r12) =
                 c * c * (d * d) * (r10 * r10 + r11 * r11 + r12 * r12)) by ring.
    rewrite N1, Hc2 in H2. lra. }
  assert (Hdd : d' = d) by (clear -Hd2 Hd Hd'; nra). subst d'.
  assert (T10 : s10 = c * r10) by (clear -S10 Hd; nra).
  assert (T11 : s11 = c * r11) by (clear -S11 Hd; nra).
  assert (T12 : s12 = c * r12) by (clear -S12 Hd; nra).
  clear S10 S11 S12.
  assert (Hc0 : c0' = c0).
  { clear -F00 F01 F02 N2' O02' O12' N2 O02 O12 S20 S21 S22 Hc2.
    assert (H1 : (a' * s00 + b' * s10 + c0' * s20) * s20 +
                 (a' * s01 + b' * s11 + c0' * s21) * s21 +
                 (a' * s02 + b' * s12 + c0' * s22) * s22 =
                 a' * (s00 * s20 + s01 * s21 + s02 * s22) +
                 b' * (s10 * s20 + s11 * s21 + s12 * s22) +
                 c0' * (s20 * s20 + s21 * s21 + s22 * s22)) by ring.
    rewrite O02', O12', N2', F00, F01, F02 in H1. subst s20 s21 s22.
    assert (H2 : c * (a * r00 + b * r10 + c0 * r20) * (c * r20) +
                 c * (a * r01 + b * r11 + c0 * r21) * (c * r21) +
                 c * (a * r02 + b * r12 + c0 * r22) * (c * r22) =
                 c * c * (a * (r00 * r20 + r01 * r21 + r02 * r22) +
                          b * (r10 * r20 + r11 * r21 + r12 * r22) +
                          c0 * (r20 * r20 + r21 * r21 + r22 * r22))) by ring.
    rewrite O02, O12, N2, Hc2 in H2. lra. }
  assert (Hb : b' = b).
  { clear -F00 F01 F02 N1' O01' O12' N1 O01 O12 T10 T11 T12 Hc2.
    assert (H1 : (a' * s00 + b' * s10 + c0' * s20) * s10 +
                 (a' * s01 + b' * s11 + c0' * s21) * s11 +
                 (a' * s02 + b' * s12 + c0' * s22) * s12 =
                 a' * (s00 * s10 + s01 * s11 + s02 * s12) +
                 b' * (s10 * s10 + s11 * s11 + s12 * s12) +
                 c0' * (s10 * s20 + s11 * s21 + s12 * s22)) by ring.
    rewrite O01', O12', N1', F00, F01, F02 in H1. subst s10 s11 s12.
    assert (H2 : c * (a * r00 + b * r10 + c0 * r20) * (c * r10) +
                 c * (a * r01 + b * r11 + c0 * r21) * (c * r11) +
                 c * (a * r02 + b * r12 + c0 * r22) * (c * r12) =
                 c * c * (a * (r00 * r10 + r01 * r11 + r02 * r12) +
                          b * (r10 * r10 + r11 * r11 + r12 * r12) +
                          c0 * (r10 * r20 + r11 * r21 + r12 * r22))) by ring.
    rewrite O01, O12, N1, Hc2 in H2. lra. }
  subst c0' b'.
  assert (S00 : a' * s00 = c * a * r00) by (rewrite T10, S20 in F00; lra).
  assert (S01 : a' * s01 = c * a * r01) by (rewrite T11, S21 in F01; lra).
  assert (S02 : a' * s02 = c * a * r02) by (rewrite T12, S22 in F02; lra).
  clear F00 F01 F02.
  assert (Ha2 : a' * a' = a * a).
  { clear -S00 S01 S02 N0 N0' Hc2.
    assert (H1 : a' * s00 * (a' * s00) + a' * s01 * (a' * s01) + a' * s02 * (a' * s02) =
                 a' * a' * (s00 * s00 + s01 * s01 + s02 * s02)) by ring.
    rewrite N0', S00, S01, S02 in H1.
    assert (H2 : c * a * r00 * (c * a * r00) + c * a * r01 * (c * a * r01) +
                 c * a * r02 * (c * a * r02) =
                 c * c * (a * a) * (r00 * r00 + r01 * r01 + r02 * r02)) by ring.
    rewrite N0, Hc2 in H2. lra. }
  assert (Haa : a' = a) by (clear -Ha2 Ha Ha'; nra). subst a'.
  assert (T00 : s00 = c * r00) by (clear -S00 Ha; nra).
  assert (T01 : s01 = c * r01) by (clear -S01 Ha; nra).
  assert (T02 : s02 = c * r02) by (clear -S02 Ha; nra).
  assert (Hc1 : c = 1).
  { clear -HdR HdR' T00 T01 T02 T10 T11 T12 S20 S21 S22 Hc2.
    subst s00 s01 s02 s10 s11 s12 s20 s21 s22.
    unfold dot3 in HdR, HdR'; simpl in HdR, HdR'.
    assert (H3 : c * (c * c) * (r00 * (r11 * r22 - r12 * r21) + r01 * (r12 * r20 - r10 * r22) +
                                r02 * (r10 * r21 - r11 * r20)) = 1)
      by (rewrite <- HdR'; ring).
    rewrite HdR, Hc2 in H3. lra. }
  subst c. split; [reflexivity|]. split; [reflexivity|].
  subst. apply mat33_eq; apply vec3_eq; ring.
Qed.

(** What [KRt_from_P] returns on a camera matrix of nonsingular leading
    block, with the shape of each factor. *)
Lemma KRt_from_P_decomposes (linalg_qr : mat33 -> mat33 * mat33)
  (solve_singular : mat33 -> vec3 -> option vec3) (P : mat34) :
  det33 (left_block P) <> 0 ->
  qr_spec (T33 (flipud (left_block P)))
          (fst (linalg_qr (T33 (flipud (left_block P)))))
          (snd (linalg_qr (T33 (flipud (left_block P))))) ->
  exists K R t,
    KRt_from_P linalg_qr solve_singular P = Ok (K, R, t) /\
    upper_triangular K /\
    0 < x3 (m33_0 K) /\ 0 < y3 (m33_1 K) /\ z3 (m33_2 K) = 1 /\
    orthogonal R /\ det33 R = 1 /\
    exists c, c <> 0 /\ mul33_34 K (concatenate_axis1 R t) = scale34 c P.
Proof.
  intros Hdet Hqr.
  destruct (RQ_factorization_correct linalg_qr (left_block P) Hqr) as (HKR & HK0 & HR0).
  unfold KRt_from_P.
  destruct (RQ_factorization linalg_qr (left_block P)) as [K0 R0]. cbn [fst snd] in *.
  (* the diagonal of K0 has no zero *)
  assert (HdK : det33 K0 * det33 R0 <> 0) by (rewrite <- det33_mul33, HKR; exact Hdet).
  rewrite (det33_upper K0 HK0) in HdK.
  assert (Hk0 : x3 (m33_0 K0) <> 0) by (intros E; apply HdK; rewrite E; ring).
  assert (Hk1 : y3 (m33_1 K0) <> 0) by (intros E; apply HdK; rewrite E; ring).
  assert (Hk2 : z3 (m33_2 K0) <> 0) by (intros E; apply HdK; rewrite E; ring).
  pose proof (diag_sign_involutive K0 Hk0 Hk1 Hk2) as HTT.
  pose proof (T33_diag_sign K0) as HTt.
  destruct (sign_nonzero _ Hk0) as (_ & P0), (sign_nonzero _ Hk1) as (_ & P1),
    (sign_nonzero _ Hk2) as (_ & P2).
  set (T := diag_sign K0) in *.
  set (K1 := mul33 K0 T). set (R1 := mul33 T R0).
  assert (HK1R1 : mul33 K1 R1 = left_block P).
  { unfold K1, R1. rewrite mul33_assoc, <- (mul33_assoc T T), HTT, mul33_I33_l. exact HKR. }
  assert (HR1 : orthogonal R1).
  { destruct HR0 as [O1 O2]. unfold R1. split.
    - rewrite T33_mul33, HTt, mul33_assoc, <- (mul33_assoc R0), O1, mul33_I33_l. exact HTT.
    - rewrite T33_mul33, HTt, mul33_assoc, <- (mul33_assoc T T), HTT, mul33_I33_l. exact O2. }
  assert (HK1 : upper_triangular K1 /\
                x3 (m33_0 K1) = x3 (m33_0 K0) * np.sign (x3 (m33_0 K0)) /\
                y3 (m33_1 K1) = y3 (m33_1 K0) * np.sign (y3 (m33_1 K0)) /\
                z3 (m33_2 K1) = z3 (m33_2 K0) * np.sign (z3 (m33_2 K0))).
  { unfold K1, T, diag_sign. destruct K0 as [[a b c] [d e f] [g h k]].
    unfold upper_triangular in *; simpl in *. destruct HK0 as (-> & -> & ->).
    unfold vm33, dot3; simpl. repeat split; ring. }
  destruct HK1 as (HK1u & D0 & D1 & D2).
  assert (HdK1 : det33 K1 <> 0).
  { rewrite (det33_upper K1 HK1u), D0, D1, D2.
    apply Rgt_not_eq. apply Rmult_lt_0_compat; [apply Rmult_lt_0_compat|]; assumption. }
  destruct (linalg_solve_correct solve_singular K1 (last_column P) HdK1) as (t1 & Et & Ht).
  rewrite Et. cbn [bind].
  set (k := z3 (m33_2 K1)) in *.
  assert (Hk : 0 < k) by (rewrite D2; exact P2).
  assert (HKu : upper_triangular (div33 K1 k) /\ 0 < x3 (m33_0 (div33 K1 k)) /\
                0 < y3 (m33_1 (div33 K1 k)) /\ z3 (m33_2 (div33 K1 k)) = 1).
  { rewrite <- D0 in P0. rewrite <- D1 in P1. unfold k in *. clearbody K1.
    destruct K1 as [[a b c] [d e f] [g h k1]].
    unfold upper_triangular in *; simpl in *. destruct HK1u as (-> & -> & ->).
    unfold Rdiv. rewrite !Rmult_0_l.
    repeat split; try reflexivity.
    - apply Rmult_lt_0_compat; [assumption|apply Rinv_0_lt_compat; assumption].
    - apply Rmult_lt_0_compat; [assumption|apply Rinv_0_lt_compat; assumption].
    - field. lra. }
  destruct HKu as (HKu & HKx & HKy & HKz).
  destruct (Rlt_dec (det33 R1) 0) as [Hneg|Hpos].
  - exists (div33 K1 k), (neg33 R1), (neg3 t1).
    split; [reflexivity|]. repeat (split; [assumption|]).
    split; [apply orthogonal_neg33; exact HR1|].
    split.
    { rewrite det33_neg33. destruct (orthogonal_det R1 HR1); lra. }
    exists (- / k). split.
    { pose proof (Rinv_0_lt_compat k Hk). lra. }
    rewrite mul33_34_concatenate, mul33_div33, mv33_div33, mul33_neg33, mv33_neg3.
    rewrite scale33_scale33, scale3_scale3, HK1R1, Ht.
    rewrite (concatenate_blocks P) at 3. rewrite scale34_concatenate.
    f_equal; f_equal; ring.
  - exists (div33 K1 k), R1, t1.
    split; [reflexivity|]. repeat (split; [assumption|]).
    split.
    { destruct (orthogonal_det R1 HR1); lra. }
    exists (/ k). split.
    { apply Rinv_neq_0_compat. lra. }
    rewrite mul33_34_concatenate, mul33_div33, mv33_div33, HK1R1, Ht.
    rewrite (concatenate_blocks P) at 3. rewrite scale34_concatenate. reflexivity.
Qed.

Lemma concatenate_axis1_inj A b A' b' :
  concatenate_axis1 A b = concatenate_axis1 A' b' -> A = A' /\ b = b'.
Proof.
  destruct A as [[] [] []], A' as [[] [] []], b, b'.
  unfold concatenate_axis1; simpl. intros [= -> -> -> -> -> -> -> -> -> -> -> ->].
  split; reflexivity.
Qed.

Lemma det33_scale33 c A : det33 (scale33 c A) = c * c * c * det33 A.
Proof.
  destruct A as [[] [] []]. unfold det33, scale33, scale3, dot3, cross; simpl. ring.
Qed.

Lemma left_block_scale34 c P : left_block (scale34 c P) = scale33 c (left_block P).
Proof. destruct P as [[] [] []]. reflexivity. Qed.

Lemma left_block_concatenate A b : left_block (concatenate_axis1 A b) = A.
Proof. destruct A as [[] [] []], b. reflexivity. Qed.

(** An upper triangular matrix of positive diagonal acts injectively. *)
Lemma mv33_upper_inj (K : mat33) (t t' : vec3) :
  upper_triangular K ->
  0 < x3 (m33_0 K) -> 0 < y3 (m33_1 K) -> 0 < z3 (m33_2 K) ->
  mv33 K t' = mv33 K t -> t' = t.
Proof.
  destruct K as [[a b c] [z1 d e] [z2 z3 k]], t as [u v w], t' as [u' v' w'].
  unfold upper_triangular, mv33, dot3; simpl.
  intros (-> & -> & ->) Ha Hd Hk [= E0 E1 E2].
  assert (Hw : w' = w) by nra. subst w'.
  assert (Hv : v' = v) by nra. subst v'.
  assert (Hu : u' = u) by nra. subst u'.
  reflexivity.
Qed.

(** X16.  [KRt_from_P] undoes the composition of a camera: for intrinsics
    [K] (upper triangular, positive diagonal, [K[2,2] = 1]), a rotation [R],
    any translation [t] and any nonzero scale [s], it returns exactly
    [(K, R, t)] on [s * K @ [R|t]], whatever QR factors [np.linalg.qr]
    picks. *)
Theorem KRt_from_P_recovers_factors (linalg_qr : mat33 -> mat33 * mat33)
  (solve_singular : mat33 -> vec3 -> option vec3)
  (K Ro : mat33) (t : vec3) (s : R) :
  upper_triangular K ->
  0 < x3 (m33_0 K) -> 0 < y3 (m33_1 K) -> z3 (m33_2 K) = 1 ->
  orthogonal Ro -> det33 Ro = 1 -> s <> 0 ->
  qr_spec (T33 (flipud (left_block (scale34 s (mul33_34 K (concatenate_axis1 Ro t))))))
    (fst (linalg_qr (T33 (flipud (left_block
       (scale34 s (mul33_34 K (concatenate_axis1 Ro t))))))))
    (snd (linalg_qr (T33 (flipud (left_block
       (scale34 s (mul33_34 K (concatenate_axis1 Ro t)))))))) ->
  KRt_from_P linalg_qr solve_singular (scale34 s (mul33_34 K (concatenate_axis1 Ro t))) =
    Ok (K, Ro, t).
Proof.
  intros HK Ha Hd Hk HR HdR Hs Hqr.
  set (P := scale34 s (mul33_34 K (concatenate_axis1 Ro t))) in *.
  assert (Hdet : det33 (left_block P) <> 0).
  { unfold P. rewrite mul33_34_concatenate, left_block_scale34, left_block_concatenate,
      det33_scale33, det33_mul33, HdR, (det33_upper K HK), Hk.
    assert (0 < x3 (m33_0 K) * y3 (m33_1 K)) by (apply Rmult_lt_0_compat; assumption).
    assert (s * s * s <> 0) by (repeat apply Rmult_integral_contrapositive_currified; assumption).
    intros E. apply Rmult_integral in E as [E|E]; [contradiction|]. lra. }
  destruct (KRt_from_P_decomposes linalg_qr solve_singular P Hdet Hqr)
    as (K' & R' & t' & E & HK' & Ha' & Hd' & Hk' & HR' & HdR' & c & Hc & Eq).
  rewrite E. unfold P in Eq.
  rewrite !mul33_34_concatenate, !scale34_concatenate, scale33_scale33, scale3_scale3 in Eq.
  apply concatenate_axis1_inj in Eq as [EA Eb].
  destruct (KR_unique K K' Ro R' (c * s) HK HK' Ha Hd Hk Ha' Hd' Hk' HR HR' HdR HdR' EA)
    as (Hcs & -> & ->).
  rewrite Hcs in Eb.
  assert (Et : t' = t).
  { apply (mv33_upper_inj K); try assumption; [lra|].
    rewrite Eb. destruct (mv33 K t). unfold scale3; simpl. apply vec3_eq; ring. }
  rewrite Et. reflexivity.
Qed.

(** Intrinsics of positive diagonal, a rotation by a half turn about the
    second axis, and a translation; the camera they compose, negated. *)
Definition K_positive : mat33 := M33 (V3 2 0 1) (V3 0 3 1) (V3 0 0 1).
Definition R_half_turn : mat33 := M33 (V3 (-1) 0 0) (V3 0 1 0) (V3 0 0 (-1)).
Definition t_example : vec3 := V3 1 (1 / 3) (-3).

Lemma KRt_from_P_recovers_factors_witness :
  KRt_from_P qr_example solve_raises
    (scale34 (-1) (mul33_34 K_positive (concatenate_axis1 R_half_turn t_example))) =
  Ok (K_positive, R_half_turn, t_example).
Proof.
  apply (KRt_from_P_recovers_factors qr_example solve_raises K_positive R_half_turn
           t_example (-1)).
  - unfold upper_triangular, K_positive; simpl. repeat split; reflexivity.
  - unfold K_positive; simpl. lra.
  - unfold K_positive; simpl. lra.
  - reflexivity.
  - unfold orthogonal, R_half_turn, T33, mul33, vm33, dot3, col33_0, col33_1, col33_2, I33;
      simpl. split; apply mat33_eq; apply vec3_eq; lra.
  - unfold det33, R_half_turn, dot3, cross; simpl. lra.
  - lra.
  - rewrite mul33_34_concatenate, left_block_scale34, left_block_concatenate.
    assert (EA : scale33 (-1) (mul33 K_positive R_half_turn) =
                 M33 (V3 2 0 1) (V3 0 (-3) 1) (V3 0 0 1)).
    { unfold K_positive, R_half_turn, scale33, scale3, mul33, vm33, dot3,
        col33_0, col33_1, col33_2; cbn [x3 y3 z3 m33_0 m33_1 m33_2].
      apply mat33_eq; apply vec3_eq; lra. }
    rewrite EA.
    unfold qr_spec, orthogonal, upper_triangular, qr_example, J33.
    cbn [fst snd].
    unfold flipud, T33, mul33, vm33, dot3, col33_0, col33_1, col33_2, I33;
      cbn [x3 y3 z3 m33_0 m33_1 m33_2].
    repeat split; try (apply mat33_eq; apply vec3_eq; lra); lra.
Defined.


(** ** Direct linear transform: the linear system and the camera *)

(** [P.ravel()] and the product of one row of [A] with a vector. *)
Definition ravel (P : mat34) : list R :=
  [x4 (m34_0 P); y4 (m34_0 P); z4 (m34_0 P); w4 (m34_0 P);
   x4 (m34_1 P); y4 (m34_1 P); z4 (m34_1 P); w4 (m34_1 P);
   x4 (m34_2 P); y4 (m34_2 P); z4 (m34_2 P); w4 (m34_2 P)].
Definition row_dot (r p : list R) : R :=
  np.sum (map (fun ab => fst ab * snd ab) (combine r p)).

Lemma reshape34_ravel P : reshape34 (ravel P) = P.
Proof. destruct P as [[] [] []]. reflexivity. Qed.

Lemma dlt_row_even_dot (X : vec4) (x : vec3) (P : mat34) :
  row_dot (dlt_row_even X x) (ravel P) = x3 (cross x (mv34 P X)).
Proof.
  destruct P as [[] [] []], X, x.
  unfold row_dot, dlt_row_even, ravel, np.sum, cross, mv34, dot4; simpl. ring.
Qed.

Lemma dlt_row_odd_dot (X : vec4) (x : vec3) (P : mat34) :
  row_dot (dlt_row_odd X x) (ravel P) = y3 (cross x (mv34 P X)).
Proof.
  destruct P as [[] [] []], X, x.
  unfold row_dot, dlt_row_odd, ravel, np.sum, cross, mv34, dot4; simpl. ring.
Qed.

Lemma getitem_Ok_inv {A : Type} (a : list A) (i : nat) (r : A) :
  getitem a i = Ok r <-> nth_error a i = Some r.
Proof.
  unfold getitem. destruct (nth_error a i); split; intros H; try discriminate;
    injection H as ->; reflexivity.
Qed.

(** The constraint that the two rows of one correspondence put on [P]. *)
Definition dlt_constraint (P : mat34) (X : vec4) (x : vec3) : Prop :=
  x3 (cross x (mv34 P X)) = 0 /\ y3 (cross x (mv34 P X)) = 0.

Lemma dlt_loop_null (pts3d : list vec4) (pts2d : list vec3) (P : mat34) :
  forall idx A,
    dlt_loop idx pts3d pts2d = Ok A ->
    (Forall (fun r => row_dot r (ravel P) = 0) A <->
     Forall (fun i => forall X x, nth_error pts3d i = Some X -> nth_error pts2d i = Some x ->
                                  dlt_constraint P X x) idx).
Proof.
  induction idx as [|i idx IH]; intros A E; simpl in E.
  - injection E as <-. split; constructor.
  - destruct (getitem pts3d i) as [X|] eqn:EX; [|discriminate].
    destruct (getitem pts2d i) as [x|] eqn:Ex; [|discriminate].
    destruct (dlt_loop idx pts3d pts2d) as [A'|] eqn:EA; [|discriminate].
    cbn [bind] in E. injection E as <-.
    apply getitem_Ok_inv in EX, Ex.
    specialize (IH A' eq_refl).
    split; intros H.
    + inversion H as [|r0 l0 H0 H']; subst. inversion H' as [|r1 l1 H1 H'']; subst.
      constructor; [|apply IH; assumption].
      intros X' x' EX' Ex'. rewrite EX in EX'. rewrite Ex in Ex'.
      injection EX' as <-. injection Ex' as <-.
      split; [rewrite <- dlt_row_even_dot|rewrite <- dlt_row_odd_dot]; assumption.
    + inversion H as [|i0 l0 H0 H']; subst.
      destruct (H0 X x EX Ex) as [C0 C1].
      constructor; [rewrite dlt_row_even_dot; exact C0|].
      constructor; [rewrite dlt_row_odd_dot; exact C1|].
      apply IH; assumption.
Qed.

(** X19.  The linear system that [camera_matrix] builds states the
    projection equations of the first six correspondences: a camera [P],
    flattened, is annihilated by every row of [A] exactly when, for each
    [i < 6], the first two coordinates of [pts2d[i] x (P @ pts3d[i])]
    vanish. *)
Theorem dlt_matrix_null_vectors (pts3d : list vec4) (pts2d : list vec3)
  (A : list (list R)) (P : mat34) :
  dlt_matrix pts3d pts2d = Ok A ->
  (Forall (fun r => row_dot r (ravel P) = 0) A <->
   forall i X x, (i < 6)%nat ->
     nth_error pts3d i = Some X -> nth_error pts2d i = Some x ->
     x3 (cross x (mv34 P X)) = 0 /\ y3 (cross x (mv34 P X)) = 0).
Proof.
  intros E. unfold dlt_matrix in E.
  rewrite (dlt_loop_null pts3d pts2d P _ A E), Forall_forall.
  split.
  - intros H i X x Hi. apply H. apply in_seq. lia.
  - intros H i Hi X x. apply H. apply in_seq in Hi. lia.
Qed.

Lemma dlt_matrix_null_vectors_witness :
  exists A,
    dlt_matrix pts3d_plane pts2d_plane = Ok A /\
    (Forall (fun r => row_dot r (ravel P_plane) = 0) A <->
     forall i X x, (i < 6)%nat ->
       nth_error pts3d_plane i = Some X -> nth_error pts2d_plane i = Some x ->
       x3 (cross x (mv34 P_plane X)) = 0 /\ y3 (cross x (mv34 P_plane X)) = 0).
Proof.
  eexists. split; [reflexivity|].
  apply (dlt_matrix_null_vectors pts3d_plane pts2d_plane _ P_plane). reflexivity.
Defined.

Lemma mv34_mul33_34 (T : mat33) (P : mat34) (X : vec4) :
  mv34 (mul33_34 T P) X = mv33 T (mv34 P X).
Proof.
  destruct T as [[] [] []], P as [[] [] []], X.
  unfold mv34, mul33_34, mv33, vm34, dot3, dot4, col34_0, col34_1, col34_2, col34_3; simpl.
  apply vec3_eq; ring.
Qed.

Lemma mv33_scale3 (T : mat33) (c : R) (v : vec3) :
  mv33 T (scale3 c v) = scale3 c (mv33 T v).
Proof. mat33_ring. Qed.

Lemma cross_scale3_self (c : R) (v : vec3) : cross (scale3 c v) v = zero3.
Proof. destruct v. unfold cross, scale3, zero3; simpl. apply vec3_eq; ring. Qed.

(** X20.  When the first six image points are exact projections of their
    3D points by a camera [P], up to a factor each, and neither
    normalization divides by a zero deviation, every row of the system [A]
    of [camera_matrix] annihilates [P] written in the normalized
    coordinates, that is the matrix [Pn] with [Pn @ T1 = T2 @ P]. *)
Theorem camera_matrix_system_annihilates_camera
  (pts3d : list vec4) (pts2d : list vec3) (A : list (list R)) (P Pn : mat34) :
  np.std (flat_map (fun p => [x4 p; y4 p; z4 p]) pts3d) <> 0 ->
  np.std (flat_map (fun p => [x3 p; y3 p]) pts2d) <> 0 ->
  dlt_matrix (fst (normalize3dpts pts3d)) (fst (normalize2dpts pts2d)) = Ok A ->
  (forall i X x, (i < 6)%nat ->
     nth_error pts3d i = Some X -> nth_error pts2d i = Some x ->
     exists c, x = scale3 c (mv34 P X)) ->
  mul34_44 Pn (snd (normalize3dpts pts3d)) = mul33_34 (snd (normalize2dpts pts2d)) P ->
  Forall (fun r => row_dot r (ravel Pn) = 0) A.
Proof.
  intros _ _ E Hx HP. unfold dlt_matrix in E.
  apply (dlt_loop_null _ _ Pn _ A E), Forall_forall.
  intros i Hi Xn xn EX Ex. apply in_seq in Hi.
  unfold normalize3dpts in EX, HP. unfold normalize2dpts in Ex, HP. cbn [fst snd] in *.
  rewrite nth_error_map in EX, Ex.
  destruct (nth_error pts3d i) as [X|] eqn:EX0; [|discriminate].
  destruct (nth_error pts2d i) as [x|] eqn:Ex0; [|discriminate].
  injection EX as <-. injection Ex as <-.
  destruct (Hx i X x ltac:(lia) EX0 Ex0) as (c & ->).
  unfold dlt_constraint.
  rewrite <- mv34_mul34_44, HP, mv34_mul33_34, mv33_scale3, cross_scale3_self.
  split; reflexivity.
Qed.

(** The normalizations of the six points of the plane and of their
    images. *)
Lemma normalize3dpts_plane :
  snd (normalize3dpts pts3d_plane) =
  M44 (V4 scale3_plane 0 0 0) (V4 0 scale3_plane 0 0) (V4 0 0 scale3_plane 0) (V4 0 0 0 1).
Proof.
  unfold normalize3dpts. cbn [snd]. fold scale3_plane.
  assert (E0 : np.mean (map x4 pts3d_plane) = 0) by (unfold np.mean, np.sum; simpl; lra).
  assert (E1 : np.mean (map y4 pts3d_plane) = 0) by (unfold np.mean, np.sum; simpl; lra).
  assert (E2 : np.mean (map z4 pts3d_plane) = 0) by (unfold np.mean, np.sum; simpl; lra).
  rewrite E0, E1, E2, !Rmult_0_r. reflexivity.
Qed.

Lemma normalize2dpts_plane : snd (normalize2dpts pts2d_plane) = I33.
Proof.
  unfold normalize2dpts. cbn [snd]. rewrite scale2_plane.
  assert (F0 : np.mean (map x3 pts2d_plane) = 0) by (unfold np.mean, np.sum; simpl; lra).
  assert (F1 : np.mean (map y3 pts2d_plane) = 0) by (unfold np.mean, np.sum; simpl; lra).
  rewrite F0, F1, !Rmult_0_r. reflexivity.
Qed.

(** The camera of the plane example in the normalized coordinates. *)
Definition Pn_plane : mat34 :=
  M34 (V4 (/ scale3_plane) 0 0 0) (V4 0 (/ scale3_plane) 0 0) (V4 0 0 (/ scale3_plane) 1).

Lemma Pn_plane_normalized :
  mul34_44 Pn_plane (snd (normalize3dpts pts3d_plane)) =
  mul33_34 (snd (normalize2dpts pts2d_plane)) P_plane.
Proof.
  rewrite normalize3dpts_plane, normalize2dpts_plane.
  pose proof scale3_plane_pos as Hs. unfold Pn_plane, P_plane.
  generalize dependent scale3_plane. intros s Hs.
  unfold mul34_44, mul33_34, I33, vm44, vm34, dot4, dot3,
    col44_0, col44_1, col44_2, col44_3, col34_0, col34_1, col34_2, col34_3;
    cbn [x4 y4 z4 w4 x3 y3 z3 m44_0 m44_1 m44_2 m44_3 m34_0 m34_1 m34_2 m33_0 m33_1 m33_2].
  apply mat34_eq; apply vec4_eq; field; lra.
Qed.

Lemma plane_exact_projections :
  forall i X x, (i < 6)%nat ->
    nth_error pts3d_plane i = Some X -> nth_error pts2d_plane i = Some x ->
    exists c, x = scale3 c (mv34 P_plane X).
Proof.
  intros i X x Hi EX Ex. exists 1.
  do 6 (destruct i as [|i];
        [cbn in EX, Ex; injection EX as <-; injection Ex as <-;
         unfold scale3, mv34, P_plane, dot4; simpl; apply vec3_eq; lra|]).
  lia.
Qed.

Lemma camera_matrix_system_annihilates_camera_witness :
  exists A,
    dlt_matrix (fst (normalize3dpts pts3d_plane)) (fst (normalize2dpts pts2d_plane)) = Ok A /\
    Forall (fun r => row_dot r (ravel Pn_plane) = 0) A.
Proof.
  destruct (dlt_matrix_ok (fst (normalize3dpts pts3d_plane)) (fst (normalize2dpts pts2d_plane)))
    as (A & EA & _).
  { rewrite normalize3dpts_length. simpl. lia. }
  { rewrite normalize2dpts_length. simpl. lia. }
  exists A. split; [exact EA|].
  exact (camera_matrix_system_annihilates_camera pts3d_plane pts2d_plane A P_plane Pn_plane
           std3_plane_nonzero std2_plane_nonzero
           EA plane_exact_projections Pn_plane_normalized).
Defined.

Lemma mul33_34_assoc_44 (A : mat33) (B : mat34) (C : mat44) :
  mul34_44 (mul33_34 A B) C = mul33_34 A (mul34_44 B C).
Proof.
  destruct A as [[? ? ?] [? ? ?] [? ? ?]], B as [[? ? ? ?] [? ? ? ?] [? ? ? ?]],
    C as [[? ? ? ?] [? ? ? ?] [? ? ? ?] [? ? ? ?]].
  unfold mul34_44, mul33_34, vm44, vm34, dot4, dot3,
    col44_0, col44_1, col44_2, col44_3, col34_0, col34_1, col34_2, col34_3; simpl.
  apply mat34_eq; apply vec4_eq; ring.
Qed.

Lemma mul33_34_mul33 (A B : mat33) (C : mat34) :
  mul33_34 A (mul33_34 B C) = mul33_34 (mul33 A B) C.
Proof.
  destruct A as [[? ? ?] [? ? ?] [? ? ?]], B as [[? ? ?] [? ? ?] [? ? ?]],
    C as [[? ? ? ?] [? ? ? ?] [? ? ? ?]].
  unfold mul33_34, mul33, vm34, vm33, dot3, col34_0, col34_1, col34_2, col34_3,
    col33_0, col33_1, col33_2; simpl.
  apply mat34_eq; apply vec4_eq; ring.
Qed.

(** X21.  Line 134 multiplies by the transpose of [T2], not by its
    inverse.  When the singular vector that [svd] returns is, up to a
    nonzero factor, a camera [P] written in the normalized coordinates
    ([p.reshape((3, 4)) @ T1 = c * T2 @ P]), [camera_matrix] returns
    [T2.T @ T2 @ P] divided by its bottom-right entry, provided that entry
    is not 0 and neither normalization divides by a zero deviation. *)
Theorem camera_matrix_denormalizes_by_transpose
  (svd_vh : list (list R) -> list (list R))
  (pts3d : list vec4) (pts2d : list vec3) (P : mat34) (c : R) :
  (6 <= length pts3d)%nat -> (6 <= length pts2d)%nat ->
  np.std (flat_map (fun p => [x4 p; y4 p; z4 p]) pts3d) <> 0 ->
  np.std (flat_map (fun p => [x3 p; y3 p]) pts2d) <> 0 ->
  c <> 0 ->
  (forall A,
     dlt_matrix (fst (normalize3dpts pts3d)) (fst (normalize2dpts pts2d)) = Ok A ->
     mul34_44 (reshape34 (last (svd_vh A) [])) (snd (normalize3dpts pts3d)) =
     scale34 c (mul33_34 (snd (normalize2dpts pts2d)) P)) ->
  w4 (m34_2 (mul33_34 (mul33 (T33 (snd (normalize2dpts pts2d)))
                             (snd (normalize2dpts pts2d))) P)) <> 0 ->
  camera_matrix svd_vh pts3d pts2d =
  Ok (div34 (mul33_34 (mul33 (T33 (snd (normalize2dpts pts2d)))
                             (snd (normalize2dpts pts2d))) P)
            (w4 (m34_2 (mul33_34 (mul33 (T33 (snd (normalize2dpts pts2d)))
                                        (snd (normalize2dpts pts2d))) P)))).
Proof.
  intros H3 H2 S3 S2 Hc Hp Hm. rewrite (camera_matrix_finite svd_vh pts3d pts2d S3 S2).
  destruct (dlt_matrix_ok (fst (normalize3dpts pts3d)) (fst (normalize2dpts pts2d)))
    as (A & EA & _).
  { rewrite normalize3dpts_length. exact H3. }
  { rewrite normalize2dpts_length. exact H2. }
  rewrite EA. cbn [bind]. cbv zeta. f_equal.
  unfold denormalized.
  rewrite mul33_34_assoc_44, (Hp A EA), mul33_34_scale34, mul33_34_mul33.
  apply div34_scale34; assumption.
Qed.

Lemma camera_matrix_denormalizes_by_transpose_witness :
  camera_matrix svd_plane pts3d_plane pts2d_plane =
  Ok (div34 (mul33_34 (mul33 (T33 (snd (normalize2dpts pts2d_plane)))
                             (snd (normalize2dpts pts2d_plane))) P_plane)
            (w4 (m34_2 (mul33_34 (mul33 (T33 (snd (normalize2dpts pts2d_plane)))
                                        (snd (normalize2dpts pts2d_plane))) P_plane)))).
Proof.
  apply (camera_matrix_denormalizes_by_transpose svd_plane pts3d_plane pts2d_plane P_plane
           scale3_plane).
  - simpl. lia.
  - simpl. lia.
  - exact std3_plane_nonzero.
  - exact std2_plane_nonzero.
  - pose proof scale3_plane_pos. lra.
  - intros A _. rewrite normalize3dpts_plane, normalize2dpts_plane.
    unfold svd_plane, reshape34, P_plane. cbn [last nth].
    generalize scale3_plane. intros s.
    unfold mul34_44, mul33_34, scale34, scale4, I33, vm44, vm34, dot4, dot3,
      col44_0, col44_1, col44_2, col44_3, col34_0, col34_1, col34_2, col34_3;
      cbn [x4 y4 z4 w4 x3 y3 z3 m44_0 m44_1 m44_2 m44_3 m34_0 m34_1 m34_2 m33_0 m33_1 m33_2].
    apply mat34_eq; apply vec4_eq; ring.
  - rewrite normalize2dpts_plane.
    unfold P_plane, mul33_34, mul33, T33, I33, vm34, vm33, dot3,
      col34_0, col34_1, col34_2, col34_3, col33_0, col33_1, col33_2;
      cbn [x4 y4 z4 w4 x3 y3 z3 m34_0 m34_1 m34_2 m33_0 m33_1 m33_2].
    lra.
Defined.

(** ** RQ factorization *)

(** X22.  With [np.linalg.qr] returning an orthogonal [Q] and an upper
    triangular [R] whose product is its argument, [RQ_factorization(A)]
    returns an upper triangular matrix and an orthogonal matrix, in this
    order, whose product is [A]. *)
Theorem RQ_factorization_factors (linalg_qr : mat33 -> mat33 * mat33) (A : mat33) :
  qr_spec (T33 (flipud A)) (fst (linalg_qr (T33 (flipud A))))
          (snd (linalg_qr (T33 (flipud A)))) ->
  exists Ru Q,
    RQ_factorization linalg_qr A = (Ru, Q) /\
    upper_triangular Ru /\ orthogonal Q /\ mul33 Ru Q = A.
Proof.
  intros Hqr.
  destruct (RQ_factorization_correct linalg_qr A Hqr) as (HA & HU & HO).
  destruct (RQ_factorization linalg_qr A) as [Ru Q]. cbn [fst snd] in *.
  exists Ru, Q. split; [reflexivity|]. split; [exact HU|]. split; [exact HO|exact HA].
Qed.

Lemma RQ_factorization_factors_witness :
  exists Ru Q,
    RQ_factorization qr_example K_example = (Ru, Q) /\
    upper_triangular Ru /\ orthogonal Q /\ mul33 Ru Q = K_example.
Proof.
  apply (RQ_factorization_factors qr_example K_example).
  unfold qr_spec, orthogonal, upper_triangular, qr_example, K_example, J33.
  cbn [fst snd].
  unfold flipud, T33, mul33, vm33, dot3, col33_0, col33_1, col33_2, I33; simpl.
  repeat split; try (apply mat33_eq; apply vec3_eq; lra); lra.
Defined.
